(** * BaseAuraV2: the tier-tracking token registry, its metadata renderer
      and the client's tier classifier

    A shallow embedding of the Solidity contract [BaseAuraV2], of the React
    client ([App]: [getAuraType], its tables and handlers) and of
    [upsertEnvVar] from the deployment script.

    Conventions.
    - [uint256] and [address] values are naturals of type [N]; Solidity 0.8
      arithmetic is checked, so the one arithmetic operation of the contract
      ([_nextTokenId++]) reverts at [2^256 - 1] instead of wrapping.
    - A Solidity [mapping] is a [gmap]; reading a key that was never written
      yields the type's zero value, as in contract storage.
    - A call either returns [Ok] with the new state, the events it logged and
      its return data, or [Revert]s: a reverted call has no effect at all.
    - [keccak256(bytes(a)) == keccak256(bytes(b))] is modelled as equality of
      the two strings (the hash is taken to be collision free).
    - The inherited OpenZeppelin ERC-721 / Ownable code is represented by the
      part of its behaviour the contract relies on: the owner table, [ownerOf],
      [_safeMint] (with its call to the receiver's [onERC721Received]),
      transfers of ownership and [onlyOwner]; balances and approvals play no
      part in the contract's own functions and are left out. *)

From Stdlib Require Import NArith Ascii String List Lia.
From stdpp Require Import gmap strings list fin_maps.

Local Open Scope string_scope.
Local Open Scope list_scope.
Local Open Scope N_scope.

(** ** Results of calls *)

Inductive failure : Type :=
| Error (reason : string)                   (* require(cond, reason) *)
| Panic_overflow                            (* Panic(0x11) *)
| ERC721NonexistentToken (tokenId : N)
| ERC721InvalidReceiver (receiver : N)
| ERC721InvalidSender (sender : N)
| OwnableUnauthorizedAccount (account : N)
| StringsInsufficientHexLength (value length : N).

Inductive result (A : Type) : Type :=
| Ok (a : A)
| Revert (e : failure).
Arguments Ok {A} a.
Arguments Revert {A} e.

#[global] Instance result_ret : MRet result := fun A a => Ok a.
#[global] Instance result_bind : MBind result := fun A B k r =>
  match r with
  | Ok a => k a
  | Revert e => Revert e
  end.

Definition require (cond : bool) (reason : string) : result unit :=
  if cond then Ok tt else Revert (Error reason).

(** The error names used by the specification, as the revert reasons of the
    contract. *)
Definition DuplicateTarget : failure := Error "This address already has an Aura NFT".
Definition InvalidTier : failure := Error "Invalid aura type".
Definition NotOwner : failure := Error "Not the token owner".
Definition NotMinted : failure := Error "Address has no Aura NFT".
Definition NoSuchToken : failure := Error "Token does not exist".

(** ** Storage *)

Abbreviation address := N.

Definition uint256_max : N := 2 ^ 256 - 1.

Record State : Type := mkState {
  (* ERC721 *)
  _owners : gmap N address;
  (* Ownable *)
  _owner : address;
  (* BaseAuraV2 *)
  _nextTokenId : N;
  _targetAddressToTokenId : gmap address N;
  _targetAddressMinted : gmap address bool;
  _tokenToTargetAddress : gmap N address;
  _tokenAuras : gmap N string;
  baseImageURI : string
}.

Definition set_owners (f : gmap N address → gmap N address) (s : State) : State :=
  mkState (f (_owners s)) (_owner s) (_nextTokenId s) (_targetAddressToTokenId s)
    (_targetAddressMinted s) (_tokenToTargetAddress s) (_tokenAuras s) (baseImageURI s).
Definition set_nextTokenId (n : N) (s : State) : State :=
  mkState (_owners s) (_owner s) n (_targetAddressToTokenId s)
    (_targetAddressMinted s) (_tokenToTargetAddress s) (_tokenAuras s) (baseImageURI s).
Definition set_targetAddressToTokenId (f : gmap address N → gmap address N) (s : State) : State :=
  mkState (_owners s) (_owner s) (_nextTokenId s) (f (_targetAddressToTokenId s))
    (_targetAddressMinted s) (_tokenToTargetAddress s) (_tokenAuras s) (baseImageURI s).
Definition set_targetAddressMinted (f : gmap address bool → gmap address bool) (s : State) : State :=
  mkState (_owners s) (_owner s) (_nextTokenId s) (_targetAddressToTokenId s)
    (f (_targetAddressMinted s)) (_tokenToTargetAddress s) (_tokenAuras s) (baseImageURI s).
Definition set_tokenToTargetAddress (f : gmap N address → gmap N address) (s : State) : State :=
  mkState (_owners s) (_owner s) (_nextTokenId s) (_targetAddressToTokenId s)
    (_targetAddressMinted s) (f (_tokenToTargetAddress s)) (_tokenAuras s) (baseImageURI s).
Definition set_tokenAuras (f : gmap N string → gmap N string) (s : State) : State :=
  mkState (_owners s) (_owner s) (_nextTokenId s) (_targetAddressToTokenId s)
    (_targetAddressMinted s) (_tokenToTargetAddress s) (f (_tokenAuras s)) (baseImageURI s).
Definition set_baseImageURI (u : string) (s : State) : State :=
  mkState (_owners s) (_owner s) (_nextTokenId s) (_targetAddressToTokenId s)
    (_targetAddressMinted s) (_tokenToTargetAddress s) (_tokenAuras s) u.

(** Reads of the mappings: an absent key reads as zero. *)
Definition ownerOf_raw (s : State) (tokenId : N) : address :=
  default 0 (_owners s !! tokenId).
Definition tokenIdOf (s : State) (target : address) : N :=
  default 0 (_targetAddressToTokenId s !! target).
Definition minted (s : State) (target : address) : bool :=
  default false (_targetAddressMinted s !! target).
Definition targetOf (s : State) (tokenId : N) : address :=
  default 0 (_tokenToTargetAddress s !! tokenId).
Definition auraOf (s : State) (tokenId : N) : string :=
  default EmptyString (_tokenAuras s !! tokenId).

(** ** Events and return data *)

Inductive event : Type :=
| Transfer (from to : address) (tokenId : N)                                   (* ERC721 *)
| AuraMinted (minter targetAddress : address) (tokenId : N) (auraType : string)
| AuraUpdated (tokenId : N) (oldAura newAura : string).

Inductive returndata : Type :=
| Void
| Uint (n : N)
| Addr (a : address)
| Bool (b : bool)
| Str (s : string).

Definition outcome : Type := State * list event * returndata.

(** ** Aura types *)

Definition FIRE_WHALE : string := "fire".
Definition WAVE_RIDER : string := "water".
Definition TIDE_WATCHER : string := "tide".
Definition ROCK_HOLDER : string := "rock".

Definition _isValidAura (aura : string) : bool :=
  String.eqb aura FIRE_WHALE ||
  String.eqb aura WAVE_RIDER ||
  String.eqb aura TIDE_WATCHER ||
  String.eqb aura ROCK_HOLDER.

Definition _getAuraName (aura : string) : string :=
  if String.eqb aura FIRE_WHALE then "Fire Whale"
  else if String.eqb aura WAVE_RIDER then "Wave Rider"
  else if String.eqb aura TIDE_WATCHER then "Tide Watcher"
  else if String.eqb aura ROCK_HOLDER then "Rock Holder"
  else "Unknown".

Definition _getAuraDescription (aura : string) : string :=
  if String.eqb aura FIRE_WHALE then "DeFi Power User - 500+ transactions on Base"
  else if String.eqb aura WAVE_RIDER then "Active Explorer - 100-499 transactions on Base"
  else if String.eqb aura TIDE_WATCHER then "Getting Started - 10-99 transactions on Base"
  else if String.eqb aura ROCK_HOLDER then "Diamond Hands HODLer - 1-9 transactions on Base"
  else "Base Aura NFT".

Definition _getAuraTier (aura : string) : string :=
  if String.eqb aura FIRE_WHALE then "Legendary"
  else if String.eqb aura WAVE_RIDER then "Rare"
  else if String.eqb aura TIDE_WATCHER then "Uncommon"
  else if String.eqb aura ROCK_HOLDER then "Common"
  else "Unknown".

(** ** Inherited behaviour: ERC721 and Ownable *)

(** [ERC721.ownerOf]: reverts for a token without owner. *)
Definition ownerOf (s : State) (tokenId : N) : result address :=
  let owner := ownerOf_raw s tokenId in
  if owner =? 0 then Revert (ERC721NonexistentToken tokenId) else Ok owner.

(** [ERC721._mint]: the receiver must not be the zero address and the token
    must not exist yet; logs [Transfer(0, to, tokenId)]. *)
Definition _mint (to : address) (tokenId : N) (s : State) : result (State * list event) :=
  if to =? 0 then Revert (ERC721InvalidReceiver 0)
  else if negb (ownerOf_raw s tokenId =? 0) then Revert (ERC721InvalidSender 0)
  else Ok (set_owners <[tokenId := to]> s, [Transfer 0 to tokenId]).

(** [ERC721._safeMint]: [_mint], then the acceptance check
    [checkOnERC721Received]. When [to] is a contract the check is an external
    call to [to.onERC721Received], which runs arbitrary code of [to] on the
    state as [_mint] left it; [onERC721Received] stands for that call and
    reverts when the token is not accepted. For an account without code the
    check is skipped, which is the hook [fun s => Ok (s, [])]. *)
Definition _safeMint (onERC721Received : State → result (State * list event))
    (to : address) (tokenId : N) (s : State) : result (State * list event) :=
  '(s1, ev1) ← _mint to tokenId s;
  '(s2, ev2) ← onERC721Received s1;
  Ok (s2, ev1 ++ ev2).

(** [ERC721.transferFrom] and [safeTransferFrom], reduced to their effect on
    this contract's state: the owner of an existing token is replaced by a
    non-zero address. Who is authorised to do so is the library's concern; the
    model allows every such change. *)
Definition transferFrom (to : address) (tokenId : N) (s : State) : result outcome :=
  from ← ownerOf s tokenId;
  if to =? 0 then Revert (ERC721InvalidReceiver 0)
  else Ok (set_owners <[tokenId := to]> s, [Transfer from to tokenId], Void).

(** [Ownable.onlyOwner]. *)
Definition onlyOwner (msg_sender : address) (s : State) : result unit :=
  if _owner s =? msg_sender then Ok tt
  else Revert (OwnableUnauthorizedAccount msg_sender).

(** ** The contract *)

Definition constructor (msg_sender : address) (_baseImageURI : string) : State :=
  mkState ∅ msg_sender 0 ∅ ∅ ∅ ∅ _baseImageURI.

Definition mint (onERC721Received : State → result (State * list event))
    (msg_sender targetAddress : address) (auraType : string) (s : State)
    : result outcome :=
  _ ← require (negb (minted s targetAddress)) "This address already has an Aura NFT";
  _ ← require (_isValidAura auraType) "Invalid aura type";
  (* uint256 tokenId = _nextTokenId++; *)
  let tokenId := _nextTokenId s in
  if tokenId =? uint256_max then Revert Panic_overflow else
  let s := set_nextTokenId (tokenId + 1) s in
  '(s, ev) ← _safeMint onERC721Received msg_sender tokenId s;
  let s := set_tokenAuras <[tokenId := auraType]> s in
  let s := set_targetAddressToTokenId <[targetAddress := tokenId]> s in
  let s := set_targetAddressMinted <[targetAddress := true]> s in
  let s := set_tokenToTargetAddress <[tokenId := targetAddress]> s in
  Ok (s, ev ++ [AuraMinted msg_sender targetAddress tokenId auraType], Void).

Definition updateAura (msg_sender : address) (tokenId : N) (newAura : string)
    (s : State) : result outcome :=
  owner ← ownerOf s tokenId;
  _ ← require (owner =? msg_sender) "Not the token owner";
  _ ← require (_isValidAura newAura) "Invalid aura type";
  let oldAura := auraOf s tokenId in
  let s := set_tokenAuras <[tokenId := newAura]> s in
  Ok (s, [AuraUpdated tokenId oldAura newAura], Void).

Definition getTokenByTargetAddress (s : State) (targetAddress : address) : result N :=
  _ ← require (minted s targetAddress) "Address has no Aura NFT";
  Ok (tokenIdOf s targetAddress).

Definition getTargetAddress (s : State) (tokenId : N) : result address :=
  _ ← require (tokenId <? _nextTokenId s) "Token does not exist";
  Ok (targetOf s tokenId).

Definition hasMinted (s : State) (targetAddress : address) : bool :=
  minted s targetAddress.

Definition getAura (s : State) (tokenId : N) : result string :=
  _ ← require (tokenId <? _nextTokenId s) "Token does not exist";
  Ok (auraOf s tokenId).

Definition setBaseImageURI (msg_sender : address) (newBaseURI : string) (s : State)
    : result outcome :=
  _ ← onlyOwner msg_sender s;
  Ok (set_baseImageURI newBaseURI s, [], Void).

(** ** The metadata renderer *)

(** OpenZeppelin [Strings]: the digit table, decimal and fixed-width
    hexadecimal rendering. *)
Definition HEX_DIGITS : string := "0123456789abcdef".

Definition hex_digit (d : N) : ascii :=
  match String.get (N.to_nat d) HEX_DIGITS with
  | Some c => c
  | None => "0"%char
  end.

(** [do { buffer[--ptr] = HEX_DIGITS[value % 10]; value /= 10; } while (value != 0)] *)
Fixpoint toString_loop (fuel : nat) (value : N) (buffer : string) : string :=
  match fuel with
  | O => buffer
  | S fuel' =>
      let buffer := String (hex_digit (value mod 10)) buffer in
      let value := value / 10 in
      if value =? 0 then buffer else toString_loop fuel' value buffer
  end.

Definition toString (value : N) : string :=
  toString_loop (S (N.to_nat (N.log2 value))) value EmptyString.

(** [for (i = 2 * length + 1; i > 1; --i) { buffer[i] = HEX_DIGITS[localValue & 0xf]; localValue >>= 4; }] *)
Fixpoint toHexString_loop (n : nat) (localValue : N) (buffer : string) : N * string :=
  match n with
  | O => (localValue, buffer)
  | S n' =>
      toHexString_loop n' (N.shiftr localValue 4)
        (String (hex_digit (N.land localValue 15)) buffer)
  end.

Definition toHexString (value length : N) : result string :=
  let '(localValue, buffer) :=
    toHexString_loop (N.to_nat (2 * length)) value EmptyString in
  if localValue =? 0 then Ok ("0x" +:+ buffer)
  else Revert (StringsInsufficientHexLength value length).

(** [uint160(a)]: the 160 bits of an address. *)
Definition uint160 (a : address) : N := a mod 2 ^ 160.

(** OpenZeppelin [Base64.encode]: three bytes become four characters of the
    table, the last group is padded with [=]. *)
Definition _TABLE : string :=
  "ABCDEFGHIJKLMNOPQRSTUVWXYZabcdefghijklmnopqrstuvwxyz0123456789+/".

Definition b64_char (i : N) : ascii :=
  match String.get (N.to_nat i) _TABLE with
  | Some c => c
  | None => "="%char
  end.

Fixpoint Base64_encode (data : string) : string :=
  match data with
  | EmptyString => EmptyString
  | String a EmptyString =>
      let x := N_of_ascii a in
      String (b64_char (N.shiftr x 2))
     (String (b64_char (N.shiftl (N.land x 3) 4)) "==")
  | String a (String b EmptyString) =>
      let x := N_of_ascii a in
      let y := N_of_ascii b in
      String (b64_char (N.shiftr x 2))
     (String (b64_char (N.lor (N.shiftl (N.land x 3) 4) (N.shiftr y 4)))
     (String (b64_char (N.shiftl (N.land y 15) 2)) "="))
  | String a (String b (String c rest)) =>
      let x := N_of_ascii a in
      let y := N_of_ascii b in
      let z := N_of_ascii c in
      String (b64_char (N.shiftr x 2))
     (String (b64_char (N.lor (N.shiftl (N.land x 3) 4) (N.shiftr y 4)))
     (String (b64_char (N.lor (N.shiftl (N.land y 15) 2) (N.shiftr z 6)))
     (String (b64_char (N.land z 63)) (Base64_encode rest))))
  end.

(** [abi.encodePacked] of strings is their concatenation. *)
Definition encodePacked (parts : list string) : string :=
  String.concat EmptyString parts.

(** The double quote character, and a literal given by its pieces between
    double quotes: [lit] joins the pieces, putting one double quote between
    each two of them. *)
Definition dq : string := String (ascii_of_nat 34) EmptyString.
Definition lit (pieces : list string) : string := String.concat dq pieces.

(** The document assembled inside [tokenURI]. *)
Definition tokenJSON (tokenId : N)
    (auraName auraDescription imageUrl auraTier targetHex : string) : string :=
  encodePacked
    [ lit ["{"; "name"; ": "; "Base Aura #"];
      toString tokenId;
      " - ";
      auraName;
      lit [EmptyString; ", "; "description"; ": "; EmptyString];
      auraDescription;
      lit [EmptyString; ", "; "image"; ": "; EmptyString];
      imageUrl;
      lit [EmptyString; ", "; "attributes"; ": [{"; "trait_type"; ": "; "Aura Type";
           ", "; "value"; ": "; EmptyString];
      auraName;
      lit [EmptyString; "}, {"; "trait_type"; ": "; "Tier"; ", "; "value"; ": "; EmptyString];
      auraTier;
      lit [EmptyString; "}, {"; "trait_type"; ": "; "Target Address"; ", "; "value"; ": ";
           EmptyString];
      targetHex;
      lit [EmptyString; "}]}"] ].

Definition tokenURI (s : State) (tokenId : N) : result string :=
  _ ← require (tokenId <? _nextTokenId s) "Token does not exist";
  let auraType := auraOf s tokenId in
  let auraName := _getAuraName auraType in
  let auraDescription := _getAuraDescription auraType in
  let imageUrl := encodePacked [baseImageURI s; auraType; ".png"] in
  let targetAddr := targetOf s tokenId in
  targetHex ← toHexString (uint160 targetAddr) 20;
  let json :=
    Base64_encode
      (tokenJSON tokenId auraName auraDescription imageUrl
         (_getAuraTier auraType) targetHex) in
  Ok (encodePacked ["data:application/json;base64,"; json]).

(** ** External calls and their execution *)

(** A call to the contract. A [Mint] also says what its sender does when
    [_safeMint] asks it to accept the token: an account without code, or a
    contract that just accepts, has [callbacks = []] and [accepted = true]; a
    contract sender may also call the registry from its [onERC721Received]
    ([callbacks], in order, each caught if it reverts) and may refuse the token
    ([accepted = false], which reverts the whole mint). *)
#[local] Unset Elimination Schemes.
Inductive call : Type :=
| Mint (msg_sender targetAddress : address) (auraType : string)
       (callbacks : list call) (accepted : bool)
| UpdateAura (msg_sender : address) (tokenId : N) (newAura : string)
| SetBaseImageURI (msg_sender : address) (newBaseURI : string)
| TransferFrom (to : address) (tokenId : N)
| GetTokenByTargetAddress (targetAddress : address)
| GetTargetAddress (tokenId : N)
| HasMinted (targetAddress : address)
| GetAura (tokenId : N)
| TokenURI (tokenId : N).
#[local] Set Elimination Schemes.

(** A view function: no state change, no events. *)
Definition view {A} (wrap : A → returndata) (r : result A) (s : State) : result outcome :=
  a ← r; Ok (s, [], wrap a).

Section Run.
Variable exec : call → State → result outcome.

(** Calls made one after the other, each on the state the previous one
    left; a call that reverts changes nothing and logs nothing. *)
Fixpoint run_with (calls : list call) (s : State) : State * list event :=
  match calls with
  | [] => (s, [])
  | c :: calls' =>
      match exec c s with
      | Ok (s', ev, _) =>
          let '(s'', ev') := run_with calls' s' in (s'', ev ++ ev')
      | Revert _ => run_with calls' s
      end
  end.
End Run.

Fixpoint exec (c : call) (s : State) {struct c} : result outcome :=
  match c with
  | Mint msg_sender targetAddress auraType callbacks accepted =>
      mint (fun s1 =>
              if accepted then Ok (run_with exec callbacks s1)
              else Revert (ERC721InvalidReceiver msg_sender))
           msg_sender targetAddress auraType s
  | UpdateAura msg_sender tokenId newAura => updateAura msg_sender tokenId newAura s
  | SetBaseImageURI msg_sender newBaseURI => setBaseImageURI msg_sender newBaseURI s
  | TransferFrom to tokenId => transferFrom to tokenId s
  | GetTokenByTargetAddress targetAddress => view Uint (getTokenByTargetAddress s targetAddress) s
  | GetTargetAddress tokenId => view Addr (getTargetAddress s tokenId) s
  | HasMinted targetAddress => view Bool (Ok (hasMinted s targetAddress)) s
  | GetAura tokenId => view Str (getAura s tokenId) s
  | TokenURI tokenId => view Str (tokenURI s tokenId) s
  end.

Definition run : list call → State → State * list event := run_with exec.

(** A transaction: the call made by an externally owned account. *)
Inductive receipt : Type :=
| Success (r : returndata)
| Failed (e : failure).

Definition transact (c : call) (s : State) : State * list event * receipt :=
  match exec c s with
  | Ok (s', ev, r) => (s', ev, Success r)
  | Revert e => (s, [], Failed e)
  end.

(** States the deployed contract can be in. *)
Inductive reachable : State → Prop :=
| reachable_constructor deployer uri : reachable (constructor deployer uri)
| reachable_call s c s' ev r :
    reachable s → exec c s = Ok (s', ev, r) → reachable s'.

(** ** The client's tier classifier *)

Definition getAuraType (txCount : Z) : option string :=
  if (500 <=? txCount)%Z then Some "fire"
  else if (100 <=? txCount)%Z then Some "water"
  else if (10 <=? txCount)%Z then Some "tide"
  else if (1 <=? txCount)%Z then Some "rock"
  else None.

(** ** The client: tables, address check and handlers

    The React component [App]. Its state is the record [AppState]; the
    account of the wallet hook is part of it ([wallet], connected when there
    is one). The emoji of the configuration entries are display text and are
    left out. [AURA_CONFIG] and [AURA_IMAGES] are the tables as written: the
    entries of the two object literals, [None] for every other key. (A key
    such as constructor, which every object inherits, is no entry of the
    tables; the members inherited have no [minTx] and no [tier], and the
    component reads [name] and [tagline] only at labels of the classifier.) *)

Module AuraInfo.
Record t : Type := mk { name : string; tagline : string; minTx : Z; tier : Z }.
End AuraInfo.

Definition AURA_CONFIG (key : string) : option AuraInfo.t :=
  if String.eqb key "fire" then Some (AuraInfo.mk "Fire Whale" "DeFi Power User" 500 4)
  else if String.eqb key "water" then Some (AuraInfo.mk "Wave Rider" "Active Explorer" 100 3)
  else if String.eqb key "tide" then Some (AuraInfo.mk "Tide Watcher" "Getting Started" 10 2)
  else if String.eqb key "rock" then Some (AuraInfo.mk "Rock Holder" "Diamond Hands HODLer" 1 1)
  else None.

Definition images_base : string :=
  "https://esolvhnpvfoavgycrwgy.supabase.co/storage/v1/object/public/base-aura/images/".

Definition AURA_IMAGES (key : string) : option string :=
  if String.eqb key "fire" then Some (images_base +:+ "fire.png")
  else if String.eqb key "water" then Some (images_base +:+ "water.png")
  else if String.eqb key "tide" then Some (images_base +:+ "tide.png")
  else if String.eqb key "rock" then Some (images_base +:+ "rock.png")
  else if String.eqb key "collection" then Some (images_base +:+ "collection.png")
  else None.

(** The character class [[a-fA-F0-9]]. *)
Definition isHexDigit (c : ascii) : bool :=
  let n := N_of_ascii c in
  ((97 <=? n) && (n <=? 102)) || ((65 <=? n) && (n <=? 70)) || ((48 <=? n) && (n <=? 57)).

(** [/^0x[a-fA-F0-9]{40}$/.test(s)]: the check of [handleScan], and of the
    transaction-count endpoint. Without the [m] flag the anchors are the two
    ends of the string. *)
Definition address_format_test (s : string) : bool :=
  match s with
  | String "0" (String "x" rest) =>
      (String.length rest =? 40)%nat && forallb isHexDigit (list_ascii_of_string rest)
  | _ => false
  end.

Module ScanResult.
Record t : Type := mk {
  address : string;
  txCount : Z;
  auraType : string;
  auraName : string;
  tagline : string;
  image : option string;
  tier : Z
}.
End ScanResult.

Module ExistingNft.
Record t : Type := mk { tokenId : N; currentAura : string }.
End ExistingNft.

Record AppState : Type := mkAppState {
  wallet : option string;                    (* useAccount: address, if connected *)
  targetAddress : string;
  scanResult : option ScanResult.t;
  isLoading : bool;
  error : string;
  existingNft : option ExistingNft.t
}.

Definition isConnected (st : AppState) : bool :=
  match wallet st with Some _ => true | None => false end.

Definition initialState : AppState :=
  mkAppState None EmptyString None false EmptyString None.

(** [!s] for a string: the empty string is the falsy one. *)
Definition falsy (s : string) : bool :=
  match s with EmptyString => true | _ => false end.

(** [checkExistingNft]: returns [null] for every address. *)
Definition checkExistingNft (addr : string) : option ExistingNft.t := None.

(** [handleScan]. [fetchTxCount] is the answer of the network for an
    address; it catches its own failures and answers 0 then. The second
    component lists the addresses it was asked for. When [AURA_CONFIG] has no
    entry for the label, reading [auraInfo.name] throws and the [catch] block
    sets the error. *)
Definition handleScan (fetchTxCount : string → Z) (st : AppState)
    : AppState * list string :=
  if falsy (targetAddress st) then
    (mkAppState (wallet st) (targetAddress st) (scanResult st) (isLoading st)
       "Please enter a Base address" (existingNft st), [])
  else if negb (address_format_test (targetAddress st)) then
    (mkAppState (wallet st) (targetAddress st) (scanResult st) (isLoading st)
       "Invalid Ethereum address format" (existingNft st), [])
  else
    let txCount := fetchTxCount (targetAddress st) in
    match getAuraType txCount with
    | None =>
        (mkAppState (wallet st) (targetAddress st) None false
           "No transactions found for this address on Base Sepolia" None,
         [targetAddress st])
    | Some auraType =>
        match AURA_CONFIG auraType with
        | None =>
            (mkAppState (wallet st) (targetAddress st) None false
               "Failed to scan address. Please try again." None,
             [targetAddress st])
        | Some auraInfo =>
            let existing := checkExistingNft (targetAddress st) in
            (mkAppState (wallet st) (targetAddress st)
               (Some (ScanResult.mk (targetAddress st) txCount auraType
                        (AuraInfo.name auraInfo) (AuraInfo.tagline auraInfo)
                        (AURA_IMAGES auraType) (AuraInfo.tier auraInfo)))
               false EmptyString existing,
             [targetAddress st])
        end
    end.

(** [handleMint]: the arguments of the [mint] it submits, if it submits one. *)
Definition handleMint (st : AppState) : option (string * string) :=
  match scanResult st with
  | Some r => if isConnected st then Some (ScanResult.address r, ScanResult.auraType r) else None
  | None => None
  end.

(** [handleUpgrade]: the arguments of the [updateAura] it submits, if any. *)
Definition handleUpgrade (st : AppState) : option (N * string) :=
  match scanResult st, existingNft st with
  | Some r, Some nft =>
      if isConnected st then Some (ExistingNft.tokenId nft, ScanResult.auraType r) else None
  | _, _ => None
  end.

(** [AURA_CONFIG[key]?.tier]. *)
Definition tierOf (key : string) : option Z := AuraInfo.tier <$> AURA_CONFIG key.

(** [canUpgrade]; a comparison with [undefined] is false. *)
Definition canUpgrade (st : AppState) : bool :=
  match existingNft st, scanResult st with
  | Some nft, Some r =>
      match tierOf (ScanResult.auraType r), tierOf (ExistingNft.currentAura nft) with
      | Some new, Some current => (current <? new)%Z
      | _, _ => false
      end
  | _, _ => false
  end.

(** The effect that fills in the connected account when the input is empty. *)
Definition autofill (st : AppState) : AppState :=
  match wallet st with
  | Some a =>
      if negb (falsy a) && falsy (targetAddress st)
      then mkAppState (wallet st) a (scanResult st) (isLoading st) (error st) (existingNft st)
      else st
  | None => st
  end.

(** What happens to the component: the wallet connects or disconnects, the
    user edits the input, the user scans. *)
Inductive action : Type :=
| SetWallet (account : option string)
| SetTargetAddress (value : string)
| HandleScan (fetchTxCount : string → Z).

Definition act (a : action) (st : AppState) : AppState :=
  autofill
    match a with
    | SetWallet account =>
        mkAppState account (targetAddress st) (scanResult st) (isLoading st) (error st)
          (existingNft st)
    | SetTargetAddress value =>
        mkAppState (wallet st) value (scanResult st) (isLoading st) (error st)
          (existingNft st)
    | HandleScan fetchTxCount => (handleScan fetchTxCount st).1
    end.

Definition acts (l : list action) (st : AppState) : AppState :=
  fold_left (fun st a => act a st) l st.

(** ** The deployment script: [upsertEnvVar]

    A text is the list of the UTF-16 code units of a JavaScript string, and
    the file system maps a path to the text of the file, as [readFileSync]
    with the utf8 encoding returns it; a text written is stored as it is,
    which is what [writeFileSync] does with a text without lone surrogates
    ([isWellFormed] below). The function is
    modelled for keys of word characters (letters, digits and the underscore),
    so that the key stands for itself in the regular expression, and for
    lines without a dollar sign, so that the replacement text stands for
    itself in [replace]; this is how the script calls it. *)

(** The line terminators of the language: LF, CR, LS and PS. The dot of a
    regular expression does not match them, and with the [m] flag the anchors
    match next to them. *)
Definition isLineTerminator (c : N) : bool :=
  (c =? 10) || (c =? 13) || (c =? 8232) || (c =? 8233).

(** The text after [p], when the text begins with [p]. *)
Fixpoint strip_prefix (p text : list N) : option (list N) :=
  match p, text with
  | [], _ => Some text
  | a :: p', b :: text' => if a =? b then strip_prefix p' text' else None
  | _ :: _, [] => None
  end.

(** What is left after [.*$] has matched: the text from the end of the line. *)
Fixpoint after_line (text : list N) : list N :=
  match text with
  | [] => []
  | c :: text' => if isLineTerminator c then text else after_line text'
  end.

(** [text.replace(new RegExp("^" + pat + ".*$", "m"), line)], when the
    expression matches: the first line that begins with [pat] is replaced by
    [line]. [lineStart] says whether a line begins at the head of [text]. *)
Fixpoint replace_first (pat line : list N) (lineStart : bool) (text : list N)
    : option (list N) :=
  match (if lineStart then strip_prefix pat text else None) with
  | Some rest => Some (line ++ after_line rest)
  | None =>
      match text with
      | [] => None
      | c :: text' => cons c <$> replace_first pat line (isLineTerminator c) text'
      end
  end.

(** [envText.endsWith("\n")]. *)
Definition endsWithNewline (text : list N) : bool :=
  match last text with
  | Some c => c =? 10
  | None => false
  end.

Definition upsertEnvVar (envPath : string) (key value : list N)
    (fs : gmap string (list N)) : gmap string (list N) :=
  let envText := default [] (fs !! envPath) in
  let line := key ++ [61] ++ value in
  let envText :=
    match replace_first (key ++ [61]) line true envText with
    | Some replaced => replaced
    | None =>
        let separator :=
          if endsWithNewline envText || (length envText =? 0)%nat then [] else [10] in
        envText ++ separator ++ line ++ [10]
    end in
  <[envPath := envText]> fs.

(** The code units of a text of ASCII characters. *)
Definition units (s : string) : list N := N_of_ascii <$> list_ascii_of_string s.

(** The two writes of the script's [main], for the deployed address. *)
Definition write_contract_address (envPath : string) (contractAddress : list N)
    (fs : gmap string (list N)) : gmap string (list N) :=
  upsertEnvVar envPath (units "VITE_CONTRACT_ADDRESS") contractAddress
    (upsertEnvVar envPath (units "CONTRACT_ADDRESS") contractAddress fs).

(** * Vocabulary of the statements *)

(** ** Induction over calls and their nested callbacks *)

Definition callbacks_of (c : call) : list call :=
  match c with
  | Mint _ _ _ callbacks _ => callbacks
  | _ => []
  end.

Section CallInduction.
Variable P : call → Prop.
Hypothesis step : ∀ c, Forall P (callbacks_of c) → P c.

Fixpoint call_ind (c : call) : P c :=
  step c
    (match c return Forall P (callbacks_of c) with
     | Mint _ _ _ callbacks _ =>
         (fix all (l : list call) : Forall P l :=
            match l with
            | [] => @List.Forall_nil _ P
            | x :: l' => @List.Forall_cons _ P x l' (call_ind x) (all l')
            end) callbacks
     | _ => @List.Forall_nil _ P
     end).
End CallInduction.

(** ** The three phases of a mint *)

(** The state in which the sender's [onERC721Received] runs: the counter is
    advanced and the token is owned, nothing else is written yet. *)
Definition mint_mid (msg_sender : address) (s : State) : State :=
  set_owners <[_nextTokenId s := msg_sender]> (set_nextTokenId (_nextTokenId s + 1) s).

(** The four writes after [_safeMint] returns. *)
Definition mint_finish (targetAddress : address) (auraType : string) (tokenId : N)
    (s : State) : State :=
  set_tokenToTargetAddress <[tokenId := targetAddress]>
    (set_targetAddressMinted <[targetAddress := true]>
       (set_targetAddressToTokenId <[targetAddress := tokenId]>
          (set_tokenAuras <[tokenId := auraType]> s))).

(** ** Invariants of the storage *)

(** The tokens that have an owner are those below the counter. *)
Definition tokens_owned (s : State) : Prop :=
  ∀ t, ownerOf_raw s t ≠ 0 ↔ t < _nextTokenId s.

(** Every token below the counter, except those whose mint is still waiting
    for its sender's [onERC721Received] to return ([pending]), has its target
    address written, and that target is flagged as minted. *)
Definition targets_written (pending : N → Prop) (s : State) : Prop :=
  ∀ t, t < _nextTokenId s → ¬ pending t →
    ∃ X, _tokenToTargetAddress s !! t = Some X ∧ minted s X = true.

(** ** What a run of calls leaves alone *)

(** The label of the last [AuraUpdated] event for token [t] in a log. *)
Fixpoint last_update (t : N) (evs : list event) : option string :=
  match evs with
  | [] => None
  | e :: evs' =>
      match last_update t evs' with
      | Some L => Some L
      | None =>
          match e with
          | AuraUpdated t' _ L => if t' =? t then Some L else None
          | _ => None
          end
      end
  end.

(** [extends s ev s']: the counter only grows, the target of a token that
    existed in [s] and the token of a target minted in [s] are the same in
    [s'], and the label of a token of [s] is the one of the last update [ev]
    records for it, if any. *)
Definition extends (s : State) (ev : list event) (s' : State) : Prop :=
  _nextTokenId s ≤ _nextTokenId s' ∧
  (∀ t, t < _nextTokenId s →
     _tokenToTargetAddress s' !! t = _tokenToTargetAddress s !! t) ∧
  (∀ X, minted s X = true →
     minted s' X = true ∧
     _targetAddressToTokenId s' !! X = _targetAddressToTokenId s !! X) ∧
  (∀ t, t < _nextTokenId s →
     auraOf s' t = default (auraOf s t) (last_update t ev)).

(** ** Reading a hexadecimal rendering back *)

Definition hex_digit_value (c : ascii) : option N :=
  let n := N_of_ascii c in
  if (48 <=? n) && (n <=? 57) then Some (n - 48)
  else if (97 <=? n) && (n <=? 102) then Some (n - 87)
  else None.

Fixpoint hex_value_from (acc : N) (digits : string) : option N :=
  match digits with
  | EmptyString => Some acc
  | String c rest =>
      match hex_digit_value c with
      | Some d => hex_value_from (16 * acc + d) rest
      | None => None
      end
  end.

Definition hex_value (digits : string) : option N := hex_value_from 0 digits.

(** The digits the loop of [toHexString] writes, most significant first. *)
Fixpoint hex_digits (n : nat) (v : N) : string :=
  match n with
  | O => EmptyString
  | S n' => hex_digits n' (N.shiftr v 4) +:+ String (hex_digit (N.land v 15)) EmptyString
  end.

(** The text [tokenURI] puts in the Target Address attribute. *)
Definition addressHex (a : address) : string :=
  "0x" +:+ hex_digits 40 (uint160 a).

(** The document [tokenURI] returns, for a token whose fields are given. *)
Definition rendered (tokenId : N) (auraType : string) (imageUrl targetHex : string) : string :=
  encodePacked
    [ "data:application/json;base64,";
      Base64_encode
        (tokenJSON tokenId (_getAuraName auraType) (_getAuraDescription auraType)
           imageUrl (_getAuraTier auraType) targetHex) ].

(** The registry after [sender] has minted the first token, for [target] with
    label [auraType], on a contract deployed with image base [uri]. *)
Definition first_mint (deployer sender target : address) (auraType uri : string) : State :=
  (transact (Mint sender target auraType [] true) (constructor deployer uri)).1.1.

(** ** The two directions of the target/token mapping *)

(** The mappings target to token and token to target are inverse to each
    other on the minted tokens, and a target is flagged as minted exactly when
    it is the target of some token. *)
Definition registry_consistent (s : State) : Prop :=
  (∀ t, t < _nextTokenId s →
     hasMinted s (targetOf s t) = true ∧ tokenIdOf s (targetOf s t) = t) ∧
  (∀ X, hasMinted s X = true →
     tokenIdOf s X < _nextTokenId s ∧ targetOf s (tokenIdOf s X) = X).

(** A call whose sender does not call back into the registry. *)
Definition quiet (c : call) : Prop := callbacks_of c = [].

Inductive reachable_quiet : State → Prop :=
| reachable_quiet_constructor deployer uri :
    reachable_quiet (constructor deployer uri)
| reachable_quiet_call s c s' ev r :
    reachable_quiet s → quiet c → exec c s = Ok (s', ev, r) → reachable_quiet s'.

(** A contract at address 100 mints for target 7 and, when [_safeMint] calls
    its [onERC721Received], mints for target 7 again. *)
Definition reentrant_mint : call :=
  Mint 100 7 "fire" [Mint 100 7 "water" [] true] true.

Definition after_reentrant_mint : State :=
  (transact reentrant_mint (constructor 9 "https://x/")).1.1.

(** ** Further invariants of the storage *)

(** What every state keeps, also while mints are waiting for their senders'
    [onERC721Received] ([pending] holds of their token ids): a pending token
    is below the counter; a target flagged as minted has an entry in the
    target-to-token mapping; such an entry names a token below the counter
    that is not pending, whose target is that address, and the address is
    flagged; and every token below the counter that is not pending has a
    valid label. *)
Definition registry_wf (pending : N → Prop) (s : State) : Prop :=
  (∀ t, pending t → t < _nextTokenId s) ∧
  (∀ X, minted s X = true → is_Some (_targetAddressToTokenId s !! X)) ∧
  (∀ X t, _targetAddressToTokenId s !! X = Some t →
     t < _nextTokenId s ∧ ¬ pending t ∧
     _tokenToTargetAddress s !! t = Some X ∧ minted s X = true) ∧
  (∀ t, t < _nextTokenId s → ¬ pending t →
     ∃ L, _tokenAuras s !! t = Some L ∧ _isValidAura L = true).

(** The number of [AuraMinted] events for token [t] in a log. *)
Fixpoint count_minted (t : N) (evs : list event) : nat :=
  match evs with
  | [] => 0%nat
  | AuraMinted _ _ t' _ :: evs' =>
      if t' =? t then S (count_minted t evs') else count_minted t evs'
  | _ :: evs' => count_minted t evs'
  end.

(** [mints_fresh s ev s']: the counter has not gone down and the [AuraMinted]
    events of [ev] carry exactly the ids from the counter of [s] up to the
    counter of [s'], each of them once. *)
Definition mints_fresh (s : State) (ev : list event) (s' : State) : Prop :=
  _nextTokenId s ≤ _nextTokenId s' ∧
  ∀ t, count_minted t ev
       = if decide (_nextTokenId s ≤ t ∧ t < _nextTokenId s') then 1%nat else 0%nat.

(** The rank of the classifier's answer: the tier of the label, 0 for none. *)
Definition tierRank (label : option string) : Z :=
  default 0%Z (label ≫= tierOf).

(** What holds of the component after any actions: there is no existing NFT
    on record, and a scan result on display is for an address that passed the
    format check, with the label the classifier gives for its count. *)
Definition scan_consistent (st : AppState) : Prop :=
  existingNft st = None ∧
  ∀ r, scanResult st = Some r →
    address_format_test (ScanResult.address r) = true ∧
    getAuraType (ScanResult.txCount r) = Some (ScanResult.auraType r).

(** ** Reading an environment file *)

Definition isWordChar (c : N) : bool :=
  ((97 <=? c) && (c <=? 122)) || ((65 <=? c) && (c <=? 90)) ||
  ((48 <=? c) && (c <=? 57)) || (c =? 95).

(** A value that fits on a line and has no dollar sign. *)
Definition isPlainChar (c : N) : bool :=
  negb (isLineTerminator c) && negb (c =? 36).

(** The text up to the end of the line. *)
Fixpoint line_of (text : list N) : list N :=
  match text with
  | [] => []
  | c :: text' => if isLineTerminator c then [] else c :: line_of text'
  end.

(** The value of a key in a text: what follows [key=] on the first line that
    begins with it. *)
Fixpoint env_value_from (pat : list N) (lineStart : bool) (text : list N)
    : option (list N) :=
  match (if lineStart then strip_prefix pat text else None) with
  | Some rest => Some (line_of rest)
  | None =>
      match text with
      | [] => None
      | c :: text' => env_value_from pat (isLineTerminator c) text'
      end
  end.

Definition env_value (key text : list N) : option (list N) :=
  env_value_from (key ++ [61]) true text.

(** A text as its lines: the terminated lines, each with its terminator, and
    the last line, which has none. *)
Definition join (lines : list (list N * N)) (lastLine : list N) : list N :=
  flat_map (fun l => l.1 ++ [l.2]) lines ++ lastLine.

Definition noLT (l : list N) : Prop := Forall (fun c => isLineTerminator c = false) l.

Definition lines_wf (lines : list (list N * N)) : Prop :=
  Forall (fun l => noLT l.1 ∧ isLineTerminator l.2 = true) lines.

Fixpoint replace_lines (pat line : list N) (lines : list (list N * N))
    : option (list (list N * N)) :=
  match lines with
  | [] => None
  | l :: lines' =>
      match strip_prefix pat l.1 with
      | Some _ => Some ((line, l.2) :: lines')
      | None => cons l <$> replace_lines pat line lines'
      end
  end.

Fixpoint lookup_lines (pat : list N) (lines : list (list N * N)) : option (list N) :=
  match lines with
  | [] => None
  | l :: lines' =>
      match strip_prefix pat l.1 with
      | Some v => Some v
      | None => lookup_lines pat lines'
      end
  end.

(** The text [upsertEnvVar] writes to the file, from the text it read. *)
Definition upsertText (key value envText : list N) : list N :=
  match replace_first (key ++ [61]) (key ++ [61] ++ value) true envText with
  | Some replaced => replaced
  | None =>
      envText
      ++ (if endsWithNewline envText || (length envText =? 0)%nat then [] else [10])
      ++ (key ++ [61] ++ value) ++ [10]
  end.

(** ** The states a caller can observe

    Calls are not only made between transactions. While a mint is in
    progress, its sender's [onERC721Received] reads the contract and calls it
    in the state [mint_mid], and a mint made from there may be in progress in
    turn. A configuration is the state, the mints in progress (the innermost
    first) and the events logged so far. *)

Module Frame.
Record t : Type := mk { sender : address; token : N; target : address; aura : string }.
End Frame.

Module Config.
Record t : Type := mk { state : State; frames : list Frame.t; log : list event }.
End Config.

(** What can happen next: a call is made and succeeds ([step_call]); a
    [mint] passes its checks, takes its token id and calls the sender's
    [onERC721Received] ([step_enter]); the innermost [onERC721Received]
    returns and its mint does its four writes and logs AuraMinted
    ([step_return]). A call or mint that reverts leaves no trace: the
    configuration it started from stands. *)
Inductive step : Config.t → Config.t → Prop :=
| step_call s frames log c s' ev r :
    exec c s = Ok (s', ev, r) →
    step (Config.mk s frames log) (Config.mk s' frames (log ++ ev))
| step_enter s frames log sender T L :
    minted s T = false → _isValidAura L = true → _nextTokenId s ≠ uint256_max →
    sender ≠ 0 → ownerOf_raw s (_nextTokenId s) = 0 →
    step (Config.mk s frames log)
      (Config.mk (mint_mid sender s)
         (Frame.mk sender (_nextTokenId s) T L :: frames)
         (log ++ [Transfer 0 sender (_nextTokenId s)]))
| step_return s f frames log :
    step (Config.mk s (f :: frames) log)
      (Config.mk (mint_finish (Frame.target f) (Frame.aura f) (Frame.token f) s)
         frames
         (log ++ [AuraMinted (Frame.sender f) (Frame.target f) (Frame.token f)
                    (Frame.aura f)])).

Definition deployed (deployer : address) (uri : string) : Config.t :=
  Config.mk (constructor deployer uri) [] [].

(** The configurations of a deployed contract: what a caller finds, between
    transactions (no mint in progress) or from inside [onERC721Received]. *)
Definition observable (c : Config.t) : Prop :=
  ∃ deployer uri, rtc step (deployed deployer uri) c.

(** The tokens whose mint is in progress. *)
Definition in_progress (c : Config.t) : list N := Frame.token <$> Config.frames c.

(** Where a configuration comes from, in terms of [exec] alone: without a
    mint in progress the state is reachable by calls; with mints in progress
    the state is the one some calls of the innermost sender's
    [onERC721Received] have left, starting from [mint_mid] of a state that is
    explained in turn and in which the mint passes its checks. *)
Fixpoint explained (s : State) (frames : list Frame.t) : Prop :=
  match frames with
  | [] => reachable s
  | f :: frames' =>
      ∃ s0 callbacks,
        explained s0 frames' ∧
        minted s0 (Frame.target f) = false ∧ _isValidAura (Frame.aura f) = true ∧
        _nextTokenId s0 ≠ uint256_max ∧ Frame.sender f ≠ 0 ∧
        ownerOf_raw s0 (_nextTokenId s0) = 0 ∧
        Frame.token f = _nextTokenId s0 ∧
        s = (run callbacks (mint_mid (Frame.sender f) s0)).1
  end.

(** What the storage keeps in every configuration, for the tokens [pending]
    whose mint is in progress: the owned tokens are those below the counter;
    a pending token is below the counter; nothing is written yet for the
    tokens at or above the counter, and no target address for a pending
    token, whose label is unwritten or valid; a token below the counter that
    is not pending has a target address, which is flagged, and a valid label;
    a flagged address has a token that is below the counter, not pending, and
    has the address as its target. *)
Definition storage_inv (pending : list N) (s : State) : Prop :=
  tokens_owned s ∧
  (∀ t, t ∈ pending → t < _nextTokenId s) ∧
  (∀ t, (_nextTokenId s ≤ t ∨ t ∈ pending) → _tokenToTargetAddress s !! t = None) ∧
  (∀ t, _nextTokenId s ≤ t → _tokenAuras s !! t = None) ∧
  (∀ t, t ∈ pending →
     _tokenAuras s !! t = None ∨
     ∃ L, _tokenAuras s !! t = Some L ∧ _isValidAura L = true) ∧
  (∀ t, t < _nextTokenId s → t ∉ pending →
     ∃ X L, _tokenToTargetAddress s !! t = Some X ∧ minted s X = true ∧
            _tokenAuras s !! t = Some L ∧ _isValidAura L = true) ∧
  (∀ X, minted s X = true →
     ∃ t, _targetAddressToTokenId s !! X = Some t ∧ t < _nextTokenId s ∧
          (t ∉ pending) ∧ _tokenToTargetAddress s !! t = Some X).

(** The configuration in which the first mint, by a contract at address 100
    for target 7, has called its sender's [onERC721Received]. *)
Definition inside_first_mint : Config.t :=
  Config.mk (mint_mid 100 (constructor 9 "https://x/"))
    [Frame.mk 100 0 7 "fire"] [Transfer 0 100 0].

(** A contract at address 100 mints for target 7 and, when [_safeMint] calls
    its [onERC721Received], updates the label of the new token. *)
Definition mint_with_update : call :=
  Mint 100 7 "fire" [UpdateAura 100 0 "rock"] true.

Definition after_mint_with_update : State :=
  (transact mint_with_update (constructor 9 "https://x/")).1.1.

(** What every step keeps: the storage invariant, for the tokens in
    progress; these are distinct, and the labels of their mints are valid. *)
Definition config_inv (c : Config.t) : Prop :=
  storage_inv (in_progress c) (Config.state c) ∧
  NoDup (in_progress c) ∧
  Forall (fun f => _isValidAura (Frame.aura f) = true) (Config.frames c).

(** ** The fields of a token, read off the log

    The label an event gives token [t] ([AuraMinted] and [AuraUpdated] carry
    one), and the target address ([AuraMinted] carries it); the label and the
    target of a token according to a log are those of the last such event,
    the empty label and the zero address when there is none. *)
Definition label_step (t : N) (L : string) (e : event) : string :=
  match e with
  | AuraMinted _ _ t' L' => if t' =? t then L' else L
  | AuraUpdated t' _ L' => if t' =? t then L' else L
  | Transfer _ _ _ => L
  end.

Definition label_in_log (t : N) (log : list event) : string :=
  fold_left (label_step t) log EmptyString.

Definition target_step (t : N) (X : address) (e : event) : address :=
  match e with
  | AuraMinted _ T t' _ => if t' =? t then T else X
  | _ => X
  end.

Definition target_in_log (t : N) (log : list event) : address :=
  fold_left (target_step t) log 0.

(** [follows s ev s']: the labels and targets of [s'] are those of [s],
    updated by the events [ev] in order. *)
Definition follows (s : State) (ev : list event) (s' : State) : Prop :=
  ∀ t, auraOf s' t = fold_left (label_step t) ev (auraOf s t) ∧
       targetOf s' t = fold_left (target_step t) ev (targetOf s t).

(** ** Texts without lone surrogates

    [String.prototype.isWellFormed]: every high surrogate (D800 to DBFF) is
    followed by a low one (DC00 to DFFF) and every low one follows a high
    one. Such a text is stored by [writeFileSync] as it is and read back
    unchanged; in a text that is not well formed the UTF-8 encoding replaces
    each lone surrogate. *)
Definition isHighSurrogate (c : N) : bool := (55296 <=? c) && (c <=? 56319).
Definition isLowSurrogate (c : N) : bool := (56320 <=? c) && (c <=? 57343).

Fixpoint isWellFormed (text : list N) : bool :=
  match text with
  | [] => true
  | c :: text' =>
      if isHighSurrogate c then
        match text' with
        | d :: text'' => isLowSurrogate d && isWellFormed text''
        | [] => false
        end
      else negb (isLowSurrogate c) && isWellFormed text'
  end.

Definition noSurrogate (c : N) : Prop :=
  isHighSurrogate c = false ∧ isLowSurrogate c = false.

(** * Reasoning tools *)

(** ** Inversion of the result monad *)

Lemma bind_Ok {A B} (r : result A) (k : A → result B) b :
  r ≫= k = Ok b → ∃ a, r = Ok a ∧ k a = Ok b.
Proof. destruct r as [a|e]; simpl; [eauto | discriminate]. Qed.

Lemma bind_Ok_l {A B} (a : A) (k : A → result B) : Ok a ≫= k = k a.
Proof. reflexivity. Qed.

Lemma require_Ok cond reason u : require cond reason = Ok u → cond = true.
Proof. destruct cond; [reflexivity | discriminate]. Qed.

Lemma require_true reason : require true reason = Ok tt.
Proof. reflexivity. Qed.

Lemma require_false reason : require false reason = Revert (Error reason).
Proof. reflexivity. Qed.

Lemma mint_Ok hook sender T L s s' ev r :
  mint hook sender T L s = Ok (s', ev, r) →
  minted s T = false ∧ _isValidAura L = true ∧ _nextTokenId s ≠ uint256_max ∧
  sender ≠ 0 ∧ ownerOf_raw s (_nextTokenId s) = 0 ∧
  ∃ s2 ev2,
    hook (mint_mid sender s) = Ok (s2, ev2) ∧
    s' = mint_finish T L (_nextTokenId s) s2 ∧
    ev = Transfer 0 sender (_nextTokenId s) :: ev2 ++ [AuraMinted sender T (_nextTokenId s) L] ∧
    r = Void.
Proof.
  unfold mint. intros H.
  apply bind_Ok in H as ([] & Hm & H). apply require_Ok in Hm.
  apply bind_Ok in H as ([] & Hv & H). apply require_Ok in Hv.
  destruct (N.eqb_spec (_nextTokenId s) uint256_max) as [|Hmax]; [discriminate|].
  apply bind_Ok in H as ([s2 ev'] & Hs & H).
  unfold _safeMint in Hs. apply bind_Ok in Hs as ([s1 ev1] & Hmint & Hs).
  apply bind_Ok in Hs as ([s2' ev2] & Hhook & Hs).
  unfold _mint in Hmint.
  destruct (N.eqb_spec sender 0) as [|Hsender]; [discriminate|].
  change (ownerOf_raw (set_nextTokenId (_nextTokenId s + 1) s) (_nextTokenId s))
    with (ownerOf_raw s (_nextTokenId s)) in Hmint.
  destruct (N.eqb_spec (ownerOf_raw s (_nextTokenId s)) 0) as [Hfresh|]; [|discriminate].
  simpl in Hmint. injection Hmint as <- <-. injection Hs as <- <-. injection H as <- <- <-.
  repeat split; try done.
  - by apply negb_true_iff in Hm.
  - exists s2', ev2. repeat split; done.
Qed.

Lemma exec_Mint_Ok sender T L callbacks accepted s s' ev r :
  exec (Mint sender T L callbacks accepted) s = Ok (s', ev, r) →
  minted s T = false ∧ _isValidAura L = true ∧ _nextTokenId s ≠ uint256_max ∧
  sender ≠ 0 ∧ ownerOf_raw s (_nextTokenId s) = 0 ∧ accepted = true ∧
  s' = mint_finish T L (_nextTokenId s) (run callbacks (mint_mid sender s)).1 ∧
  ev = Transfer 0 sender (_nextTokenId s)
         :: (run callbacks (mint_mid sender s)).2 ++ [AuraMinted sender T (_nextTokenId s) L] ∧
  r = Void.
Proof.
  simpl. intros H. apply mint_Ok in H as (? & ? & ? & ? & ? & s2 & ev2 & Hh & -> & -> & ->).
  destruct accepted; [|discriminate]. injection Hh as Hh. fold run in Hh.
  rewrite Hh. done.
Qed.

Lemma view_Ok {A} (wrap : A → returndata) (x : result A) s s' ev r :
  view wrap x s = Ok (s', ev, r) → s' = s ∧ ev = [] ∧ ∃ a, x = Ok a ∧ r = wrap a.
Proof.
  unfold view. intros H. apply bind_Ok in H as (a & -> & H).
  injection H as <- <- <-. eauto.
Qed.

(** Closes a goal about a successful view call. *)
Ltac by_view H := apply view_Ok in H as (-> & -> & _); done.

Lemma updateAura_Ok sender t L s s' ev r :
  updateAura sender t L s = Ok (s', ev, r) →
  ownerOf_raw s t = sender ∧ sender ≠ 0 ∧ _isValidAura L = true ∧
  s' = set_tokenAuras <[t := L]> s ∧ ev = [AuraUpdated t (auraOf s t) L] ∧ r = Void.
Proof.
  unfold updateAura, ownerOf. intros H.
  apply bind_Ok in H as (o & Ho & H).
  destruct (N.eqb_spec (ownerOf_raw s t) 0) as [|Hex]; [discriminate|].
  injection Ho as <-.
  apply bind_Ok in H as ([] & Hown & H). apply require_Ok, N.eqb_eq in Hown.
  apply bind_Ok in H as ([] & Hval & H). apply require_Ok in Hval.
  injection H as <- <- <-. repeat split; try done. by rewrite <- Hown.
Qed.

Lemma transferFrom_Ok to t s s' ev r :
  transferFrom to t s = Ok (s', ev, r) →
  ownerOf_raw s t ≠ 0 ∧ to ≠ 0 ∧
  s' = set_owners <[t := to]> s ∧ ev = [Transfer (ownerOf_raw s t) to t] ∧ r = Void.
Proof.
  unfold transferFrom, ownerOf. intros H.
  apply bind_Ok in H as (o & Ho & H).
  destruct (N.eqb_spec (ownerOf_raw s t) 0) as [|Hex]; [discriminate|].
  injection Ho as <-.
  destruct (N.eqb_spec to 0) as [|Hto]; [discriminate|].
  injection H as <- <- <-. done.
Qed.

Lemma setBaseImageURI_Ok sender uri s s' ev r :
  setBaseImageURI sender uri s = Ok (s', ev, r) →
  _owner s = sender ∧ s' = set_baseImageURI uri s ∧ ev = [] ∧ r = Void.
Proof.
  unfold setBaseImageURI, onlyOwner. intros H.
  apply bind_Ok in H as ([] & Ho & H).
  destruct (N.eqb_spec (_owner s) sender) as [Heq|]; [|discriminate].
  injection H as <- <- <-. done.
Qed.

(** ** A relation kept by every execution

    To show that a relation [R s ev s'] between the state before a call, the
    events logged and the state after holds for every successful call,
    whatever its callbacks do, it is enough to show it for the effect of each
    function, where for [mint] the callbacks' run is already related. *)
Section ExecInduction.
Variable R : State → list event → State → Prop.

Hypothesis R_refl : ∀ s, R s [] s.
Hypothesis R_trans : ∀ s e1 s1 e2 s2, R s e1 s1 → R s1 e2 s2 → R s (e1 ++ e2) s2.
Hypothesis R_mint : ∀ sender T L s s2 ev2,
  minted s T = false → _isValidAura L = true → sender ≠ 0 →
  ownerOf_raw s (_nextTokenId s) = 0 → _nextTokenId s ≠ uint256_max →
  R (mint_mid sender s) ev2 s2 →
  R s (Transfer 0 sender (_nextTokenId s)
         :: ev2 ++ [AuraMinted sender T (_nextTokenId s) L])
    (mint_finish T L (_nextTokenId s) s2).
Hypothesis R_updateAura : ∀ t L s,
  ownerOf_raw s t ≠ 0 → _isValidAura L = true →
  R s [AuraUpdated t (auraOf s t) L] (set_tokenAuras <[t := L]> s).
Hypothesis R_transferFrom : ∀ to t s,
  ownerOf_raw s t ≠ 0 → to ≠ 0 →
  R s [Transfer (ownerOf_raw s t) to t] (set_owners <[t := to]> s).
Hypothesis R_setBaseImageURI : ∀ uri s, R s [] (set_baseImageURI uri s).

Let P (c : call) : Prop := ∀ s s' ev r, exec c s = Ok (s', ev, r) → R s ev s'.

Lemma run_with_rel calls :
  Forall P calls → ∀ s, R s (run calls s).2 (run calls s).1.
Proof.
  induction 1 as [|c calls Hc _ IH]; intros s; [apply R_refl|].
  unfold run in *. simpl.
  destruct (exec c s) as [[[s1 ev1] r1]|e] eqn:Hexec; [|apply IH].
  specialize (IH s1). destruct (run_with exec calls s1) as [s2 ev2].
  simpl in *. eapply R_trans; [eapply Hc, Hexec | exact IH].
Qed.

Theorem exec_rel c : ∀ s s' ev r, exec c s = Ok (s', ev, r) → R s ev s'.
Proof.
  induction c as [c IH] using call_ind. fold (P c).
  destruct c; intros s s' ev r Hexec; try (cbn [exec] in Hexec).
  - apply exec_Mint_Ok in Hexec as (? & ? & ? & ? & ? & _ & -> & -> & _).
    apply R_mint; try done. by apply run_with_rel.
  - apply updateAura_Ok in Hexec as (<- & ? & ? & -> & -> & _). by apply R_updateAura.
  - apply setBaseImageURI_Ok in Hexec as (_ & -> & -> & _). apply R_setBaseImageURI.
  - apply transferFrom_Ok in Hexec as (? & ? & -> & -> & _). by apply R_transferFrom.
  - apply view_Ok in Hexec as (-> & -> & _). apply R_refl.
  - apply view_Ok in Hexec as (-> & -> & _). apply R_refl.
  - apply view_Ok in Hexec as (-> & -> & _). apply R_refl.
  - apply view_Ok in Hexec as (-> & -> & _). apply R_refl.
  - apply view_Ok in Hexec as (-> & -> & _). apply R_refl.
Qed.

Theorem run_rel calls s : R s (run calls s).2 (run calls s).1.
Proof.
  apply run_with_rel, Forall_forall. intros c _. exact (exec_rel c).
Qed.
End ExecInduction.

(** The same for a run of calls, from the relation on single calls. *)
Lemma run_from_exec (R : State → list event → State → Prop) :
  (∀ s, R s [] s) →
  (∀ s e1 s1 e2 s2, R s e1 s1 → R s1 e2 s2 → R s (e1 ++ e2) s2) →
  (∀ c s s' ev r, exec c s = Ok (s', ev, r) → R s ev s') →
  ∀ calls s, R s (run calls s).2 (run calls s).1.
Proof.
  intros Hrefl Htrans Hexec calls s.
  apply run_with_rel; [done..|]. apply Forall_forall. intros c _. apply Hexec.
Qed.

(** ** The invariants hold in every reachable state *)

Lemma ownerOf_raw_insert s t a t' :
  ownerOf_raw (set_owners <[t := a]> s) t' = if decide (t = t') then a else ownerOf_raw s t'.
Proof.
  unfold ownerOf_raw. simpl. rewrite lookup_insert. by case_decide.
Qed.

Lemma tokens_owned_exec c s s' ev r :
  exec c s = Ok (s', ev, r) → tokens_owned s → tokens_owned s'.
Proof.
  revert c s s' ev r.
  apply (exec_rel (fun s _ s' => tokens_owned s → tokens_owned s')); try done.
  - intros s e1 s1 e2 s2 H1 H2 H. auto.
  - intros sender T L s s2 ev2 _ _ Hsender Hfresh _ IH Hs.
    assert (Hmid : tokens_owned (mint_mid sender s)).
    { intros t. unfold mint_mid. rewrite ownerOf_raw_insert. simpl.
      change (ownerOf_raw (set_nextTokenId _ s) t) with (ownerOf_raw s t).
      specialize (Hs t). case_decide; [subst; split; [lia|done] | lia]. }
    exact (IH Hmid).
  - intros to t s Hex Hto Hs t'. rewrite ownerOf_raw_insert. simpl.
    pose proof (Hs t) as Hst. specialize (Hs t').
    case_decide; [subst; tauto | done].
Qed.

Lemma tokens_owned_reachable s : reachable s → tokens_owned s.
Proof.
  induction 1 as [d uri | s c s' ev r _ IH Hexec].
  - intros t. unfold ownerOf_raw. simpl. rewrite lookup_empty. simpl. lia.
  - by eapply tokens_owned_exec.
Qed.

Lemma targets_written_exec c s s' ev r :
  exec c s = Ok (s', ev, r) →
  ∀ pending, targets_written pending s → targets_written pending s'.
Proof.
  revert c s s' ev r.
  apply (exec_rel (fun s _ s' =>
           ∀ pending, targets_written pending s → targets_written pending s'));
    try done.
  - intros s e1 s1 e2 s2 H1 H2 pending H. auto.
  - intros sender T L s s2 ev2 _ _ _ _ _ IH pending Hs.
    specialize (IH (fun t => pending t ∨ t = _nextTokenId s)).
    assert (Hmid : targets_written (fun t => pending t ∨ t = _nextTokenId s)
                     (mint_mid sender s)).
    { intros t Ht Hp. simpl in Ht. apply Hs; [lia | tauto]. }
    specialize (IH Hmid). intros t Ht Hp. simpl in Ht.
    unfold mint_finish. simpl.
    destruct (decide (t = _nextTokenId s)) as [->|Hne].
    + exists T. rewrite lookup_insert_eq. split; [done|].
      unfold minted. simpl. by rewrite lookup_insert_eq.
    + destruct (IH t Ht) as (X & HX & Hm); [tauto|].
      exists X. rewrite lookup_insert_ne by done. split; [done|].
      unfold minted in *. simpl. rewrite lookup_insert. case_decide; done.
Qed.

Lemma targets_written_reachable s :
  reachable s → targets_written (fun _ => False) s.
Proof.
  induction 1 as [d uri | s c s' ev r _ IH Hexec].
  - intros t Ht. simpl in Ht. lia.
  - by eapply targets_written_exec.
Qed.

(** ** Every execution extends the state *)

Lemma last_update_app t e1 e2 :
  last_update t (e1 ++ e2)
  = match last_update t e2 with Some L => Some L | None => last_update t e1 end.
Proof.
  induction e1 as [|e e1 IH]; simpl.
  - by destruct (last_update t e2).
  - rewrite IH. by destruct (last_update t e2).
Qed.

Lemma auraOf_insert s t L t' :
  auraOf (set_tokenAuras <[t := L]> s) t' = if decide (t = t') then L else auraOf s t'.
Proof.
  unfold auraOf. simpl. rewrite lookup_insert. by case_decide.
Qed.

Lemma extends_refl s : extends s [] s.
Proof. unfold extends. simpl. repeat split; done. Qed.

Lemma extends_trans s e1 s1 e2 s2 :
  extends s e1 s1 → extends s1 e2 s2 → extends s (e1 ++ e2) s2.
Proof.
  intros (Hn1 & Ht1 & Hm1 & Ha1) (Hn2 & Ht2 & Hm2 & Ha2).
  split; [lia|]. split; [|split].
  - intros t Ht. rewrite Ht2 by lia. by apply Ht1.
  - intros X HX. destruct (Hm1 X HX) as [HX1 Heq1].
    destruct (Hm2 X HX1) as [HX2 Heq2]. split; [done | congruence].
  - intros t Ht. rewrite Ha2 by lia. rewrite Ha1 by done.
    rewrite last_update_app. by destruct (last_update t e2).
Qed.

Lemma extends_exec c s s' ev r : exec c s = Ok (s', ev, r) → extends s ev s'.
Proof.
  revert c s s' ev r. apply (exec_rel extends).
  - apply extends_refl.
  - apply extends_trans.
  - intros sender T L s s2 ev2 HT _ _ _ _ (Hn & Ht & Hm & Ha).
    simpl in Hn, Ht, Hm, Ha. unfold extends, mint_finish. simpl.
    split; [lia|]. split; [|split].
    + intros t Hlt. rewrite lookup_insert_ne by lia. apply Ht. lia.
    + intros X HX. assert (T ≠ X) by congruence.
      destruct (Hm X HX) as [HX2 Heq]. unfold minted in *. simpl.
      rewrite !lookup_insert_ne by done. done.
    + intros t Hlt. unfold auraOf at 1. simpl. rewrite lookup_insert_ne by lia.
      fold (auraOf s2 t). rewrite Ha by lia.
      change (auraOf (mint_mid sender s) t) with (auraOf s t).
      cbn [last_update]. rewrite last_update_app. cbn [last_update].
      by destruct (last_update t ev2).
  - intros t L s _ _. unfold extends. simpl. repeat split; try done.
    intros t' Ht'. rewrite auraOf_insert.
    case_decide as Heq.
    + subst. by rewrite N.eqb_refl.
    + apply N.eqb_neq in Heq. by rewrite Heq.
  - intros to t s _ _. unfold extends. simpl. repeat split; done.
  - intros uri s. unfold extends. simpl. repeat split; done.
Qed.

Lemma extends_run calls s : extends s (run calls s).2 (run calls s).1.
Proof.
  apply run_from_exec.
  - apply extends_refl.
  - apply extends_trans.
  - apply extends_exec.
Qed.

(** ** Strings and hexadecimal digits *)

Lemma append_cons x (a b : string) : String x a +:+ b = String x (a +:+ b).
Proof. reflexivity. Qed.

Lemma append_nil (b : string) : EmptyString +:+ b = b.
Proof. reflexivity. Qed.

Lemma append_empty_r (a : string) : a +:+ EmptyString = a.
Proof.
  induction a as [|x a IH]; [done|]. rewrite append_cons. by f_equal.
Qed.

Lemma append_assoc (a b c : string) : (a +:+ b) +:+ c = a +:+ (b +:+ c).
Proof.
  induction a as [|x a IH]; [done|]. rewrite !append_cons. by f_equal.
Qed.

Lemma length_append (a b : string) :
  String.length (a +:+ b) = (String.length a + String.length b)%nat.
Proof.
  induction a as [|x a IH]; [done|]. rewrite append_cons. simpl. by f_equal.
Qed.

Lemma hex_value_from_append acc a b :
  hex_value_from acc (a +:+ b)
  = match hex_value_from acc a with Some v => hex_value_from v b | None => None end.
Proof.
  revert acc. induction a as [|x a IH]; intros acc.
  - rewrite append_nil. done.
  - rewrite append_cons. simpl. destruct (hex_digit_value x); [apply IH | done].
Qed.

Lemma hex_digit_value_digit d : d < 16 → hex_digit_value (hex_digit d) = Some d.
Proof.
  intros Hd. destruct d as [|p]; [reflexivity|].
  do 4 (destruct p as [p|p|]; try reflexivity); lia.
Qed.

Lemma toHexString_loop_digits n v buffer :
  toHexString_loop n v buffer
  = (N.shiftr v (4 * N.of_nat n), hex_digits n v +:+ buffer).
Proof.
  revert v buffer. induction n as [|n IH]; intros v buffer.
  - simpl. by rewrite N.shiftr_0_r.
  - cbn [toHexString_loop hex_digits]. rewrite IH, append_assoc. simpl.
    rewrite N.shiftr_shiftr. do 2 f_equal. lia.
Qed.

Lemma length_hex_digits n v : String.length (hex_digits n v) = n.
Proof.
  revert v. induction n as [|n IH]; intros v; simpl; [done|].
  rewrite length_append, IH. simpl. lia.
Qed.

Lemma hex_value_from_digits n v acc :
  hex_value_from acc (hex_digits n v) = Some (acc * 16 ^ N.of_nat n + v mod 16 ^ N.of_nat n).
Proof.
  revert v acc. induction n as [|n IH]; intros v acc.
  - simpl. rewrite N.mod_1_r. f_equal. lia.
  - cbn [hex_digits]. rewrite hex_value_from_append, IH. cbn [hex_value_from].
    change 15 with (N.ones 4). rewrite N.land_ones, N.shiftr_div_pow2.
    change (2 ^ 4) with 16.
    rewrite hex_digit_value_digit by (apply N.mod_lt; lia).
    f_equal. rewrite Nat2N.inj_succ, N.pow_succ_r'.
    rewrite (N.Div0.mod_mul_r v 16). lia.
Qed.

Lemma toHexString_fits v len :
  v < 2 ^ (8 * len) →
  toHexString v len = Ok ("0x" +:+ hex_digits (N.to_nat (2 * len)) v).
Proof.
  intros Hv. unfold toHexString. rewrite toHexString_loop_digits, append_empty_r.
  rewrite N2Nat.id. replace (4 * (2 * len)) with (8 * len) by lia.
  rewrite N.shiftr_div_pow2, N.div_small by done. done.
Qed.

Lemma uint160_lt a : uint160 a < 2 ^ 160.
Proof. apply N.mod_lt. by apply N.pow_nonzero. Qed.

(** ** The rendering functions on known values *)

Example toString_values :
  toString 0 = "0" ∧ toString 7 = "7" ∧ toString 10 = "10" ∧
  toString 255 = "255" ∧ toString 1234567890 = "1234567890".
Proof. repeat split; reflexivity. Qed.

Example toHexString_values :
  toHexString 1 20 = Ok "0x0000000000000000000000000000000000000001" ∧
  toHexString 3735928559 4 = Ok "0xdeadbeef" ∧
  toHexString 256 1 = Revert (StringsInsufficientHexLength 256 1).
Proof. repeat split; reflexivity. Qed.

Example Base64_encode_values :
  Base64_encode "Man" = "TWFu" ∧ Base64_encode "Ma" = "TWE=" ∧
  Base64_encode "M" = "TQ==" ∧ Base64_encode "light work." = "bGlnaHQgd29yay4=" ∧
  Base64_encode EmptyString = EmptyString.
Proof. repeat split; reflexivity. Qed.

(** ** The renderer on an existing token *)

Lemma encodePacked_3 (a b c : string) : encodePacked [a; b; c] = a +:+ b +:+ c.
Proof. reflexivity. Qed.

Lemma tokenURI_render s t :
  t < _nextTokenId s →
  tokenURI s t
  = Ok (rendered t (auraOf s t) (baseImageURI s +:+ auraOf s t +:+ ".png")
          (addressHex (targetOf s t))).
Proof.
  intros Ht. unfold tokenURI.
  apply N.ltb_lt in Ht. rewrite Ht, require_true, bind_Ok_l.
  cbv zeta. rewrite toHexString_fits by apply uint160_lt.
  rewrite bind_Ok_l, encodePacked_3. reflexivity.
Qed.

Lemma tokenURI_existing s t :
  t < _nextTokenId s →
  ∃ digits,
    tokenURI s t
    = Ok (rendered t (auraOf s t) (baseImageURI s +:+ auraOf s t +:+ ".png")
            ("0x" +:+ digits)) ∧
    String.length digits = 40%nat ∧
    hex_value digits = Some (uint160 (targetOf s t)).
Proof.
  intros Ht. exists (hex_digits 40 (uint160 (targetOf s t))).
  split; [by apply tokenURI_render|]. split; [apply length_hex_digits|].
  unfold hex_value. rewrite hex_value_from_digits.
  change (16 ^ N.of_nat 40) with (2 ^ 160).
  rewrite N.mod_small by apply uint160_lt. f_equal.
Qed.

Lemma tokenURI_missing s t :
  _nextTokenId s ≤ t → tokenURI s t = Revert NoSuchToken.
Proof.
  intros Ht. unfold tokenURI. apply N.ltb_ge in Ht. by rewrite Ht.
Qed.

(** * The claims *)

(** ** The tier classifier *)

(** C7: for every non-negative transaction count the classifier tests the
    thresholds 500, 100, 10 and 1 from the highest down and the first one
    reached decides: fire from 500, water on 100..499, tide on 10..99, rock
    on 1..9 and no tier at 0; the boundary counts 0, 1, 9, 10, 99, 100, 499
    and 500 give none, rock, rock, tide, tide, water, water and fire. *)
Theorem getAuraType_tiers (txCount : Z) :
  (0 ≤ txCount)%Z →
  getAuraType txCount
  = (if decide (500 ≤ txCount)%Z then Some FIRE_WHALE
     else if decide (100 ≤ txCount)%Z then Some WAVE_RIDER
     else if decide (10 ≤ txCount)%Z then Some TIDE_WATCHER
     else if decide (1 ≤ txCount)%Z then Some ROCK_HOLDER
     else None) ∧
  (getAuraType txCount = Some FIRE_WHALE ↔ (500 ≤ txCount)%Z) ∧
  (getAuraType txCount = Some WAVE_RIDER ↔ (100 ≤ txCount ≤ 499)%Z) ∧
  (getAuraType txCount = Some TIDE_WATCHER ↔ (10 ≤ txCount ≤ 99)%Z) ∧
  (getAuraType txCount = Some ROCK_HOLDER ↔ (1 ≤ txCount ≤ 9)%Z) ∧
  (getAuraType txCount = None ↔ txCount = 0%Z) ∧
  getAuraType 0 = None ∧
  getAuraType 1 = Some ROCK_HOLDER ∧ getAuraType 9 = Some ROCK_HOLDER ∧
  getAuraType 10 = Some TIDE_WATCHER ∧ getAuraType 99 = Some TIDE_WATCHER ∧
  getAuraType 100 = Some WAVE_RIDER ∧ getAuraType 499 = Some WAVE_RIDER ∧
  getAuraType 500 = Some FIRE_WHALE.
Proof.
  intros Hpos. unfold getAuraType.
  destruct (Z.leb_spec 500 txCount), (Z.leb_spec 100 txCount),
    (Z.leb_spec 10 txCount), (Z.leb_spec 1 txCount);
    repeat case_decide; try lia;
    repeat split; try done; try lia; try discriminate.
Qed.

Lemma getAuraType_tiers_witness :
  (0 ≤ 250)%Z ∧ getAuraType 250 = Some WAVE_RIDER.
Proof.
  split; [lia|].
  destruct (getAuraType_tiers 250) as (_ & _ & Hwater & _); [lia|].
  apply Hwater. lia.
Defined.

(** Every label the classifier returns is accepted by the contract. *)
Lemma getAuraType_valid txCount L :
  getAuraType txCount = Some L → _isValidAura L = true.
Proof.
  unfold getAuraType. repeat case_match; intros [= <-]; reflexivity.
Qed.

(** ** The metadata renderer *)



(** C9 as stated does not hold: the description of a label outside the valid
    set is the text Base Aura NFT, not Unknown. *)
Lemma unknown_aura_description_is_not_Unknown :
  _isValidAura "gold" = false ∧
  _getAuraDescription "gold" = "Base Aura NFT" ∧
  _getAuraDescription "gold" ≠ "Unknown".
Proof. repeat split; done. Qed.

(** C9, amended: for every label outside the valid set the renderer does not
    fail; the name and the rarity tier are Unknown and the description is the
    generic text Base Aura NFT. Rendering an existing token succeeds whatever
    label is stored for it. *)
Theorem unknown_aura_degrades (aura : string) :
  _isValidAura aura = false →
  _getAuraName aura = "Unknown" ∧
  _getAuraTier aura = "Unknown" ∧
  _getAuraDescription aura = "Base Aura NFT" ∧
  ∀ s t, t < _nextTokenId s → auraOf s t = aura →
    ∃ digits,
      tokenURI s t
      = Ok (encodePacked
              [ "data:application/json;base64,";
                Base64_encode
                  (tokenJSON t "Unknown" "Base Aura NFT"
                     (baseImageURI s +:+ aura +:+ ".png") "Unknown" ("0x" +:+ digits)) ]) ∧
      String.length digits = 40%nat.
Proof.
  intros Hinvalid. unfold _isValidAura in Hinvalid.
  apply orb_false_iff in Hinvalid as [Hinvalid Hrock].
  apply orb_false_iff in Hinvalid as [Hinvalid Htide].
  apply orb_false_iff in Hinvalid as [Hfire Hwater].
  assert (Hname : _getAuraName aura = "Unknown")
    by (unfold _getAuraName; by rewrite Hfire, Hwater, Htide, Hrock).
  assert (Htier : _getAuraTier aura = "Unknown")
    by (unfold _getAuraTier; by rewrite Hfire, Hwater, Htide, Hrock).
  assert (Hdesc : _getAuraDescription aura = "Base Aura NFT")
    by (unfold _getAuraDescription; by rewrite Hfire, Hwater, Htide, Hrock).
  repeat split; try done.
  intros s t Ht <-. destruct (tokenURI_existing s t Ht) as (digits & Huri & Hlen & _).
  exists digits. split; [|done]. unfold rendered in Huri.
  by rewrite Huri, Hname, Htier, Hdesc.
Qed.

Lemma unknown_aura_degrades_witness :
  _isValidAura "gold" = false ∧
  _getAuraName "gold" = "Unknown" ∧
  _getAuraTier "gold" = "Unknown" ∧
  _getAuraDescription "gold" = "Base Aura NFT".
Proof.
  split; [reflexivity|].
  destruct (unknown_aura_degrades "gold" eq_refl) as (Hn & Ht & Hd & _).
  repeat split; assumption.
Defined.

(** The document of [tokenURI], written out piece by piece. *)
Lemma tokenJSON_written_out tokenId auraName auraDescription imageUrl auraTier targetHex :
  tokenJSON tokenId auraName auraDescription imageUrl auraTier targetHex
  = lit [ "{"; "name"; ": "; "Base Aura #" +:+ toString tokenId +:+ " - " +:+ auraName; ", ";
          "description"; ": "; auraDescription; ", ";
          "image"; ": "; imageUrl; ", ";
          "attributes"; ": [{";
          "trait_type"; ": "; "Aura Type"; ", "; "value"; ": "; auraName; "}, {";
          "trait_type"; ": "; "Tier"; ", "; "value"; ": "; auraTier; "}, {";
          "trait_type"; ": "; "Target Address"; ", "; "value"; ": "; targetHex; "}]}" ].
Proof.
  unfold tokenJSON, encodePacked, lit, dq.
  cbn [String.concat String.append]. rewrite !append_assoc.
  cbn [String.append]. reflexivity.
Qed.

(** C10: replacing the image base acts on every token already minted. When
    the administrator (and nobody else) calls [setBaseImageURI], the base is
    overwritten and nothing else; from then on [tokenURI] of every existing
    token builds its image reference from the new base, while the name, the
    description, the tier attributes and the target address of the document,
    and the answers of [getAura] and [getTargetAddress], are the ones from
    before the call. The document is written out: before and after the call
    it is the same text, except that the image is the old base, respectively
    the new one, followed by the label and .png. For token 0 of the example,
    with label fire and target address 1, the image reads ipfs://y/fire.png
    once the base is ipfs://y/. *)
Theorem setBaseImageURI_retroactive (s : State) (uri : string) :
  let s' := set_baseImageURI uri s in
  transact (SetBaseImageURI (_owner s) uri) s = (s', [], Success Void) ∧
  (∀ sender, sender ≠ _owner s →
     transact (SetBaseImageURI sender uri) s
     = (s, [], Failed (OwnableUnauthorizedAccount sender))) ∧
  baseImageURI s' = uri ∧
  _nextTokenId s' = _nextTokenId s ∧
  (∀ t, t < _nextTokenId s →
     let document := fun imageBase : string =>
       "data:application/json;base64," +:+
       Base64_encode
         (lit [ "{"; "name"; ": ";
                "Base Aura #" +:+ toString t +:+ " - " +:+ _getAuraName (auraOf s t); ", ";
                "description"; ": "; _getAuraDescription (auraOf s t); ", ";
                "image"; ": "; imageBase +:+ auraOf s t +:+ ".png"; ", ";
                "attributes"; ": [{";
                "trait_type"; ": "; "Aura Type"; ", ";
                "value"; ": "; _getAuraName (auraOf s t); "}, {";
                "trait_type"; ": "; "Tier"; ", ";
                "value"; ": "; _getAuraTier (auraOf s t); "}, {";
                "trait_type"; ": "; "Target Address"; ", ";
                "value"; ": "; addressHex (targetOf s t); "}]}" ]) in
     getAura s' t = getAura s t ∧
     getTargetAddress s' t = getTargetAddress s t ∧
     ownerOf s' t = ownerOf s t ∧
     tokenURI s t = Ok (document (baseImageURI s)) ∧
     tokenURI s' t = Ok (document uri) ∧
     ∃ targetHex,
       tokenURI s t
       = Ok (rendered t (auraOf s t) (baseImageURI s +:+ auraOf s t +:+ ".png") targetHex) ∧
       tokenURI s' t
       = Ok (rendered t (auraOf s t) (uri +:+ auraOf s t +:+ ".png") targetHex)) ∧
  tokenURI (set_baseImageURI "ipfs://y/" (first_mint 9 5 1 "fire" "https://x/")) 0
  = Ok ("data:application/json;base64," +:+
        Base64_encode
          (lit [ "{"; "name"; ": "; "Base Aura #0 - Fire Whale"; ", ";
                 "description"; ": "; "DeFi Power User - 500+ transactions on Base"; ", ";
                 "image"; ": "; "ipfs://y/fire.png"; ", ";
                 "attributes"; ": [{";
                 "trait_type"; ": "; "Aura Type"; ", "; "value"; ": "; "Fire Whale"; "}, {";
                 "trait_type"; ": "; "Tier"; ", "; "value"; ": "; "Legendary"; "}, {";
                 "trait_type"; ": "; "Target Address"; ", "; "value"; ": ";
                 "0x0000000000000000000000000000000000000001"; "}]}" ])).
Proof.
  intros s'. split_and!; try done.
  - unfold transact. cbn [exec]. unfold setBaseImageURI, onlyOwner.
    by rewrite N.eqb_refl.
  - intros sender Hsender. unfold transact. cbn [exec].
    unfold setBaseImageURI, onlyOwner.
    destruct (N.eqb_spec (_owner s) sender); [congruence | done].
  - intros t Ht document.
    assert (Hdoc : ∀ s0, t < _nextTokenId s0 → auraOf s0 t = auraOf s t →
              targetOf s0 t = targetOf s t →
              tokenURI s0 t = Ok (document (baseImageURI s0))).
    { intros s0 Ht0 Ha Hx. rewrite tokenURI_render by done. unfold rendered, document.
      rewrite tokenJSON_written_out, Ha, Hx. reflexivity. }
    split_and!; try done.
    + by apply Hdoc.
    + by apply (Hdoc s').
    + exists (addressHex (targetOf s t)).
      split; [by apply tokenURI_render|]. by rewrite tokenURI_render.
Qed.

Lemma setBaseImageURI_retroactive_witness :
  0 < _nextTokenId (first_mint 9 5 1 "fire" "https://x/") ∧
  getAura (set_baseImageURI "ipfs://y/" (first_mint 9 5 1 "fire" "https://x/")) 0
  = getAura (first_mint 9 5 1 "fire" "https://x/") 0 ∧
  getTargetAddress (set_baseImageURI "ipfs://y/" (first_mint 9 5 1 "fire" "https://x/")) 0
  = getTargetAddress (first_mint 9 5 1 "fire" "https://x/") 0 ∧
  ownerOf (set_baseImageURI "ipfs://y/" (first_mint 9 5 1 "fire" "https://x/")) 0
  = ownerOf (first_mint 9 5 1 "fire" "https://x/") 0 ∧
  tokenURI (first_mint 9 5 1 "fire" "https://x/") 0
  = Ok ("data:application/json;base64," +:+
        Base64_encode
          (lit [ "{"; "name"; ": "; "Base Aura #0 - Fire Whale"; ", ";
                 "description"; ": "; "DeFi Power User - 500+ transactions on Base"; ", ";
                 "image"; ": "; "https://x/fire.png"; ", ";
                 "attributes"; ": [{";
                 "trait_type"; ": "; "Aura Type"; ", "; "value"; ": "; "Fire Whale"; "}, {";
                 "trait_type"; ": "; "Tier"; ", "; "value"; ": "; "Legendary"; "}, {";
                 "trait_type"; ": "; "Target Address"; ", "; "value"; ": ";
                 "0x0000000000000000000000000000000000000001"; "}]}" ])) ∧
  tokenURI (set_baseImageURI "ipfs://y/" (first_mint 9 5 1 "fire" "https://x/")) 0
  = Ok ("data:application/json;base64," +:+
        Base64_encode
          (lit [ "{"; "name"; ": "; "Base Aura #0 - Fire Whale"; ", ";
                 "description"; ": "; "DeFi Power User - 500+ transactions on Base"; ", ";
                 "image"; ": "; "ipfs://y/fire.png"; ", ";
                 "attributes"; ": [{";
                 "trait_type"; ": "; "Aura Type"; ", "; "value"; ": "; "Fire Whale"; "}, {";
                 "trait_type"; ": "; "Tier"; ", "; "value"; ": "; "Legendary"; "}, {";
                 "trait_type"; ": "; "Target Address"; ", "; "value"; ": ";
                 "0x0000000000000000000000000000000000000001"; "}]}" ])).
Proof.
  split; [reflexivity|].
  destruct (setBaseImageURI_retroactive (first_mint 9 5 1 "fire" "https://x/") "ipfs://y/")
    as (_ & _ & _ & _ & H & _).
  destruct (H 0 eq_refl) as (Haura & Htarget & Howner & Hold & Hnew & _).
  split; [exact Haura|]. split; [exact Htarget|]. split; [exact Howner|].
  split; [exact Hold | exact Hnew].
Defined.


(** ** The registry *)

(** C5: [getTargetAddress], [getAura] and [tokenURI] fail, with the reason
    Token does not exist, exactly for the token ids at or above the counter;
    below it each of them succeeds and is a pure lookup: the state is
    unchanged and no event is logged. In every state the contract can reach,
    the tokens that exist in the ERC-721 sense (those with an owner) are
    exactly the ids below the counter. *)
Theorem lookups_exist_below_counter (s : State) (t : N) :
  (getTargetAddress s t = Revert NoSuchToken ↔ _nextTokenId s ≤ t) ∧
  (getAura s t = Revert NoSuchToken ↔ _nextTokenId s ≤ t) ∧
  (tokenURI s t = Revert NoSuchToken ↔ _nextTokenId s ≤ t) ∧
  (_nextTokenId s ≤ t →
     transact (GetTargetAddress t) s = (s, [], Failed NoSuchToken) ∧
     transact (GetAura t) s = (s, [], Failed NoSuchToken) ∧
     transact (TokenURI t) s = (s, [], Failed NoSuchToken)) ∧
  (t < _nextTokenId s →
     transact (GetTargetAddress t) s = (s, [], Success (Addr (targetOf s t))) ∧
     transact (GetAura t) s = (s, [], Success (Str (auraOf s t))) ∧
     ∃ uri, transact (TokenURI t) s = (s, [], Success (Str uri))) ∧
  (reachable s → ((∃ owner, ownerOf s t = Ok owner) ↔ t < _nextTokenId s)).
Proof.
  assert (Hview : ∀ (A : Type) (f : State → N → result A) (wrap : A → returndata) c,
             (∀ s, exec c s = view wrap (f s t) s) →
             ∀ a, f s t = Ok a → transact c s = (s, [], Success (wrap a))).
  { intros A f wrap c Hc a Ha. unfold transact. by rewrite Hc, Ha. }
  assert (Hfail : ∀ (A : Type) (f : State → N → result A) (wrap : A → returndata) c,
             (∀ s, exec c s = view wrap (f s t) s) →
             ∀ e, f s t = Revert e → transact c s = (s, [], Failed e)).
  { intros A f wrap c Hc a Ha. unfold transact. by rewrite Hc, Ha. }
  assert (Htarget : t < _nextTokenId s → getTargetAddress s t = Ok (targetOf s t)).
  { intros Ht. unfold getTargetAddress. apply N.ltb_lt in Ht. by rewrite Ht. }
  assert (Haura : t < _nextTokenId s → getAura s t = Ok (auraOf s t)).
  { intros Ht. unfold getAura. apply N.ltb_lt in Ht. by rewrite Ht. }
  assert (Htarget' : _nextTokenId s ≤ t → getTargetAddress s t = Revert NoSuchToken).
  { intros Ht. unfold getTargetAddress. apply N.ltb_ge in Ht. by rewrite Ht. }
  assert (Haura' : _nextTokenId s ≤ t → getAura s t = Revert NoSuchToken).
  { intros Ht. unfold getAura. apply N.ltb_ge in Ht. by rewrite Ht. }
  split_and!.
  - split; [|done]. intros H. destruct (N.le_gt_cases (_nextTokenId s) t) as [|Ht]; [done|].
    rewrite Htarget in H by done. discriminate.
  - split; [|done]. intros H. destruct (N.le_gt_cases (_nextTokenId s) t) as [|Ht]; [done|].
    rewrite Haura in H by done. discriminate.
  - split; [|apply tokenURI_missing]. intros H.
    destruct (N.le_gt_cases (_nextTokenId s) t) as [|Ht]; [done|].
    rewrite tokenURI_render in H by done. discriminate.
  - intros Ht. repeat split.
    + by apply (Hfail _ getTargetAddress Addr); [|apply Htarget'].
    + by apply (Hfail _ getAura Str); [|apply Haura'].
    + by apply (Hfail _ tokenURI Str); [|apply tokenURI_missing].
  - intros Ht. repeat split.
    + by apply (Hview _ getTargetAddress Addr); [|apply Htarget].
    + by apply (Hview _ getAura Str); [|apply Haura].
    + eexists. by apply (Hview _ tokenURI Str); [|apply tokenURI_render].
  - intros Hreach. apply tokens_owned_reachable in Hreach. specialize (Hreach t).
    rewrite <- Hreach. unfold ownerOf.
    destruct (N.eqb_spec (ownerOf_raw s t) 0) as [->|Hne].
    + split; [intros [o [=]] | done].
    + split; [done | eauto].
Qed.

Lemma lookups_exist_below_counter_witness :
  transact (GetTargetAddress 0) (first_mint 9 5 1 "fire" "https://x/")
  = (first_mint 9 5 1 "fire" "https://x/", [], Success (Addr 1)) ∧
  transact (GetAura 0) (first_mint 9 5 1 "fire" "https://x/")
  = (first_mint 9 5 1 "fire" "https://x/", [], Success (Str "fire")) ∧
  transact (GetAura 1) (first_mint 9 5 1 "fire" "https://x/")
  = (first_mint 9 5 1 "fire" "https://x/", [], Failed NoSuchToken) ∧
  ((∃ owner, ownerOf (constructor 9 "https://x/") 0 = Ok owner)
   ↔ 0 < _nextTokenId (constructor 9 "https://x/")).
Proof.
  destruct (lookups_exist_below_counter (first_mint 9 5 1 "fire" "https://x/") 0)
    as (_ & _ & _ & _ & Hok & _).
  destruct (Hok eq_refl) as (Htarget & Haura & _).
  destruct (lookups_exist_below_counter (first_mint 9 5 1 "fire" "https://x/") 1)
    as (_ & _ & _ & Hfail & _).
  destruct Hfail as (_ & Haura1 & _); [discriminate|].
  destruct (lookups_exist_below_counter (constructor 9 "https://x/") 0)
    as (_ & _ & _ & _ & _ & Hreach).
  repeat split; try assumption; apply Hreach, reachable_constructor.
Defined.

(** C4: [updateAura] succeeds exactly when the caller is the owner of the
    existing token and the new label is valid. For an existing token a caller
    who is not its owner fails with Not the token owner; the owner with an
    invalid label fails with Invalid aura type; for a token that does not
    exist the ownership check itself reverts ([ownerOf] raises
    ERC721NonexistentToken); in all three cases the state, and so the label,
    is unchanged. On success the label is overwritten with the new one,
    whatever the old one was, nothing else changes, and one AuraUpdated event
    with the token, the old and the new label is logged. *)
Theorem updateAura_owner_gated (s : State) (sender : address) (t : N) (L : string) :
  ((∃ s' ev r, exec (UpdateAura sender t L) s = Ok (s', ev, r))
   ↔ ownerOf s t = Ok sender ∧ _isValidAura L = true) ∧
  (∀ owner, ownerOf s t = Ok owner → owner ≠ sender →
     transact (UpdateAura sender t L) s = (s, [], Failed NotOwner)) ∧
  (ownerOf s t = Ok sender → _isValidAura L = false →
     transact (UpdateAura sender t L) s = (s, [], Failed InvalidTier)) ∧
  (ownerOf_raw s t = 0 →
     transact (UpdateAura sender t L) s = (s, [], Failed (ERC721NonexistentToken t))) ∧
  (ownerOf s t = Ok sender → _isValidAura L = true →
     transact (UpdateAura sender t L) s
     = (set_tokenAuras <[t := L]> s, [AuraUpdated t (auraOf s t) L], Success Void) ∧
     auraOf (set_tokenAuras <[t := L]> s) t = L).
Proof.
  unfold transact. cbn [exec]. unfold updateAura. split_and!.
  - split.
    + intros (s' & ev & r & H). apply bind_Ok in H as (o & Ho & H).
      apply bind_Ok in H as ([] & Hown & H). apply require_Ok, N.eqb_eq in Hown.
      apply bind_Ok in H as ([] & Hval & H). apply require_Ok in Hval.
      subst. done.
    + intros [-> ->]. rewrite bind_Ok_l, N.eqb_refl. simpl. eauto.
  - intros owner -> Hne. rewrite bind_Ok_l.
    apply N.eqb_neq in Hne. by rewrite Hne.
  - intros -> ->. by rewrite bind_Ok_l, N.eqb_refl.
  - intros Hnone. unfold ownerOf. by rewrite Hnone.
  - intros -> ->. rewrite bind_Ok_l, N.eqb_refl. split; [done|].
    rewrite auraOf_insert. by case_decide.
Qed.

Lemma updateAura_owner_gated_witness :
  transact (UpdateAura 5 0 "rock") (first_mint 9 5 1 "fire" "https://x/")
  = (set_tokenAuras <[0 := "rock"]> (first_mint 9 5 1 "fire" "https://x/"),
     [AuraUpdated 0 "fire" "rock"], Success Void) ∧
  transact (UpdateAura 6 0 "rock") (first_mint 9 5 1 "fire" "https://x/")
  = (first_mint 9 5 1 "fire" "https://x/", [], Failed NotOwner) ∧
  transact (UpdateAura 5 0 "gold") (first_mint 9 5 1 "fire" "https://x/")
  = (first_mint 9 5 1 "fire" "https://x/", [], Failed InvalidTier) ∧
  transact (UpdateAura 5 3 "rock") (first_mint 9 5 1 "fire" "https://x/")
  = (first_mint 9 5 1 "fire" "https://x/", [], Failed (ERC721NonexistentToken 3)).
Proof.
  split_and!.
  - destruct (updateAura_owner_gated (first_mint 9 5 1 "fire" "https://x/") 5 0 "rock")
      as (_ & _ & _ & _ & H).
    exact (proj1 (H eq_refl eq_refl)).
  - destruct (updateAura_owner_gated (first_mint 9 5 1 "fire" "https://x/") 6 0 "rock")
      as (_ & H & _).
    apply (H 5); [reflexivity | discriminate].
  - destruct (updateAura_owner_gated (first_mint 9 5 1 "fire" "https://x/") 5 0 "gold")
      as (_ & _ & H & _).
    exact (H eq_refl eq_refl).
  - destruct (updateAura_owner_gated (first_mint 9 5 1 "fire" "https://x/") 5 3 "rock")
      as (_ & _ & _ & H & _).
    exact (H eq_refl).
Defined.

Lemma exec_Mint_accepted s sender T L callbacks :
  minted s T = false → _isValidAura L = true → _nextTokenId s ≠ uint256_max →
  sender ≠ 0 → ownerOf_raw s (_nextTokenId s) = 0 →
  exec (Mint sender T L callbacks true) s
  = Ok (mint_finish T L (_nextTokenId s) (run callbacks (mint_mid sender s)).1,
        Transfer 0 sender (_nextTokenId s)
          :: (run callbacks (mint_mid sender s)).2 ++ [AuraMinted sender T (_nextTokenId s) L],
        Void).
Proof.
  intros Hfree Hvalid Hmax Hsender Hfresh. cbn [exec]. unfold mint.
  rewrite Hfree, Hvalid. cbn [negb]. rewrite !require_true, !bind_Ok_l.
  apply N.eqb_neq in Hmax. rewrite Hmax. cbv zeta.
  unfold _safeMint, _mint. apply N.eqb_neq in Hsender. rewrite Hsender.
  change (ownerOf_raw (set_nextTokenId (_nextTokenId s + 1) s) (_nextTokenId s))
    with (ownerOf_raw s (_nextTokenId s)).
  rewrite Hfresh. cbn [N.eqb negb]. rewrite !bind_Ok_l.
  fold run. fold (mint_mid sender s).
  destruct (run callbacks (mint_mid sender s)) as [s2 ev2]. reflexivity.
Qed.

(** C1 as stated does not hold: [mint] has no return value, so the caller is
    not handed the token id (the return data of a successful mint is empty),
    and a mint whose sender is a contract that does not accept the token is
    reverted by [_safeMint] although the target is free and the label valid. *)
Lemma mint_returns_nothing_and_can_be_refused :
  (transact (Mint 5 1 "fire" [] true) (constructor 9 "https://x/")).2 = Success Void ∧
  Success Void ≠ Success (Uint 0) ∧
  hasMinted (constructor 9 "https://x/") 1 = false ∧
  transact (Mint 5 1 "fire" [] false) (constructor 9 "https://x/")
  = (constructor 9 "https://x/", [], Failed (ERC721InvalidReceiver 5)).
Proof. repeat split; done. Qed.

(** C1, amended: in every state the contract can reach, with the counter
    below 2^256 - 1, for every target without a token, every valid label and
    every non-zero sender that accepts the token ([onERC721Received] passes,
    or the sender has no code), [mint] succeeds and returns no value. The new
    token gets the value of the counter before the increment (which is 0 on a
    new contract), both directions of the target/token mapping, the label and
    the minted flag are stored, and the last event logged is AuraMinted with
    the sender, the target, the token id and the label. When the sender does
    not call back into the registry, the sender is the owner of the new
    token, the counter has advanced by exactly one and the events are the
    ERC-721 Transfer followed by AuraMinted. *)
Theorem mint_creates_token (s : State) (sender T : address) (L : string)
    (callbacks : list call) :
  reachable s → _nextTokenId s < uint256_max → sender ≠ 0 →
  hasMinted s T = false → _isValidAura L = true →
  let tokenId := _nextTokenId s in
  let after := run callbacks (mint_mid sender s) in
  let s' := mint_finish T L tokenId after.1 in
  transact (Mint sender T L callbacks true) s
  = (s', Transfer 0 sender tokenId :: after.2 ++ [AuraMinted sender T tokenId L],
     Success Void) ∧
  getTokenByTargetAddress s' T = Ok tokenId ∧
  getTargetAddress s' tokenId = Ok T ∧
  getAura s' tokenId = Ok L ∧
  hasMinted s' T = true ∧
  (∀ deployer uri, _nextTokenId (constructor deployer uri) = 0) ∧
  (callbacks = [] →
     ownerOf s' tokenId = Ok sender ∧
     _nextTokenId s' = tokenId + 1 ∧
     transact (Mint sender T L callbacks true) s
     = (s', [Transfer 0 sender tokenId; AuraMinted sender T tokenId L], Success Void)).
Proof.
  intros Hreach Hmax Hsender Hfree Hvalid tokenId after s'.
  assert (Hfresh : ownerOf_raw s tokenId = 0).
  { destruct (N.eq_dec (ownerOf_raw s tokenId) 0) as [|Hne]; [done|].
    apply (tokens_owned_reachable s Hreach) in Hne. unfold tokenId in Hne. lia. }
  assert (Hexec := exec_Mint_accepted s sender T L callbacks Hfree Hvalid
                     ltac:(lia) Hsender Hfresh).
  fold tokenId after s' in Hexec.
  assert (Hnext : tokenId < _nextTokenId s').
  { pose proof (extends_run callbacks (mint_mid sender s)) as (Hle & _).
    fold after in Hle. simpl in Hle. unfold s'. simpl. fold tokenId in Hle. lia. }
  apply N.ltb_lt in Hnext.
  split_and!.
  - unfold transact. by rewrite Hexec.
  - unfold getTokenByTargetAddress, minted, tokenIdOf, s'. simpl.
    by rewrite !lookup_insert_eq.
  - unfold getTargetAddress, targetOf. rewrite Hnext. unfold s'. simpl.
    by rewrite lookup_insert_eq.
  - unfold getAura, auraOf. rewrite Hnext. unfold s'. simpl.
    by rewrite lookup_insert_eq.
  - unfold hasMinted, minted, s'. simpl. by rewrite lookup_insert_eq.
  - done.
  - intros ->. unfold transact. rewrite Hexec. unfold s', after. simpl.
    split_and!; try done.
    unfold ownerOf, ownerOf_raw. simpl. rewrite lookup_insert_eq. simpl.
    apply N.eqb_neq in Hsender. by rewrite Hsender.
Qed.

Lemma mint_creates_token_witness :
  reachable (constructor 9 "https://x/") ∧
  _nextTokenId (constructor 9 "https://x/") < uint256_max ∧
  5 ≠ 0 ∧
  hasMinted (constructor 9 "https://x/") 1 = false ∧
  _isValidAura "fire" = true ∧
  transact (Mint 5 1 "fire" [] true) (constructor 9 "https://x/")
  = (first_mint 9 5 1 "fire" "https://x/",
     [Transfer 0 5 0; AuraMinted 5 1 0 "fire"], Success Void) ∧
  getTokenByTargetAddress (first_mint 9 5 1 "fire" "https://x/") 1 = Ok 0 ∧
  getTargetAddress (first_mint 9 5 1 "fire" "https://x/") 0 = Ok 1 ∧
  getAura (first_mint 9 5 1 "fire" "https://x/") 0 = Ok "fire" ∧
  hasMinted (first_mint 9 5 1 "fire" "https://x/") 1 = true ∧
  ownerOf (first_mint 9 5 1 "fire" "https://x/") 0 = Ok 5.
Proof.
  assert (H59 : 5 ≠ 0) by discriminate.
  destruct (mint_creates_token (constructor 9 "https://x/") 5 1 "fire" []
              (reachable_constructor 9 "https://x/") eq_refl H59 eq_refl eq_refl)
    as (Htx & Htoken & Htarget & Haura & Hflag & _ & Hquiet).
  destruct (Hquiet eq_refl) as (Howner & _ & _).
  split_and!; try done; try apply reachable_constructor.
Defined.

Lemma reachable_run calls s : reachable s → reachable (run calls s).1.
Proof.
  revert s. induction calls as [|c calls IH]; intros s Hs; [done|].
  unfold run in *. simpl.
  destruct (exec c s) as [[[s1 ev1] r1]|e] eqn:Hexec; [|by apply IH].
  specialize (IH s1 (reachable_call _ _ _ _ _ Hs Hexec)).
  by destruct (run_with exec calls s1).
Qed.

Lemma exec_Mint_duplicate s sender T L callbacks accepted :
  minted s T = true →
  exec (Mint sender T L callbacks accepted) s = Revert DuplicateTarget.
Proof.
  intros Hminted. cbn [exec]. unfold mint. by rewrite Hminted.
Qed.

(** In a reachable state the target of every token is flagged as minted. *)
Lemma token_target_minted s t :
  reachable s → t < _nextTokenId s → minted s (targetOf s t) = true.
Proof.
  intros Hreach Ht.
  destruct (targets_written_reachable s Hreach t Ht) as (X & HX & Hflag); [tauto|].
  unfold targetOf. by rewrite HX.
Qed.

(** C3: once a target address has a token (some token below the counter has
    it as its target address), every later [mint] for that target, whoever
    sends it, whatever the label and whatever the sender would do in
    [onERC721Received], fails with This address already has an Aura NFT and
    leaves the whole state as it was, with no event logged; this holds in the
    state where the token exists and after any further calls. *)
Theorem duplicate_mint_rejected (s : State) (T : address) (calls : list call) :
  reachable s →
  (∃ t, t < _nextTokenId s ∧ targetOf s t = T) →
  hasMinted s T = true ∧
  hasMinted (run calls s).1 T = true ∧
  ∀ sender L callbacks accepted,
    transact (Mint sender T L callbacks accepted) (run calls s).1
    = ((run calls s).1, [], Failed DuplicateTarget).
Proof.
  intros Hreach (t & Ht & <-).
  pose proof (token_target_minted s t Hreach Ht) as Hflag.
  destruct (extends_run calls s) as (_ & _ & Hkeep & _).
  destruct (Hkeep _ Hflag) as [Hflag' _].
  split_and!; try done.
  intros sender L callbacks accepted. unfold transact.
  by rewrite exec_Mint_duplicate.
Qed.

Lemma duplicate_mint_rejected_witness :
  reachable (first_mint 9 5 1 "fire" "https://x/") ∧
  (∃ t, t < _nextTokenId (first_mint 9 5 1 "fire" "https://x/")
        ∧ targetOf (first_mint 9 5 1 "fire" "https://x/") t = 1) ∧
  transact (Mint 6 1 "water" [] true)
    (run [UpdateAura 5 0 "rock"] (first_mint 9 5 1 "fire" "https://x/")).1
  = ((run [UpdateAura 5 0 "rock"] (first_mint 9 5 1 "fire" "https://x/")).1,
     [], Failed DuplicateTarget).
Proof.
  assert (Hreach : reachable (first_mint 9 5 1 "fire" "https://x/")).
  { eapply reachable_call; [apply (reachable_constructor 9 "https://x/")|].
    instantiate (1 := Void). instantiate (1 := [Transfer 0 5 0; AuraMinted 5 1 0 "fire"]).
    instantiate (1 := Mint 5 1 "fire" [] true). reflexivity. }
  assert (Htoken : ∃ t, t < _nextTokenId (first_mint 9 5 1 "fire" "https://x/")
                        ∧ targetOf (first_mint 9 5 1 "fire" "https://x/") t = 1).
  { exists 0. split; reflexivity. }
  split; [exact Hreach|]. split; [exact Htoken|].
  destruct (duplicate_mint_rejected (first_mint 9 5 1 "fire" "https://x/") 1
              [UpdateAura 5 0 "rock"] Hreach Htoken) as (_ & _ & H).
  apply H.
Defined.

Lemma mint_writes_fields s0 sender T L callbacks accepted s ev0 r :
  exec (Mint sender T L callbacks accepted) s0 = Ok (s, ev0, r) →
  _nextTokenId s0 < _nextTokenId s ∧
  targetOf s (_nextTokenId s0) = T ∧
  auraOf s (_nextTokenId s0) = L.
Proof.
  intros H. apply exec_Mint_Ok in H as (_ & _ & _ & _ & _ & _ & -> & _ & _).
  pose proof (extends_run callbacks (mint_mid sender s0)) as (Hle & _).
  simpl in Hle. unfold targetOf, auraOf. simpl. rewrite !lookup_insert_eq.
  split_and!; try done. lia.
Qed.

(** After its mint has returned, a token keeps its target address and
    changes its label only through [updateAura]. For a token that exists in
    a state, after any calls made from that state (mints with any callbacks,
    updates, transfers, changes of the image base, reverted calls)
    [getTargetAddress] returns what it returned before, and [getAura] returns
    the label of the last AuraUpdated event the calls logged for the token,
    or the label it had before when there is none. For the token a
    successful [mint] creates, the values before are the target address and
    the label passed to [mint]. A call without callbacks logs an AuraUpdated
    event for a token exactly when it is a successful [updateAura] on that
    token, and the event carries the label passed to it. *)
Lemma token_fields_stable :
  (∀ (s : State) (t : N) (calls : list call),
     t < _nextTokenId s →
     getTargetAddress (run calls s).1 t = getTargetAddress s t ∧
     getAura (run calls s).1 t
     = Ok (default (auraOf s t) (last_update t (run calls s).2))) ∧
  (∀ s0 sender T L callbacks accepted s ev0 r (calls : list call),
     exec (Mint sender T L callbacks accepted) s0 = Ok (s, ev0, r) →
     getTargetAddress s (_nextTokenId s0) = Ok T ∧
     getAura s (_nextTokenId s0) = Ok L ∧
     getTargetAddress (run calls s).1 (_nextTokenId s0) = Ok T ∧
     getAura (run calls s).1 (_nextTokenId s0)
     = Ok (default L (last_update (_nextTokenId s0) (run calls s).2))) ∧
  (∀ c s s' ev r t,
     quiet c → exec c s = Ok (s', ev, r) →
     last_update t ev
     = match c with
       | UpdateAura _ t' L => if t' =? t then Some L else None
       | _ => None
       end).
Proof.
  assert (Hgeneral : ∀ (s : State) (t : N) (calls : list call),
     t < _nextTokenId s →
     getTargetAddress (run calls s).1 t = getTargetAddress s t ∧
     getAura (run calls s).1 t
     = Ok (default (auraOf s t) (last_update t (run calls s).2))).
  { intros s t calls Ht.
    destruct (extends_run calls s) as (Hle & Htarget & _ & Haura).
    assert (Ht' : t < _nextTokenId (run calls s).1) by lia.
    apply N.ltb_lt in Ht, Ht'.
    unfold getTargetAddress, getAura, targetOf. rewrite Ht, Ht'.
    apply N.ltb_lt in Ht. rewrite Htarget, Haura by done. done. }
  split; [exact Hgeneral|]. split.
  - intros s0 sender T L callbacks accepted s ev0 r calls Hmint.
    apply mint_writes_fields in Hmint as (Hlt & HT & HL).
    destruct (Hgeneral s (_nextTokenId s0) calls Hlt) as [Htarget Haura].
    rewrite Htarget, Haura, HL.
    apply N.ltb_lt in Hlt. unfold getTargetAddress, getAura. rewrite Hlt, HT, HL. done.
  - intros c s s' ev r t Hquiet Hexec. destruct c; cbn [exec] in Hexec.
    + unfold quiet in Hquiet. simpl in Hquiet. subst callbacks.
      by apply exec_Mint_Ok in Hexec as (_ & _ & _ & _ & _ & _ & _ & -> & _).
    + by apply updateAura_Ok in Hexec as (_ & _ & _ & _ & -> & _).
    + by apply setBaseImageURI_Ok in Hexec as (_ & _ & -> & _).
    + by apply transferFrom_Ok in Hexec as (_ & _ & _ & -> & _).
    + by_view Hexec.
    + by_view Hexec.
    + by_view Hexec.
    + by_view Hexec.
    + by_view Hexec.
Qed.

(** C6: the claim fails on a mint whose sender calls [updateAura] from
    [onERC721Received]. When the sender is called the new token has its owner
    already, so the update of its label succeeds and is logged; [mint] writes
    the label passed to it only afterwards, over the update. After the mint
    the label is fire, although the most recent successful update of the
    token set rock. When the sender is called the token exists and its target
    address reads as the zero address; after the mint it reads 7. *)
Theorem callback_update_overwritten :
  transact mint_with_update (constructor 9 "https://x/")
  = (after_mint_with_update,
     [Transfer 0 100 0; AuraUpdated 0 EmptyString "rock"; AuraMinted 100 7 0 "fire"],
     Success Void) ∧
  transact (UpdateAura 100 0 "rock") (Config.state inside_first_mint)
  = (set_tokenAuras <[0 := "rock"]> (Config.state inside_first_mint),
     [AuraUpdated 0 EmptyString "rock"], Success Void) ∧
  getAura (set_tokenAuras <[0 := "rock"]> (Config.state inside_first_mint)) 0 = Ok "rock" ∧
  getAura after_mint_with_update 0 = Ok "fire" ∧
  last_update 0 (transact mint_with_update (constructor 9 "https://x/")).1.2 = Some "rock" ∧
  getTargetAddress (Config.state inside_first_mint) 0 = Ok 0 ∧
  getTargetAddress after_mint_with_update 0 = Ok 7 ∧
  reachable after_mint_with_update ∧
  observable inside_first_mint.
Proof.
  split_and!; try reflexivity.
  - eapply reachable_call; [apply (reachable_constructor 9 "https://x/")|].
    instantiate (1 := Void).
    instantiate (1 := [Transfer 0 100 0; AuraUpdated 0 EmptyString "rock";
                       AuraMinted 100 7 0 "fire"]).
    instantiate (1 := mint_with_update). reflexivity.
  - exists 9, "https://x/". apply rtc_once.
    exact (step_enter (constructor 9 "https://x/") [] [] 100 7 "fire"
             eq_refl eq_refl ltac:(discriminate) ltac:(discriminate) eq_refl).
Qed.


(** ** Consistency of the two mappings *)

Lemma mint_finish_reads T L id s :
  (∀ X, minted (mint_finish T L id s) X = if decide (T = X) then true else minted s X) ∧
  (∀ X, tokenIdOf (mint_finish T L id s) X
        = if decide (T = X) then id else tokenIdOf s X) ∧
  (∀ t, targetOf (mint_finish T L id s) t = if decide (id = t) then T else targetOf s t) ∧
  _nextTokenId (mint_finish T L id s) = _nextTokenId s.
Proof.
  unfold minted, tokenIdOf, targetOf, mint_finish. simpl.
  split_and!; try done; intros k; rewrite lookup_insert; by case_decide.
Qed.

Lemma registry_consistent_mint s sender T L :
  minted s T = false → registry_consistent s →
  registry_consistent (mint_finish T L (_nextTokenId s) (mint_mid sender s)).
Proof.
  intros Hfree [Hfwd Hbwd].
  destruct (mint_finish_reads T L (_nextTokenId s) (mint_mid sender s))
    as (Hm & Hk & Ht & Hn).
  unfold registry_consistent, hasMinted in *. rewrite Hn. simpl.
  split.
  - intros t Hlt. rewrite Ht, Hm, Hk.
    destruct (decide (_nextTokenId s = t)) as [<-|Hne].
    + by rewrite !decide_True.
    + change (targetOf (mint_mid sender s) t) with (targetOf s t).
      destruct (Hfwd t) as [Hflag Hid]; [lia|].
      assert (T ≠ targetOf s t) by congruence.
      rewrite !decide_False by done. done.
  - intros X. rewrite Hm, Hk, Ht.
    destruct (decide (T = X)) as [<-|Hne].
    + intros _. rewrite decide_True by done. split; [lia | done].
    + change (minted (mint_mid sender s) X) with (minted s X).
      change (tokenIdOf (mint_mid sender s) X) with (tokenIdOf s X).
      intros HX. destruct (Hbwd X HX) as [Hlt Hinv].
      rewrite decide_False by lia. split; [lia | done].
Qed.

(** Without callbacks the registry stays consistent. *)
Lemma registry_consistent_quiet s : reachable_quiet s → registry_consistent s.
Proof.
  induction 1 as [d uri | s c s' ev r _ IH Hquiet Hexec].
  - split.
    + intros t Ht. simpl in Ht. lia.
    + intros X HX. discriminate.
  - destruct c; cbn [exec] in Hexec.
    + unfold quiet in Hquiet. simpl in Hquiet. subst callbacks.
      apply exec_Mint_Ok in Hexec as (Hfree & _ & _ & _ & _ & _ & -> & _ & _).
      by apply registry_consistent_mint.
    + by apply updateAura_Ok in Hexec as (_ & _ & _ & -> & _ & _).
    + by apply setBaseImageURI_Ok in Hexec as (_ & -> & _ & _).
    + by apply transferFrom_Ok in Hexec as (_ & _ & -> & _ & _).
    + by_view Hexec.
    + by_view Hexec.
    + by_view Hexec.
    + by_view Hexec.
    + by_view Hexec.
Qed.

(** The token of a minted target is the same after any calls. *)
Lemma getTokenByTargetAddress_stable s X calls :
  hasMinted s X = true →
  hasMinted (run calls s).1 X = true ∧
  getTokenByTargetAddress (run calls s).1 X = getTokenByTargetAddress s X.
Proof.
  intros HX. destruct (extends_run calls s) as (_ & _ & Hkeep & _).
  destruct (Hkeep X HX) as [HX' Heq]. split; [done|].
  unfold getTokenByTargetAddress, tokenIdOf. unfold hasMinted in HX.
  by rewrite HX, HX', Heq.
Qed.

(** C2: the claim fails on a mint whose sender calls [mint] again from
    [onERC721Received]. [mint] sets the minted flag only after [_safeMint] has
    called the sender, so the inner mint for the same target passes the
    guard. Both mints succeed; the reached state has the tokens 0 and 1 with
    the same target address 7, the lookup of target 7 gives token 0, so the
    two mappings are not inverse at token 1; and the lookup gave token 1
    when the inner mint had returned. *)
Theorem reentrant_mint_duplicates_target :
  transact reentrant_mint (constructor 9 "https://x/")
  = (after_reentrant_mint,
     [Transfer 0 100 0; Transfer 0 100 1; AuraMinted 100 7 1 "water";
      AuraMinted 100 7 0 "fire"],
     Success Void) ∧
  reachable after_reentrant_mint ∧
  getTargetAddress after_reentrant_mint 0 = Ok 7 ∧
  getTargetAddress after_reentrant_mint 1 = Ok 7 ∧
  getTokenByTargetAddress after_reentrant_mint 7 = Ok 0 ∧
  ¬ registry_consistent after_reentrant_mint ∧
  getTokenByTargetAddress
    (transact (Mint 100 7 "water" [] true)
       (mint_mid 100 (constructor 9 "https://x/"))).1.1 7
  = Ok 1.
Proof.
  split_and!; try reflexivity.
  - eapply reachable_call; [apply (reachable_constructor 9 "https://x/")|].
    instantiate (1 := Void).
    instantiate (1 := [Transfer 0 100 0; Transfer 0 100 1; AuraMinted 100 7 1 "water";
                       AuraMinted 100 7 0 "fire"]).
    instantiate (1 := reentrant_mint). reflexivity.
  - intros [Hfwd _]. destruct (Hfwd 1) as [_ Hid]; [reflexivity|]. discriminate.
Qed.

(** * Further properties of the contract *)

(** ** The invariants behind them *)

Lemma registry_wf_exec c s s' ev r :
  exec c s = Ok (s', ev, r) →
  ∀ pending, registry_wf pending s → registry_wf pending s'.
Proof.
  revert c s s' ev r.
  apply (exec_rel (fun s _ s' =>
           ∀ pending, registry_wf pending s → registry_wf pending s')).
  - done.
  - intros s e1 s1 e2 s2 H1 H2 pending H. auto.
  - intros sender T L s s2 ev2 Hfree Hvalid _ _ _ IH pending (Hp & Hflag & Hentry & Hlabel).
    set (id := _nextTokenId s) in *.
    assert (Hid : ¬ pending id) by (intros H; apply Hp in H; lia).
    assert (Hmid : registry_wf (fun t => pending t ∨ t = id) (mint_mid sender s)).
    { split_and!.
      - intros t [Ht | ->]; simpl; [apply Hp in Ht|]; lia.
      - exact Hflag.
      - intros X t HX. simpl in HX. destruct (Hentry X t HX) as (Ht & Hnp & Htarget & HXm).
        simpl. split_and!; try done; [lia | intros [?| ->]; [done | lia]].
      - intros t Ht Hnp. simpl in Ht. apply Hlabel; [|tauto].
        destruct (decide (t = id)); [tauto | lia]. }
    destruct (IH _ Hmid) as (Hp2 & Hflag2 & Hentry2 & Hlabel2).
    assert (Hid2 : id < _nextTokenId s2) by (apply Hp2; by right).
    unfold mint_finish. split_and!; simpl.
    + intros t Ht. apply Hp2. by left.
    + intros X. unfold minted. simpl. rewrite !lookup_insert.
      case_decide; [eauto | apply Hflag2].
    + intros X t Hent. unfold minted. simpl.
      destruct (decide (T = X)) as [<-|HX].
      * rewrite lookup_insert_eq in Hent. injection Hent as <-.
        rewrite !lookup_insert_eq. split_and!; done.
      * rewrite lookup_insert_ne in Hent by done.
        destruct (Hentry2 X t Hent) as (Hlt & Hnp & Htarget & HXm).
        assert (id ≠ t) by (intros ->; apply Hnp; by right).
        rewrite !lookup_insert_ne by done.
        split_and!; try done. intros ?. apply Hnp. by left.
    + intros t Ht Hnp. rewrite lookup_insert.
      case_decide; [eauto|]. apply Hlabel2; [done|].
      intros [?| ->]; done.
  - intros t L s _ Hvalid pending (Hp & Hflag & Hentry & Hlabel).
    split_and!; try done. simpl. intros t' Ht' Hnp. rewrite lookup_insert.
    case_decide; [eauto | by apply Hlabel].
  - done.
  - done.
Qed.

Lemma registry_wf_reachable s : reachable s → registry_wf (fun _ => False) s.
Proof.
  induction 1 as [d uri | s c s' ev r _ IH Hexec].
  - split_and!; try done. intros t Ht. simpl in Ht. lia.
  - by eapply registry_wf_exec.
Qed.

Lemma count_minted_app t e1 e2 :
  count_minted t (e1 ++ e2) = (count_minted t e1 + count_minted t e2)%nat.
Proof.
  induction e1 as [|e e1 IH]; [done|].
  destruct e; simpl; rewrite IH; try done. by case_match.
Qed.

Lemma mints_fresh_refl s : mints_fresh s [] s.
Proof.
  split; [lia|]. intros t. simpl. case_decide; [lia | done].
Qed.

Lemma mints_fresh_trans s e1 s1 e2 s2 :
  mints_fresh s e1 s1 → mints_fresh s1 e2 s2 → mints_fresh s (e1 ++ e2) s2.
Proof.
  intros [Hle1 H1] [Hle2 H2]. split; [lia|]. intros t.
  rewrite count_minted_app, H1, H2. repeat case_decide; lia.
Qed.

Lemma mints_fresh_exec c s s' ev r : exec c s = Ok (s', ev, r) → mints_fresh s ev s'.
Proof.
  revert c s s' ev r. apply (exec_rel mints_fresh).
  - apply mints_fresh_refl.
  - apply mints_fresh_trans.
  - intros sender T L s s2 ev2 _ _ _ _ _ [Hle H]. simpl in Hle, H.
    split; [simpl; lia|]. intros t. cbn [count_minted].
    rewrite count_minted_app, H. simpl.
    destruct (N.eqb_spec (_nextTokenId s) t); repeat case_decide; lia.
  - intros t L s _ _. split; [simpl; lia|]. intros t'. simpl. case_decide; [lia|done].
  - intros to t s _ _. split; [simpl; lia|]. intros t'. simpl. case_decide; [lia|done].
  - intros uri s. split; [simpl; lia|]. intros t'. simpl. case_decide; [lia|done].
Qed.

Lemma reachable_after_reentrant_mint : reachable after_reentrant_mint.
Proof.
  eapply reachable_call; [apply (reachable_constructor 9 "https://x/")|].
  instantiate (1 := Void).
  instantiate (1 := [Transfer 0 100 0; Transfer 0 100 1; AuraMinted 100 7 1 "water";
                     AuraMinted 100 7 0 "fire"]).
  instantiate (1 := reentrant_mint). reflexivity.
Qed.

Lemma isValidAura_iff L :
  _isValidAura L = true ↔ L = "fire" ∨ L = "water" ∨ L = "tide" ∨ L = "rock".
Proof.
  unfold _isValidAura, FIRE_WHALE, WAVE_RIDER, TIDE_WATCHER, ROCK_HOLDER.
  rewrite !orb_true_iff, !String.eqb_eq. tauto.
Qed.

(** ** Configurations: the storage invariant *)

Lemma storage_inv_deployed deployer uri : storage_inv [] (constructor deployer uri).
Proof.
  unfold storage_inv. split_and!; simpl.
  - intros t. unfold ownerOf_raw. simpl. rewrite lookup_empty. simpl. lia.
  - intros t Ht. by apply elem_of_nil in Ht.
  - done.
  - done.
  - intros t Ht. by apply elem_of_nil in Ht.
  - intros t Ht. lia.
  - intros X HX. discriminate.
Qed.

Lemma storage_inv_enter l s sender :
  storage_inv l s → sender ≠ 0 →
  storage_inv (_nextTokenId s :: l) (mint_mid sender s).
Proof.
  intros (Hown & Hp & Htarget & Hnone & Hplabel & Hdone & Hflag) Hsender.
  set (id := _nextTokenId s).
  unfold storage_inv. split_and!; simpl; fold id.
  - intros t. unfold mint_mid. rewrite ownerOf_raw_insert. simpl. fold id.
    change (ownerOf_raw (set_nextTokenId _ s) t) with (ownerOf_raw s t).
    specialize (Hown t). fold id in Hown. case_decide; [subst; split; [lia|done] | lia].
  - intros t [->|Ht]%elem_of_cons; [lia|]. apply Hp in Ht. fold id in Ht. lia.
  - intros t [Ht | [->|Ht]%elem_of_cons]; apply Htarget; fold id; [left; lia | left; lia | by right].
  - intros t Ht. apply Hnone. fold id. lia.
  - intros t [->|Ht]%elem_of_cons; [left; apply Hnone; fold id; lia | by apply Hplabel].
  - intros t Ht Hnp. apply not_elem_of_cons in Hnp as [Hne Hnp].
    apply Hdone; [fold id; lia | done].
  - intros X HX. destruct (Hflag X HX) as (t & Hent & Hlt & Hnp & Ht). fold id in Hlt.
    exists t. split_and!; try done; [lia|]. apply not_elem_of_cons. split; [lia | done].
Qed.

Lemma storage_inv_return l s id T L :
  storage_inv (id :: l) s → id ∉ l → _isValidAura L = true →
  storage_inv l (mint_finish T L id s).
Proof.
  intros (Hown & Hp & Htarget & Hnone & Hplabel & Hdone & Hflag) Hid Hvalid.
  assert (Hlt : id < _nextTokenId s) by (apply Hp; left).
  unfold storage_inv, mint_finish. split_and!; simpl.
  - exact Hown.
  - intros t Ht. apply Hp. by right.
  - intros t Ht. rewrite lookup_insert_ne.
    + apply Htarget. destruct Ht as [Ht|Ht]; [by left | right; by right].
    + intros <-. destruct Ht as [Ht|Ht]; [lia | done].
  - intros t Ht. rewrite lookup_insert_ne by lia. by apply Hnone.
  - intros t Ht. rewrite lookup_insert_ne by (intros <-; done). apply Hplabel. by right.
  - intros t Ht Hnp. unfold minted. simpl.
    destruct (decide (id = t)) as [<-|Hne].
    + exists T, L. by rewrite !lookup_insert_eq.
    + destruct (Hdone t Ht) as (X & L' & HX & HXm & HL & HLv).
      { apply not_elem_of_cons. split; [done | done]. }
      exists X, L'. split_and!; [by rewrite lookup_insert_ne | | by rewrite lookup_insert_ne | done].
      rewrite lookup_insert. case_decide; [done | exact HXm].
  - intros X. unfold minted. simpl. destruct (decide (T = X)) as [<-|Hne].
    + intros _. exists id. by rewrite !lookup_insert_eq.
    + rewrite !lookup_insert_ne by done. intros HX.
      destruct (Hflag X HX) as (t & Hent & Htlt & Hnp & Ht).
      apply not_elem_of_cons in Hnp as [Hne' Hnp].
      exists t. rewrite lookup_insert_ne by done. done.
Qed.

Lemma storage_inv_exec c s s' ev r :
  exec c s = Ok (s', ev, r) → ∀ l, storage_inv l s → storage_inv l s'.
Proof.
  revert c s s' ev r.
  apply (exec_rel (fun s _ s' => ∀ l, storage_inv l s → storage_inv l s')).
  - done.
  - intros s e1 s1 e2 s2 H1 H2 l H. auto.
  - intros sender T L s s2 ev2 _ Hvalid Hsender _ _ IH l Hs.
    apply storage_inv_return; [|  |done].
    + apply IH. by apply storage_inv_enter.
    + intros Hin. destruct Hs as (_ & Hp & _). apply Hp in Hin. lia.
  - intros t L s Hex Hvalid l (Hown & Hp & Htarget & Hnone & Hplabel & Hdone & Hflag).
    assert (Hlt : t < _nextTokenId s) by (by apply Hown).
    unfold storage_inv. split_and!; simpl; try done.
    + intros t' Ht'. rewrite lookup_insert_ne by lia. by apply Hnone.
    + intros t' Ht'. rewrite lookup_insert. case_decide; [right; eauto | by apply Hplabel].
    + intros t' Ht' Hnp. destruct (Hdone t' Ht' Hnp) as (X & L' & HX & HXm & HL & HLv).
      rewrite lookup_insert. case_decide; [exists X, L | exists X, L']; done.
  - intros to t s Hex Hto l (Hown & Hrest).
    split; [|exact Hrest]. intros t'. rewrite ownerOf_raw_insert. simpl.
    pose proof (Hown t) as Hst. specialize (Hown t').
    case_decide; [subst; tauto | done].
  - done.
Qed.

Lemma in_progress_cons s f frames log :
  in_progress (Config.mk s (f :: frames) log)
  = Frame.token f :: in_progress (Config.mk s frames log).
Proof. reflexivity. Qed.

Lemma step_inv c c' : step c c' → config_inv c → config_inv c'.
Proof.
  intros Hstep (Hinv & Hnd & Hvalid). destruct Hstep as
    [s frames log c s' ev r Hexec | s frames log sender T L _ HL _ Hsender _ | s f frames log];
    unfold config_inv, in_progress in *; simpl in *.
  - split; [by eapply storage_inv_exec | done].
  - split_and!; [by apply storage_inv_enter | | by constructor].
    apply NoDup_cons. split; [|done].
    intros Hin. destruct Hinv as (_ & Hp & _). apply Hp in Hin. lia.
  - apply NoDup_cons in Hnd as [Hnotin Hnd]. apply Forall_cons in Hvalid as [Hf Hvalid].
    split_and!; [|done|done]. by apply storage_inv_return.
Qed.

Lemma observable_inv c : observable c → config_inv c.
Proof.
  intros (deployer & uri & Hsteps). revert c Hsteps. apply rtc_ind_r.
  - split_and!; [apply storage_inv_deployed | constructor | constructor].
  - intros c1 c2 _ Hstep IH. by eapply step_inv.
Qed.

(** ** Configurations and executions *)

Lemma run_snoc calls c s :
  run (calls ++ [c]) s
  = match exec c (run calls s).1 with
    | Ok (s', ev, _) => (s', (run calls s).2 ++ ev)
    | Revert _ => run calls s
    end.
Proof.
  unfold run. revert s. induction calls as [|c0 calls IH]; intros s; simpl.
  - destruct (exec c s) as [[[s1 ev1] r1]|e]; [by rewrite app_nil_r | done].
  - destruct (exec c0 s) as [[[s1 ev1] r1]|e]; [|apply IH].
    rewrite IH. destruct (run_with exec calls s1) as [s2 ev2]. simpl.
    destruct (exec c s2) as [[[s3 ev3] r3]|e]; [by rewrite app_assoc | done].
Qed.

Lemma explained_exec s frames c s' ev r :
  explained s frames → exec c s = Ok (s', ev, r) → explained s' frames.
Proof.
  destruct frames as [|f frames]; simpl.
  - intros Hs Hexec. by eapply reachable_call.
  - intros (s0 & callbacks & H0 & Hfree & Hvalid & Hmax & Hsender & Hfresh & Htoken & ->) Hexec.
    exists s0, (callbacks ++ [c]). split_and!; try done.
    by rewrite run_snoc, Hexec.
Qed.

(** Every configuration is one that executions of the contract go through. *)
Lemma observable_explained c :
  observable c → explained (Config.state c) (Config.frames c).
Proof.
  intros (deployer & uri & Hsteps). revert c Hsteps. apply rtc_ind_r.
  - apply reachable_constructor.
  - intros c1 c2 _ Hstep IH. destruct Hstep as
      [s frames log c s' ev r Hexec | s frames log sender T L ? ? ? ? ? | s f frames log];
      simpl in *.
    + by eapply explained_exec.
    + exists s, []. split_and!; done.
    + destruct IH as (s0 & callbacks & H0 & Hfree & Hvalid & Hmax & Hsender & Hfresh & Htoken & ->).
      eapply explained_exec; [exact H0|]. rewrite Htoken.
      apply (exec_Mint_accepted s0 (Frame.sender f) (Frame.target f) (Frame.aura f) callbacks);
        done.
Qed.

Lemma observable_reachable s log : observable (Config.mk s [] log) → reachable s.
Proof. intros H. exact (observable_explained _ H). Qed.

Lemma observable_step c c' : observable c → step c c' → observable c'.
Proof.
  intros (deployer & uri & Hsteps) Hstep. exists deployer, uri. by eapply rtc_r.
Qed.

Lemma reachable_observable s : reachable s → ∃ log, observable (Config.mk s [] log).
Proof.
  induction 1 as [deployer uri | s c s' ev r _ [log IH] Hexec].
  - exists []. exists deployer, uri. apply rtc_refl.
  - exists (log ++ ev). eapply observable_step; [exact IH|]. by eapply step_call.
Qed.

(** A run of calls, as steps. *)
Lemma run_steps calls s frames log :
  rtc step (Config.mk s frames log)
    (Config.mk (run calls s).1 frames (log ++ (run calls s).2)).
Proof.
  revert s log. induction calls as [|c calls IH]; intros s log.
  - simpl. rewrite app_nil_r. apply rtc_refl.
  - unfold run in *. simpl. destruct (exec c s) as [[[s1 ev1] r1]|e] eqn:Hexec; [|apply IH].
    eapply rtc_l; [by eapply step_call|].
    specialize (IH s1 (log ++ ev1)). destruct (run_with exec calls s1) as [s2 ev2].
    simpl in *. by rewrite app_assoc.
Qed.

(** A successful [mint], as steps: it enters [onERC721Received], the
    callbacks run, and it returns. *)
Lemma exec_Mint_steps sender T L callbacks accepted s s' ev r frames log :
  exec (Mint sender T L callbacks accepted) s = Ok (s', ev, r) →
  ∃ mid,
    step (Config.mk s frames log) mid ∧
    Config.state mid = mint_mid sender s ∧
    Config.frames mid = Frame.mk sender (_nextTokenId s) T L :: frames ∧
    ∃ inner,
      rtc step mid inner ∧
      Config.frames inner = Config.frames mid ∧
      step inner (Config.mk s' frames (log ++ ev)).
Proof.
  intros H. apply exec_Mint_Ok in H as (Hfree & Hvalid & Hmax & Hsender & Hfresh & _ & -> & -> & _).
  eexists. split; [by apply step_enter|]. split; [done|]. split; [done|].
  eexists. split; [apply run_steps|]. split; [done|].
  replace (log ++ Transfer 0 sender (_nextTokenId s)
             :: (run callbacks (mint_mid sender s)).2
                ++ [AuraMinted sender T (_nextTokenId s) L])
    with (((log ++ [Transfer 0 sender (_nextTokenId s)])
             ++ (run callbacks (mint_mid sender s)).2)
            ++ [AuraMinted sender T (_nextTokenId s) L])
    by (by rewrite <- !app_assoc).
  exact (step_return _ (Frame.mk sender (_nextTokenId s) T L) frames _).
Qed.

Lemma observable_inside_first_mint : observable inside_first_mint.
Proof.
  exists 9, "https://x/". apply rtc_once.
  exact (step_enter (constructor 9 "https://x/") [] [] 100 7 "fire"
           eq_refl eq_refl ltac:(discriminate) ltac:(discriminate) eq_refl).
Qed.

(** ** The fields follow the log *)

Lemma follows_return T L id sender s t :
  auraOf (mint_finish T L id s) t = label_step t (auraOf s t) (AuraMinted sender T id L) ∧
  targetOf (mint_finish T L id s) t = target_step t (targetOf s t) (AuraMinted sender T id L).
Proof.
  unfold auraOf, targetOf, mint_finish. simpl. rewrite !lookup_insert.
  destruct (N.eqb_spec id t); case_decide; done.
Qed.

Lemma follows_exec c s s' ev r : exec c s = Ok (s', ev, r) → follows s ev s'.
Proof.
  revert c s s' ev r. apply (exec_rel follows).
  - done.
  - intros s e1 s1 e2 s2 H1 H2 t. rewrite !fold_left_app.
    destruct (H1 t) as [<- <-]. apply H2.
  - intros sender T L s s2 ev2 _ _ _ _ _ IH t. cbn [fold_left label_step target_step].
    rewrite !fold_left_app. cbn [fold_left].
    destruct (IH t) as [Ha Ht].
    change (auraOf (mint_mid sender s) t) with (auraOf s t) in Ha.
    change (targetOf (mint_mid sender s) t) with (targetOf s t) in Ht.
    rewrite <- Ha, <- Ht. apply follows_return.
  - intros t L s _ _ t'. simpl. rewrite auraOf_insert.
    split; [|done]. destruct (N.eqb_spec t t'); case_decide; done.
  - done.
  - done.
Qed.

(** ** What a step keeps of a minted address *)


(** ** Errors of [mint] *)

(** X1: a label that is not one of the four strings fire, water, tide and
    rock, compared exactly (Fire and the empty string are refused), makes
    [mint] fail with Invalid aura type and change nothing, whoever the sender
    is and whatever it would do in [onERC721Received]; when the target is
    minted as well, the duplicate check comes first and its error is the
    one reported. *)
Theorem mint_invalid_label_rejected (s : State) (sender T : address) (L : string)
    (callbacks : list call) (accepted : bool) :
  L ≠ "fire" → L ≠ "water" → L ≠ "tide" → L ≠ "rock" →
  transact (Mint sender T L callbacks accepted) s
  = (s, [], Failed (if hasMinted s T then DuplicateTarget else InvalidTier)).
Proof.
  intros Hf Hw Ht Hr.
  assert (Hinvalid : _isValidAura L = false).
  { destruct (_isValidAura L) eqn:H; [|done]. apply isValidAura_iff in H. tauto. }
  unfold transact. cbn [exec]. unfold mint, hasMinted.
  destruct (minted s T); [done|]. by rewrite Hinvalid.
Qed.

Lemma mint_invalid_label_rejected_witness :
  transact (Mint 5 1 "Fire" [] true) (constructor 9 "https://x/")
  = (constructor 9 "https://x/", [], Failed InvalidTier) ∧
  transact (Mint 5 1 EmptyString [] true) (first_mint 9 5 1 "fire" "https://x/")
  = (first_mint 9 5 1 "fire" "https://x/", [], Failed DuplicateTarget).
Proof.
  split.
  - apply (mint_invalid_label_rejected (constructor 9 "https://x/") 5 1 "Fire" [] true);
      discriminate.
  - apply (mint_invalid_label_rejected (first_mint 9 5 1 "fire" "https://x/") 5 1
             EmptyString [] true); discriminate.
Defined.

(** ** The lookups by target *)

(** X2: [hasMinted] and the tokens. In every configuration, between
    transactions and inside a sender's [onERC721Received] alike, [hasMinted]
    is true of an address exactly when some token whose mint has completed
    has it as its target address. A token whose mint is in progress exists
    already (it is below the counter), but its target address still reads as
    the zero address, whatever address it is minted for. So between
    transactions, when no mint is in progress, [hasMinted] is true of an
    address exactly when some existing token has it as its target address. *)
Theorem hasMinted_iff_some_token (c : Config.t) (X : address) :
  observable c →
  (hasMinted (Config.state c) X = true
   ↔ ∃ t, t < _nextTokenId (Config.state c) ∧ (t ∉ in_progress c) ∧
          getTargetAddress (Config.state c) t = Ok X) ∧
  (∀ t, t ∈ in_progress c →
     t < _nextTokenId (Config.state c) ∧ getTargetAddress (Config.state c) t = Ok 0) ∧
  (Config.frames c = [] →
     (hasMinted (Config.state c) X = true
      ↔ ∃ t, t < _nextTokenId (Config.state c) ∧
             getTargetAddress (Config.state c) t = Ok X)).
Proof.
  intros Hobs.
  destruct (observable_inv c Hobs) as ((_ & Hp & Htarget & _ & _ & Hdone & Hflag) & _ & _).
  set (s := Config.state c) in *.
  assert (Hget : ∀ t, t < _nextTokenId s → getTargetAddress s t = Ok (targetOf s t)).
  { intros t Ht. unfold getTargetAddress. apply N.ltb_lt in Ht. by rewrite Ht. }
  assert (Hiff : hasMinted s X = true
                 ↔ ∃ t, t < _nextTokenId s ∧ (t ∉ in_progress c) ∧
                        getTargetAddress s t = Ok X).
  { split.
    - intros HX. destruct (Hflag X HX) as (t & _ & Hlt & Hnp & Ht).
      exists t. split_and!; try done. rewrite Hget by done. unfold targetOf. by rewrite Ht.
    - intros (t & Hlt & Hnp & Ht). rewrite Hget in Ht by done. injection Ht as <-.
      destruct (Hdone t Hlt Hnp) as (X & L & HX & HXm & _). unfold targetOf. by rewrite HX. }
  split_and!.
  - exact Hiff.
  - intros t Ht. split; [by apply Hp|]. rewrite Hget by (by apply Hp).
    unfold targetOf. rewrite Htarget; [done | by right].
  - intros Hnil. rewrite Hiff. unfold in_progress. rewrite Hnil. simpl.
    split; intros (t & Hlt & H); exists t.
    + by destruct H.
    + split_and!; try done. apply not_elem_of_nil.
Qed.

Lemma hasMinted_iff_some_token_witness :
  0 < _nextTokenId (Config.state inside_first_mint) ∧
  getTargetAddress (Config.state inside_first_mint) 0 = Ok 0 ∧
  hasMinted (Config.state inside_first_mint) 0 = false.
Proof.
  destruct (hasMinted_iff_some_token inside_first_mint 0 observable_inside_first_mint)
    as (_ & Hpending & _).
  destruct (Hpending 0) as [Hlt Htarget]; [by left|].
  split; [exact Hlt|]. split; [exact Htarget | reflexivity].
Defined.


(** X3: [getTokenByTargetAddress] fails, with Address has no Aura NFT,
    exactly for the addresses [hasMinted] is false of. In every reachable
    state, also after mints that call back into the contract, the token it
    returns exists, has an owner, and has the queried address as its target:
    looking up the target of the returned token gives the address back. *)
Theorem getTokenByTargetAddress_points_back (s : State) (X : address) :
  reachable s →
  (getTokenByTargetAddress s X = Revert NotMinted ↔ hasMinted s X = false) ∧
  ∀ t, getTokenByTargetAddress s X = Ok t →
    t < _nextTokenId s ∧
    getTargetAddress s t = Ok X ∧
    ∃ owner, ownerOf s t = Ok owner.
Proof.
  intros Hreach. unfold getTokenByTargetAddress, hasMinted. split.
  - destruct (minted s X); split; done.
  - intros t Ht. destruct (minted s X) eqn:HX; [|done].
    injection Ht as Ht.
    destruct (registry_wf_reachable s Hreach) as (_ & Hflag & Hentry & _).
    destruct (Hflag X HX) as [t' Ht']. unfold tokenIdOf in Ht. rewrite Ht' in Ht.
    simpl in Ht. subst t'. destruct (Hentry X t Ht') as (Hlt & _ & Htarget & _).
    split; [done|]. split.
    + unfold getTargetAddress, targetOf. apply N.ltb_lt in Hlt. by rewrite Hlt, Htarget.
    + apply (tokens_owned_reachable s Hreach) in Hlt. unfold ownerOf.
      apply N.eqb_neq in Hlt. rewrite Hlt. eauto.
Qed.

Lemma getTokenByTargetAddress_points_back_witness :
  reachable after_reentrant_mint ∧
  getTokenByTargetAddress after_reentrant_mint 7 = Ok 0 ∧
  getTargetAddress after_reentrant_mint 0 = Ok 7 ∧
  getTokenByTargetAddress after_reentrant_mint 8 = Revert NotMinted.
Proof.
  pose proof reachable_after_reentrant_mint as Hreach.
  destruct (getTokenByTargetAddress_points_back after_reentrant_mint 7 Hreach) as [_ Hback].
  destruct (Hback 0 eq_refl) as (_ & Htarget & _).
  destruct (getTokenByTargetAddress_points_back after_reentrant_mint 8 Hreach) as [Hfail _].
  split; [exact Hreach|]. split; [reflexivity|]. split; [exact Htarget|].
  apply Hfail. reflexivity.
Defined.




(** X8: as long as no sender of a mint calls back into the contract, there
    is one token per target address: in every state reached by such calls,
    two existing tokens with the same target address are the same token,
    looking up the target of a token gives the token back, and looking up the
    token of a minted address gives a token whose target is that address. *)
Theorem one_token_per_target_without_callbacks (s : State) :
  reachable_quiet s →
  (∀ t1 t2, t1 < _nextTokenId s → t2 < _nextTokenId s →
     getTargetAddress s t1 = getTargetAddress s t2 → t1 = t2) ∧
  (∀ t, t < _nextTokenId s → getTokenByTargetAddress s (targetOf s t) = Ok t) ∧
  (∀ X t, getTokenByTargetAddress s X = Ok t → getTargetAddress s t = Ok X).
Proof.
  intros Hreach. destruct (registry_consistent_quiet s Hreach) as [Hfwd Hbwd].
  unfold hasMinted in *.
  assert (Hget : ∀ t, t < _nextTokenId s → getTargetAddress s t = Ok (targetOf s t)).
  { intros t Ht. unfold getTargetAddress. apply N.ltb_lt in Ht. by rewrite Ht. }
  split_and!.
  - intros t1 t2 H1 H2. rewrite !Hget by done. intros [= Heq].
    destruct (Hfwd t1 H1) as [_ <-]. destruct (Hfwd t2 H2) as [_ <-]. by rewrite Heq.
  - intros t Ht. destruct (Hfwd t Ht) as [Hflag Hid].
    unfold getTokenByTargetAddress. by rewrite Hflag, Hid.
  - intros X t. unfold getTokenByTargetAddress.
    destruct (minted s X) eqn:HX; [|done]. intros [= <-].
    destruct (Hbwd X HX) as [Hlt Htarget]. by rewrite Hget, Htarget.
Qed.

Lemma one_token_per_target_without_callbacks_witness :
  reachable_quiet (first_mint 9 5 1 "fire" "https://x/") ∧
  getTokenByTargetAddress (first_mint 9 5 1 "fire" "https://x/")
    (targetOf (first_mint 9 5 1 "fire" "https://x/") 0)
  = Ok 0.
Proof.
  assert (Hreach : reachable_quiet (first_mint 9 5 1 "fire" "https://x/")).
  { eapply reachable_quiet_call; [apply (reachable_quiet_constructor 9 "https://x/") | |].
    - instantiate (1 := Mint 5 1 "fire" [] true). reflexivity.
    - instantiate (1 := Void). instantiate (1 := [Transfer 0 5 0; AuraMinted 5 1 0 "fire"]).
      reflexivity. }
  split; [exact Hreach|].
  destruct (one_token_per_target_without_callbacks _ Hreach) as (_ & H & _).
  exact (H 0 eq_refl).
Defined.

(** ** Labels and token ids *)

(** X4: in every configuration, every token whose mint has completed has
    one of the four valid labels, so its metadata never shows the
    placeholders: the name and the tier are not Unknown and the description
    is not the generic one. A token whose mint is in progress, as the sender's
    [onERC721Received] finds it, has the empty label (for which the renderer
    falls back to the placeholders), unless an update has given it a valid
    one already. *)
Theorem existing_token_label_valid (c : Config.t) (t : N) :
  observable c → t < _nextTokenId (Config.state c) →
  ∃ L, getAura (Config.state c) t = Ok L ∧
    (t ∉ in_progress c →
       _isValidAura L = true ∧ _getAuraName L ≠ "Unknown" ∧
       _getAuraTier L ≠ "Unknown" ∧ _getAuraDescription L ≠ "Base Aura NFT") ∧
    (t ∈ in_progress c → L = EmptyString ∨ _isValidAura L = true).
Proof.
  intros Hobs Hlt.
  destruct (observable_inv c Hobs) as ((_ & _ & _ & _ & Hplabel & Hdone & _) & _ & _).
  exists (auraOf (Config.state c) t). split.
  { unfold getAura. apply N.ltb_lt in Hlt. by rewrite Hlt. }
  unfold auraOf. split.
  - intros Hnp. destruct (Hdone t Hlt Hnp) as (_ & L & _ & _ & -> & Hvalid). simpl.
    split; [done|]. apply isValidAura_iff in Hvalid as [-> | [-> | [-> | ->]]]; done.
  - intros Hin. destruct (Hplabel t Hin) as [-> | (L & -> & Hvalid)]; [by left | by right].
Qed.

Lemma existing_token_label_valid_witness :
  (∃ L, getAura (Config.state inside_first_mint) 0 = Ok L ∧
        (L = EmptyString ∨ _isValidAura L = true)) ∧
  ∃ L, getAura after_reentrant_mint 1 = Ok L ∧ _isValidAura L = true.
Proof.
  split.
  - destruct (existing_token_label_valid inside_first_mint 0 observable_inside_first_mint
                eq_refl) as (L & HL & _ & Hpending).
    exists L. split; [exact HL|]. apply Hpending. by left.
  - destruct (reachable_observable _ reachable_after_reentrant_mint) as [log Hobs].
    destruct (existing_token_label_valid _ 1 Hobs eq_refl) as (L & HL & Hdone & _).
    exists L. split; [exact HL|]. apply Hdone. apply not_elem_of_nil.
Defined.

(** X24: the label and the target address of a token can be read off the
    log. In every configuration, inside [onERC721Received] as well, [getAura]
    of an existing token returns the label of the last AuraMinted or
    AuraUpdated event logged for the token (the empty label when there is
    none yet), and [getTargetAddress] returns the target address of the last
    AuraMinted event for the token (the zero address when there is none
    yet). *)
Theorem fields_follow_log (c : Config.t) (t : N) :
  observable c →
  auraOf (Config.state c) t = label_in_log t (Config.log c) ∧
  targetOf (Config.state c) t = target_in_log t (Config.log c) ∧
  (t < _nextTokenId (Config.state c) →
     getAura (Config.state c) t = Ok (label_in_log t (Config.log c)) ∧
     getTargetAddress (Config.state c) t = Ok (target_in_log t (Config.log c))).
Proof.
  intros (deployer & uri & Hsteps).
  assert (H : auraOf (Config.state c) t = label_in_log t (Config.log c) ∧
              targetOf (Config.state c) t = target_in_log t (Config.log c)).
  { revert c Hsteps. apply rtc_ind_r; [done|].
    intros c1 c2 _ Hstep [Ha Ht]. unfold label_in_log, target_in_log in *.
    destruct Hstep as
      [s frames log c s' ev r Hexec | s frames log sender T L _ _ _ _ _ | s f frames log];
      simpl in *; rewrite !fold_left_app, <- ?Ha, <- ?Ht.
    - apply (follows_exec _ _ _ _ _ Hexec).
    - done.
    - apply follows_return. }
  destruct H as [Ha Ht]. split; [done|]. split; [done|].
  intros Hlt. unfold getAura, getTargetAddress. apply N.ltb_lt in Hlt.
  by rewrite Hlt, Ha, Ht.
Qed.

Lemma fields_follow_log_witness :
  getAura after_mint_with_update 0 = Ok "fire" ∧
  getTargetAddress after_mint_with_update 0 = Ok 7.
Proof.
  assert (Hobs : observable
            (Config.mk after_mint_with_update []
               ([] ++ [Transfer 0 100 0; AuraUpdated 0 EmptyString "rock";
                       AuraMinted 100 7 0 "fire"]))).
  { exists 9, "https://x/". apply rtc_once.
    exact (step_call (constructor 9 "https://x/") [] [] mint_with_update
             after_mint_with_update _ Void eq_refl). }
  destruct (fields_follow_log _ 0 Hobs) as (_ & _ & H).
  exact (H eq_refl).
Defined.


(** X5: token ids are handed out once and in order. Over any run of calls,
    from any state and whatever the callbacks and reverts in it, the counter
    does not go down and the [AuraMinted] events logged carry exactly the ids
    from the counter before the run up to the counter after it, each of them
    exactly once; on a new contract these are the ids from 0. *)
Theorem minted_ids_fresh (s : State) (calls : list call) (t : N) :
  _nextTokenId s ≤ _nextTokenId (run calls s).1 ∧
  count_minted t (run calls s).2
  = (if decide (_nextTokenId s ≤ t ∧ t < _nextTokenId (run calls s).1)
     then 1%nat else 0%nat) ∧
  ∀ deployer uri,
    count_minted t (run calls (constructor deployer uri)).2
    = if decide (t < _nextTokenId (run calls (constructor deployer uri)).1)
      then 1%nat else 0%nat.
Proof.
  assert (H : ∀ s, mints_fresh s (run calls s).2 (run calls s).1).
  { intros s0. apply run_from_exec.
    - apply mints_fresh_refl.
    - apply mints_fresh_trans.
    - apply mints_fresh_exec. }
  destruct (H s) as [Hle Hcount]. split; [done|]. split; [apply Hcount|].
  intros deployer uri. destruct (H (constructor deployer uri)) as [_ Hc].
  rewrite Hc. simpl. repeat case_decide; try done; lia.
Qed.

(** ** Successive updates *)

(** X7: two updates of a token by its owner compose to the second one. After
    [updateAura] with a valid label and then with another valid label, the
    state is the one a single update with the second label gives, and the
    second event reports the first label as the old one. *)
Theorem updateAura_twice (s : State) (sender : address) (t : N) (L1 L2 : string) :
  ownerOf s t = Ok sender → _isValidAura L1 = true → _isValidAura L2 = true →
  run [UpdateAura sender t L1; UpdateAura sender t L2] s
  = (set_tokenAuras <[t := L2]> s,
     [AuraUpdated t (auraOf s t) L1; AuraUpdated t L1 L2]) ∧
  (transact (UpdateAura sender t L2) s).1.1 = set_tokenAuras <[t := L2]> s.
Proof.
  intros Hown H1 H2.
  assert (Hexec : ∀ s0 L, ownerOf s0 t = Ok sender → _isValidAura L = true →
            exec (UpdateAura sender t L) s0
            = Ok (set_tokenAuras <[t := L]> s0, [AuraUpdated t (auraOf s0 t) L], Void)).
  { intros s0 L Ho Hv. cbn [exec]. unfold updateAura.
    by rewrite Ho, bind_Ok_l, N.eqb_refl, Hv. }
  split.
  - unfold run. cbn [run_with]. rewrite (Hexec s L1 Hown H1).
    rewrite (Hexec (set_tokenAuras <[t := L1]> s) L2 Hown H2).
    rewrite auraOf_insert, decide_True by done.
    unfold set_tokenAuras. simpl. by rewrite insert_insert_eq.
  - unfold transact. by rewrite (Hexec s L2 Hown H2).
Qed.

Lemma updateAura_twice_witness :
  run [UpdateAura 5 0 "rock"; UpdateAura 5 0 "tide"] (first_mint 9 5 1 "fire" "https://x/")
  = (set_tokenAuras <[0 := "tide"]> (first_mint 9 5 1 "fire" "https://x/"),
     [AuraUpdated 0 "fire" "rock"; AuraUpdated 0 "rock" "tide"]).
Proof.
  exact (proj1 (updateAura_twice (first_mint 9 5 1 "fire" "https://x/") 5 0 "rock" "tide"
                  eq_refl eq_refl eq_refl)).
Defined.

(** * Properties of the client *)

(** ** The classifier and the configuration table *)

(** The rows of the table: the threshold and the tier of every entry. *)
Lemma AURA_CONFIG_rows (other : string) (info' : AuraInfo.t) :
  AURA_CONFIG other = Some info' →
  (AuraInfo.minTx info' = 500 ∧ AuraInfo.tier info' = 4)%Z ∨
  (AuraInfo.minTx info' = 100 ∧ AuraInfo.tier info' = 3)%Z ∨
  (AuraInfo.minTx info' = 10 ∧ AuraInfo.tier info' = 2)%Z ∨
  (AuraInfo.minTx info' = 1 ∧ AuraInfo.tier info' = 1)%Z.
Proof.
  unfold AURA_CONFIG. repeat case_match; intros [= <-]; simpl; tauto.
Qed.

(** Every label of the classifier has an entry in the table. *)
Lemma getAuraType_has_entry (txCount : Z) (label : string) :
  getAuraType txCount = Some label → is_Some (AURA_CONFIG label).
Proof.
  unfold getAuraType. repeat case_match; intros [= <-]; by eexists.
Qed.

(** X9: the classifier agrees with the [minTx] column of [AURA_CONFIG]. The
    label it returns has an entry in the table and an image, the count has
    reached the entry's [minTx], and no entry whose [minTx] the count has
    reached has a higher tier; it returns no label exactly when the count is
    below every [minTx]. *)
Theorem getAuraType_best_tier (txCount : Z) :
  match getAuraType txCount with
  | Some label =>
      ∃ info, AURA_CONFIG label = Some info ∧
        (AuraInfo.minTx info ≤ txCount)%Z ∧
        is_Some (AURA_IMAGES label) ∧
        ∀ other info', AURA_CONFIG other = Some info' →
          (AuraInfo.minTx info' ≤ txCount)%Z →
          (AuraInfo.tier info' ≤ AuraInfo.tier info)%Z
  | None =>
      ∀ other info', AURA_CONFIG other = Some info' →
        (txCount < AuraInfo.minTx info')%Z
  end.
Proof.
  unfold getAuraType.
  destruct (Z.leb_spec 500 txCount); [|destruct (Z.leb_spec 100 txCount);
    [|destruct (Z.leb_spec 10 txCount); [|destruct (Z.leb_spec 1 txCount)]]].
  1-4: eexists; split; [reflexivity|]; simpl; split; [lia|]; split; [eauto|];
       intros other info' Ho Hmin; destruct (AURA_CONFIG_rows other info' Ho); lia.
  intros other info' Ho. destruct (AURA_CONFIG_rows other info' Ho); lia.
Qed.

(** X10: a larger transaction count never gives a lower tier: the rank of
    the classifier's answer (the [tier] of its label, 0 for none) is monotone
    in the count. *)
Theorem getAuraType_monotone (n m : Z) :
  (n ≤ m)%Z → (tierRank (getAuraType n) ≤ tierRank (getAuraType m))%Z.
Proof.
  intros Hle. unfold getAuraType.
  destruct (Z.leb_spec 500 n), (Z.leb_spec 100 n), (Z.leb_spec 10 n), (Z.leb_spec 1 n),
    (Z.leb_spec 500 m), (Z.leb_spec 100 m), (Z.leb_spec 10 m), (Z.leb_spec 1 m);
    try lia; done.
Qed.

Lemma getAuraType_monotone_witness :
  (99 ≤ 100)%Z ∧ (tierRank (getAuraType 99) ≤ tierRank (getAuraType 100))%Z.
Proof.
  split; [lia|]. apply getAuraType_monotone. lia.
Defined.

(** X11: the client's table and the contract agree on the labels. For each
    of the four labels [_isValidAura] accepts, [AURA_CONFIG] has an entry;
    the entry's name is the name [_getAuraName] puts in the metadata; the
    contract's description begins with the entry's tagline, a dash and the
    entry's [minTx] in decimal; and [AURA_IMAGES] has an image for the
    label. *)
Theorem AURA_CONFIG_matches_contract (label : string) :
  _isValidAura label = true →
  ∃ info, AURA_CONFIG label = Some info ∧
    AuraInfo.name info = _getAuraName label ∧
    String.prefix
      (AuraInfo.tagline info +:+ " - " +:+ toString (Z.to_N (AuraInfo.minTx info)))
      (_getAuraDescription label) = true ∧
    is_Some (AURA_IMAGES label).
Proof.
  intros Hvalid. apply isValidAura_iff in Hvalid as [-> | [-> | [-> | ->]]];
    eexists; (split; [reflexivity|]); simpl; split_and!; try reflexivity; eauto.
Qed.

Lemma AURA_CONFIG_matches_contract_witness :
  ∃ info, AURA_CONFIG "water" = Some info ∧
    AuraInfo.name info = "Wave Rider" ∧ AuraInfo.minTx info = 100%Z.
Proof.
  destruct (AURA_CONFIG_matches_contract "water" eq_refl) as (info & Hinfo & Hname & _).
  exists info. split; [exact Hinfo|]. split; [exact Hname|].
  injection Hinfo as <-. reflexivity.
Defined.

(** ** The address check *)

Lemma list_ascii_of_string_append (a b : string) :
  list_ascii_of_string (a +:+ b) = list_ascii_of_string a ++ list_ascii_of_string b.
Proof.
  induction a as [|x a IH]; [done|]. rewrite append_cons. simpl. by f_equal.
Qed.

Lemma hex_digit_isHexDigit d : isHexDigit (hex_digit d) = true.
Proof.
  destruct (N.lt_ge_cases d 16) as [Hd | Hd].
  - destruct d as [|p]; [reflexivity|].
    do 4 (destruct p as [p|p|]; try reflexivity); lia.
  - unfold hex_digit.
    assert (Hnone : ∀ n, (16 ≤ n)%nat → String.get n HEX_DIGITS = None).
    { intros n Hn. do 16 (destruct n as [|n]; [lia|]). reflexivity. }
    rewrite Hnone by lia. reflexivity.
Qed.

Lemma hex_digits_isHexDigit n v :
  forallb isHexDigit (list_ascii_of_string (hex_digits n v)) = true.
Proof.
  revert v. induction n as [|n IH]; intros v; [done|].
  cbn [hex_digits]. rewrite list_ascii_of_string_append, forallb_app, IH.
  simpl. by rewrite hex_digit_isHexDigit.
Qed.

(** X12: the format check of the client (and of the transaction-count
    endpoint) accepts only strings of 42 characters that begin with 0x, it
    refuses the empty string, and it accepts every address as the contract
    renders it in the Target Address attribute of [tokenURI]. *)
Theorem address_format_accepts_rendered :
  (∀ a, address_format_test (addressHex a) = true) ∧
  (∀ s, address_format_test s = true →
     String.length s = 42%nat ∧ ∃ digits, s = "0x" +:+ digits) ∧
  address_format_test EmptyString = false.
Proof.
  split_and!; [| |done].
  - intros a. unfold addressHex. rewrite !append_cons, append_nil.
    cbn [address_format_test]. rewrite length_hex_digits, hex_digits_isHexDigit. done.
  - intros s. unfold address_format_test.
    destruct s as [|c0 [|c1 rest]]; try done.
    + by repeat case_match.
    + repeat case_match; try done; subst.
      intros [Hlen _]%andb_true_iff. apply Nat.eqb_eq in Hlen.
      simpl. rewrite Hlen. split; [done|]. by exists rest.
Qed.

(** ** [handleScan] *)

(** X13: [handleScan] on an input that fails the format check (the empty
    input included) asks the network nothing and only sets the error
    message: Please enter a Base address for the empty input, Invalid
    Ethereum address format otherwise. The scan result on display, if there
    is one, stays as it was. *)
Theorem handleScan_rejects_malformed (fetchTxCount : string → Z) (st : AppState) :
  address_format_test (targetAddress st) = false →
  (handleScan fetchTxCount st).2 = [] ∧
  scanResult (handleScan fetchTxCount st).1 = scanResult st ∧
  existingNft (handleScan fetchTxCount st).1 = existingNft st ∧
  targetAddress (handleScan fetchTxCount st).1 = targetAddress st ∧
  error (handleScan fetchTxCount st).1
  = (if falsy (targetAddress st) then "Please enter a Base address"
     else "Invalid Ethereum address format").
Proof.
  intros Hbad. unfold handleScan. rewrite Hbad.
  destruct (falsy (targetAddress st)); done.
Qed.

Lemma handleScan_rejects_malformed_witness :
  (handleScan (fun _ => 700%Z)
     (mkAppState None "0x12" None false EmptyString None)).2 = [] ∧
  error (handleScan (fun _ => 700%Z)
           (mkAppState None "0x12" None false EmptyString None)).1
  = "Invalid Ethereum address format".
Proof.
  destruct (handleScan_rejects_malformed (fun _ => 700%Z)
              (mkAppState None "0x12" None false EmptyString None) eq_refl)
    as (Hasked & _ & _ & _ & Herror).
  split; [exact Hasked | exact Herror].
Defined.

(** X14: [handleScan] on a well-formed address asks the network for that
    address once. With a count below 1 it shows no result and the error No
    transactions found for this address on Base Sepolia; with a count of 1 or
    more it clears the error and shows a result for the address scanned, with
    the count, the label of the classifier and the name, tagline, tier and
    image of that label from the tables. The lookup in [AURA_CONFIG] never
    fails, so the error of the [catch] block is never shown. In both cases
    loading is over and no existing NFT is recorded. *)
Theorem handleScan_scans_wellformed (fetchTxCount : string → Z) (st : AppState) :
  address_format_test (targetAddress st) = true →
  (handleScan fetchTxCount st).2 = [targetAddress st] ∧
  isLoading (handleScan fetchTxCount st).1 = false ∧
  existingNft (handleScan fetchTxCount st).1 = None ∧
  error (handleScan fetchTxCount st).1 ≠ "Failed to scan address. Please try again." ∧
  ((fetchTxCount (targetAddress st) < 1)%Z →
     scanResult (handleScan fetchTxCount st).1 = None ∧
     error (handleScan fetchTxCount st).1
     = "No transactions found for this address on Base Sepolia") ∧
  ((1 ≤ fetchTxCount (targetAddress st))%Z →
     error (handleScan fetchTxCount st).1 = EmptyString ∧
     ∃ label info,
       getAuraType (fetchTxCount (targetAddress st)) = Some label ∧
       AURA_CONFIG label = Some info ∧
       scanResult (handleScan fetchTxCount st).1
       = Some (ScanResult.mk (targetAddress st) (fetchTxCount (targetAddress st)) label
                 (AuraInfo.name info) (AuraInfo.tagline info) (AURA_IMAGES label)
                 (AuraInfo.tier info))).
Proof.
  intros Hok. unfold handleScan.
  assert (Hne : falsy (targetAddress st) = false).
  { destruct (targetAddress st); [discriminate | done]. }
  rewrite Hne, Hok. cbn [negb]. cbv zeta.
  destruct (getAuraType (fetchTxCount (targetAddress st))) as [label|] eqn:Hlabel.
  - destruct (getAuraType_has_entry _ _ Hlabel) as [info Hinfo]. rewrite Hinfo. simpl.
    assert (Hpos : (1 ≤ fetchTxCount (targetAddress st))%Z).
    { unfold getAuraType in Hlabel. repeat case_match; try done; lia. }
    split_and!; try done; [lia|]. intros _. split; [done|]. by exists label, info.
  - simpl. split_and!; try done.
    intros Hpos. unfold getAuraType in Hlabel. repeat case_match; try done; lia.
Qed.

Lemma handleScan_scans_wellformed_witness :
  address_format_test "0x00000000000000000000000000000000000000Ab" = true ∧
  (handleScan (fun _ => 120%Z)
     (mkAppState None "0x00000000000000000000000000000000000000Ab" None false
        EmptyString None)).2
  = ["0x00000000000000000000000000000000000000Ab"] ∧
  error (handleScan (fun _ => 120%Z)
           (mkAppState None "0x00000000000000000000000000000000000000Ab" None false
              EmptyString None)).1
  ≠ "Failed to scan address. Please try again.".
Proof.
  split; [reflexivity|].
  destruct (handleScan_scans_wellformed (fun _ => 120%Z)
              (mkAppState None "0x00000000000000000000000000000000000000Ab" None false
                 EmptyString None) eq_refl)
    as (Hasked & _ & _ & Herror & _).
  split; [exact Hasked | exact Herror].
Defined.

(** ** What the client submits *)

Lemma exec_Mint_never_InvalidTier s sender T L callbacks accepted :
  _isValidAura L = true →
  (transact (Mint sender T L callbacks accepted) s).2 ≠ Failed InvalidTier.
Proof.
  intros Hvalid. unfold transact.
  destruct (exec (Mint sender T L callbacks accepted) s) as [[[s' ev] r]|e] eqn:Hexec;
    [done|].
  simpl. intros [= ->]. cbn [exec] in Hexec. unfold mint in Hexec.
  rewrite Hvalid in Hexec. destruct (minted s T); [discriminate|].
  cbn [negb] in Hexec. rewrite !require_true, !bind_Ok_l in Hexec.
  destruct (_nextTokenId s =? uint256_max); [discriminate|].
  cbv zeta in Hexec. unfold _safeMint, _mint in Hexec.
  destruct (sender =? 0); [discriminate|].
  destruct (negb _); [discriminate|]. rewrite bind_Ok_l in Hexec.
  destruct accepted; [|discriminate].
  destruct (run_with exec callbacks _). discriminate.
Qed.

Lemma scan_consistent_autofill st : scan_consistent st → scan_consistent (autofill st).
Proof.
  unfold autofill. destruct (wallet st); [|done]. by case_match.
Qed.

Lemma scan_consistent_act a st : scan_consistent st → scan_consistent (act a st).
Proof.
  intros [Hnft Hres]. apply scan_consistent_autofill. destruct a as [w | v | fetch]; try done.
  unfold handleScan.
  destruct (falsy (targetAddress st)); [done|].
  destruct (address_format_test (targetAddress st)) eqn:Hok; [|done].
  cbn [negb]. cbv zeta.
  destruct (getAuraType (fetch (targetAddress st))) as [label|] eqn:Hlabel; [|done].
  destruct (AURA_CONFIG label); [|done].
  split; [done|]. intros r [= <-]. done.
Qed.

Lemma scan_consistent_acts l st : scan_consistent st → scan_consistent (acts l st).
Proof.
  revert st. induction l as [|a l IH]; intros st Hst; [done|].
  apply IH. by apply scan_consistent_act.
Qed.

(** X15: whatever the wallet and the user do (connecting, disconnecting,
    editing the input, scanning with any answers of the network), the
    component never has an existing NFT on record, so [canUpgrade] is false
    and [handleUpgrade] submits nothing; and every [mint] that [handleMint]
    submits carries an address that passed the format check and a label the
    classifier produced, which the contract accepts: the contract never
    answers it with Invalid aura type. *)
Theorem client_requests_wellformed (l : list action) :
  existingNft (acts l initialState) = None ∧
  canUpgrade (acts l initialState) = false ∧
  handleUpgrade (acts l initialState) = None ∧
  ∀ addr label, handleMint (acts l initialState) = Some (addr, label) →
    address_format_test addr = true ∧
    _isValidAura label = true ∧
    (∃ txCount, (1 ≤ txCount)%Z ∧ getAuraType txCount = Some label) ∧
    ∀ s sender T callbacks accepted,
      (transact (Mint sender T label callbacks accepted) s).2 ≠ Failed InvalidTier.
Proof.
  assert (Hinit : scan_consistent initialState) by (split; done).
  destruct (scan_consistent_acts l initialState Hinit) as [Hnft Hres].
  unfold canUpgrade, handleUpgrade, handleMint. rewrite Hnft.
  split; [done|]. split; [done|]. split; [by destruct (scanResult _)|].
  intros addr label. destruct (scanResult (acts l initialState)) as [r|]; [|done].
  destruct (isConnected _); [|done]. intros [= <- <-].
  destruct (Hres r eq_refl) as [Hok Hlabel].
  assert (Hvalid := getAuraType_valid _ _ Hlabel).
  split_and!; try done.
  - exists (ScanResult.txCount r). split; [|done].
    unfold getAuraType in Hlabel. repeat case_match; try done; lia.
  - intros s sender T callbacks accepted. by apply exec_Mint_never_InvalidTier.
Qed.

(** X16: [canUpgrade] compares the tiers of the two labels strictly. When the
    label on record is the classifier's label for a count [n] and the scanned
    one its label for a count [m], an upgrade is offered exactly when the
    labels differ and [m] is the larger count; when the label on record is
    not in [AURA_CONFIG], no upgrade is offered. *)
Theorem canUpgrade_iff_higher_label (st : AppState) (nft : ExistingNft.t)
    (r : ScanResult.t) :
  existingNft st = Some nft → scanResult st = Some r →
  (∀ n m,
     getAuraType n = Some (ExistingNft.currentAura nft) →
     getAuraType m = Some (ScanResult.auraType r) →
     (canUpgrade st = true
      ↔ (n < m)%Z ∧ ExistingNft.currentAura nft ≠ ScanResult.auraType r)) ∧
  (AURA_CONFIG (ExistingNft.currentAura nft) = None → canUpgrade st = false).
Proof.
  intros Hnft Hres. unfold canUpgrade. rewrite Hnft, Hres. split.
  - intros n m Hn Hm. unfold getAuraType in Hn, Hm.
    repeat match type of Hn with
           | context [Z.leb ?a ?b] => destruct (Z.leb_spec a b)
           end; try discriminate; injection Hn as <-;
    repeat match type of Hm with
           | context [Z.leb ?a ?b] => destruct (Z.leb_spec a b)
           end; try discriminate; injection Hm as <-;
    simpl; (split; [intros Hlt; split; [lia | done] | intros [? ?]; try done; lia]).
  - intros Hnone. unfold tierOf. rewrite Hnone. simpl. by destruct (AuraInfo.tier <$> _).
Qed.

Lemma canUpgrade_iff_higher_label_witness :
  canUpgrade (mkAppState None EmptyString
                (Some (ScanResult.mk "0x00000000000000000000000000000000000000Ab" 120
                         "water" "Wave Rider" "Active Explorer" None 3))
                false EmptyString (Some (ExistingNft.mk 0 "rock")))
  = true
  ↔ (5 < 120)%Z ∧ "rock" ≠ "water".
Proof.
  destruct (canUpgrade_iff_higher_label
              (mkAppState None EmptyString
                 (Some (ScanResult.mk "0x00000000000000000000000000000000000000Ab" 120
                          "water" "Wave Rider" "Active Explorer" None 3))
                 false EmptyString (Some (ExistingNft.mk 0 "rock")))
              (ExistingNft.mk 0 "rock")
              (ScanResult.mk "0x00000000000000000000000000000000000000Ab" 120
                 "water" "Wave Rider" "Active Explorer" None 3)
              eq_refl eq_refl) as [H _].
  exact (H 5%Z 120%Z eq_refl eq_refl).
Defined.

(** * Properties of the deployment script *)

(** ** Texts and their lines *)

Lemma noLT_app l1 l2 : noLT (l1 ++ l2) ↔ noLT l1 ∧ noLT l2.
Proof. apply Forall_app. Qed.

Lemma strip_prefix_app p r : strip_prefix p (p ++ r) = Some r.
Proof.
  induction p as [|a p IH]; [by destruct r|]. simpl. by rewrite N.eqb_refl.
Qed.

Lemma strip_prefix_Some p text rest : strip_prefix p text = Some rest → text = p ++ rest.
Proof.
  revert text. induction p as [|a p IH]; intros text.
  - destruct text; by intros [= <-].
  - destruct text as [|b text]; [done|]. simpl.
    destruct (N.eqb_spec a b) as [<-|]; [|done]. intros H. by rewrite (IH _ H).
Qed.

(** A prefix without line terminators is found, or not, before the first
    terminator of the text. *)
Lemma strip_prefix_line p c x r :
  noLT p → isLineTerminator x = true →
  strip_prefix p (c ++ x :: r) = (fun rest => rest ++ x :: r) <$> strip_prefix p c.
Proof.
  intros Hp Hx. revert c. induction Hp as [|a p Ha Hp IH]; intros c.
  - by destruct c.
  - destruct c as [|b c]; simpl.
    + destruct (N.eqb_spec a x) as [->|]; [congruence | done].
    + destruct (a =? b); [apply IH | done].
Qed.

Lemma after_line_app l x r :
  noLT l → isLineTerminator x = true → after_line (l ++ x :: r) = x :: r.
Proof.
  intros Hl Hx. induction Hl as [|a l Ha Hl IH]; simpl; [by rewrite Hx | by rewrite Ha].
Qed.

Lemma after_line_noLT l : noLT l → after_line l = [].
Proof. induction 1 as [|a l Ha Hl IH]; simpl; [done | by rewrite Ha]. Qed.

Lemma line_of_app l x r :
  noLT l → isLineTerminator x = true → line_of (l ++ x :: r) = l.
Proof.
  intros Hl Hx. induction Hl as [|a l Ha Hl IH]; simpl; [by rewrite Hx|].
  rewrite Ha. by f_equal.
Qed.

Lemma line_of_noLT l : noLT l → line_of l = l.
Proof. induction 1 as [|a l Ha Hl IH]; simpl; [done|]. rewrite Ha. by f_equal. Qed.

Lemma strip_prefix_noLT p c rest : strip_prefix p c = Some rest → noLT c → noLT rest.
Proof.
  intros H Hc. apply strip_prefix_Some in H. subst c. by apply noLT_app in Hc as [_ ?].
Qed.

Lemma join_nil lastLine : join [] lastLine = lastLine.
Proof. reflexivity. Qed.

Lemma join_cons c x lines lastLine :
  join ((c, x) :: lines) lastLine = c ++ x :: join lines lastLine.
Proof. unfold join. simpl. by rewrite <- !app_assoc. Qed.

Section Lines.
Variables pat line : list N.
Hypothesis pat_noLT : noLT pat.
Hypothesis pat_nonempty : pat ≠ [].

Lemma strip_prefix_nil : strip_prefix pat [] = None.
Proof. by destruct pat. Qed.

Lemma replace_first_walk c x r :
  noLT c → isLineTerminator x = true →
  replace_first pat line false (c ++ x :: r)
  = (fun r' => c ++ x :: r') <$> replace_first pat line true r.
Proof.
  intros Hc Hx. induction Hc as [|a c Ha Hc IH].
  - cbn [app replace_first]. rewrite Hx. by destruct (replace_first pat line true r).
  - cbn [app replace_first]. rewrite Ha, IH.
    by destruct (replace_first pat line true r).
Qed.

Lemma replace_first_walk_end c : noLT c → replace_first pat line false c = None.
Proof.
  induction 1 as [|a c Ha Hc IH]; [done|]. cbn [replace_first]. by rewrite Ha, IH.
Qed.

Lemma replace_first_line c x r :
  noLT c → isLineTerminator x = true →
  replace_first pat line true (c ++ x :: r)
  = match strip_prefix pat c with
    | Some _ => Some (line ++ x :: r)
    | None => (fun r' => c ++ x :: r') <$> replace_first pat line true r
    end.
Proof.
  intros Hc Hx.
  assert (Hhead := strip_prefix_line pat c x r pat_noLT Hx).
  destruct c as [|a c].
  - cbn [app] in *. cbn [replace_first]. rewrite Hhead, strip_prefix_nil. simpl.
    rewrite Hx. by destruct (replace_first pat line true r).
  - cbn [app] in *. cbn [replace_first]. rewrite Hhead.
    destruct (strip_prefix pat (a :: c)) as [rest|] eqn:Hstrip; simpl.
    + rewrite after_line_app; [done | by eapply strip_prefix_noLT | done].
    + apply Forall_cons in Hc as [Ha Hc]. rewrite Ha, replace_first_walk by done.
      by destruct (replace_first pat line true r).
Qed.

Lemma replace_first_last c :
  noLT c →
  replace_first pat line true c
  = match strip_prefix pat c with Some _ => Some line | None => None end.
Proof.
  intros Hc. destruct c as [|a c].
  - cbn [replace_first]. by rewrite strip_prefix_nil.
  - cbn [replace_first].
    destruct (strip_prefix pat (a :: c)) as [rest|] eqn:Hstrip.
    + rewrite after_line_noLT by (by eapply strip_prefix_noLT). by rewrite app_nil_r.
    + apply Forall_cons in Hc as [Ha Hc]. by rewrite Ha, replace_first_walk_end.
Qed.

Lemma env_value_walk c x r :
  noLT c → isLineTerminator x = true →
  env_value_from pat false (c ++ x :: r) = env_value_from pat true r.
Proof.
  intros Hc Hx. induction Hc as [|a c Ha Hc IH].
  - cbn [app env_value_from]. by rewrite Hx.
  - cbn [app env_value_from]. by rewrite Ha, IH.
Qed.

Lemma env_value_walk_end c : noLT c → env_value_from pat false c = None.
Proof.
  induction 1 as [|a c Ha Hc IH]; [done|]. cbn [env_value_from]. by rewrite Ha, IH.
Qed.

Lemma env_value_line c x r :
  noLT c → isLineTerminator x = true →
  env_value_from pat true (c ++ x :: r)
  = match strip_prefix pat c with
    | Some v => Some v
    | None => env_value_from pat true r
    end.
Proof.
  intros Hc Hx.
  assert (Hhead := strip_prefix_line pat c x r pat_noLT Hx).
  destruct c as [|a c].
  - cbn [app] in *. cbn [env_value_from]. rewrite Hhead, strip_prefix_nil. simpl.
    by rewrite Hx.
  - cbn [app] in *. cbn [env_value_from]. rewrite Hhead.
    destruct (strip_prefix pat (a :: c)) as [rest|] eqn:Hstrip; simpl.
    + rewrite line_of_app; [done | by eapply strip_prefix_noLT | done].
    + apply Forall_cons in Hc as [Ha Hc]. by rewrite Ha, env_value_walk.
Qed.

Lemma env_value_last c :
  noLT c → env_value_from pat true c = strip_prefix pat c.
Proof.
  intros Hc. destruct c as [|a c].
  - cbn [env_value_from]. by rewrite strip_prefix_nil.
  - cbn [env_value_from].
    destruct (strip_prefix pat (a :: c)) as [rest|] eqn:Hstrip.
    + rewrite line_of_noLT by (by eapply strip_prefix_noLT). done.
    + apply Forall_cons in Hc as [Ha Hc]. by rewrite Ha, env_value_walk_end.
Qed.

(** On a text given by its lines, replacing and reading go line by line. *)
Lemma replace_first_join lines lastLine :
  lines_wf lines → noLT lastLine →
  replace_first pat line true (join lines lastLine)
  = match replace_lines pat line lines with
    | Some lines' => Some (join lines' lastLine)
    | None =>
        match strip_prefix pat lastLine with
        | Some _ => Some (join lines line)
        | None => None
        end
    end.
Proof.
  intros Hwf Hlast. induction Hwf as [|[c x] lines [Hc Hx] Hwf IH].
  - rewrite join_nil, replace_first_last by done. simpl.
    by destruct (strip_prefix pat lastLine).
  - simpl in Hc, Hx. rewrite join_cons, replace_first_line by done.
    cbn [replace_lines fst snd].
    destruct (strip_prefix pat c); [by rewrite join_cons|].
    rewrite IH. destruct (replace_lines pat line lines) as [lines'|]; simpl.
    + by rewrite join_cons.
    + destruct (strip_prefix pat lastLine); simpl; [|done]. by rewrite join_cons.
Qed.

Lemma env_value_join lines lastLine :
  lines_wf lines → noLT lastLine →
  env_value_from pat true (join lines lastLine)
  = match lookup_lines pat lines with
    | Some v => Some v
    | None => strip_prefix pat lastLine
    end.
Proof.
  intros Hwf Hlast. induction Hwf as [|[c x] lines [Hc Hx] Hwf IH].
  - rewrite join_nil. simpl. by rewrite env_value_last.
  - simpl in Hc, Hx. rewrite join_cons, env_value_line by done.
    cbn [lookup_lines fst snd]. by destruct (strip_prefix pat c).
Qed.
End Lines.

(** Every text is the text of its lines. *)
Lemma text_lines text :
  ∃ lines lastLine, lines_wf lines ∧ noLT lastLine ∧ text = join lines lastLine.
Proof.
  induction text as [|c text (lines & lastLine & Hwf & Hlast & ->)].
  - exists [], []. by split_and!; [constructor | constructor |].
  - destruct (isLineTerminator c) eqn:Hc.
    + exists (([], c) :: lines), lastLine. rewrite join_cons. split_and!; try done.
      constructor; [|done]. split; [constructor | done].
    + destruct lines as [|[c0 x] lines].
      * exists [], (c :: lastLine). rewrite !join_nil. split_and!; try done.
        by constructor.
      * apply Forall_cons in Hwf as [[Hc0 Hx] Hwf].
        exists ((c :: c0, x) :: lines), lastLine. rewrite !join_cons.
        split_and!; try done.
        constructor; [|done]. split; [by constructor | done].
Qed.

(** ** Lines: replacing the first match and reading it *)

Lemma lookup_lines_app p l1 l2 :
  lookup_lines p (l1 ++ l2)
  = match lookup_lines p l1 with Some v => Some v | None => lookup_lines p l2 end.
Proof.
  induction l1 as [|l l1 IH]; [done|]. simpl. by destruct (strip_prefix p l.1).
Qed.

Lemma replace_lines_app p line l1 l2 :
  replace_lines p line (l1 ++ l2)
  = match replace_lines p line l1 with
    | Some l1' => Some (l1' ++ l2)
    | None => (fun l2' => l1 ++ l2') <$> replace_lines p line l2
    end.
Proof.
  induction l1 as [|l l1 IH]; simpl.
  - by destruct (replace_lines p line l2).
  - destruct (strip_prefix p l.1); [done|]. rewrite IH.
    destruct (replace_lines p line l1); [done|]. by destruct (replace_lines p line l2).
Qed.

Lemma replace_lines_None p line lines :
  replace_lines p line lines = None → lookup_lines p lines = None.
Proof.
  induction lines as [|l lines IH]; [done|]. simpl.
  destruct (strip_prefix p l.1); [done|].
  destruct (replace_lines p line lines); [done | auto].
Qed.

Section ReplaceLines.
Variables pat line value : list N.
Hypothesis line_value : strip_prefix pat line = Some value.

Lemma replace_lines_read lines lines' :
  replace_lines pat line lines = Some lines' → lookup_lines pat lines' = Some value.
Proof.
  revert lines'. induction lines as [|l lines IH]; intros lines'; [done|]. simpl.
  destruct (strip_prefix pat l.1) eqn:Hl.
  - intros [= <-]. simpl. by rewrite line_value.
  - destruct (replace_lines pat line lines) as [lines0|]; [|done].
    intros [= <-]. simpl. rewrite Hl. by apply IH.
Qed.

Lemma replace_lines_again lines lines' :
  replace_lines pat line lines = Some lines' →
  replace_lines pat line lines' = Some lines'.
Proof.
  revert lines'. induction lines as [|l lines IH]; intros lines'; [done|]. simpl.
  destruct (strip_prefix pat l.1) eqn:Hl.
  - intros [= <-]. simpl. by rewrite line_value.
  - destruct (replace_lines pat line lines) as [lines0|]; [|done].
    intros [= <-]. simpl. rewrite Hl. by rewrite (IH lines0).
Qed.

Lemma replace_lines_other pat' lines lines' :
  (∀ c, is_Some (strip_prefix pat c) → strip_prefix pat' c = None) →
  replace_lines pat line lines = Some lines' →
  lookup_lines pat' lines' = lookup_lines pat' lines.
Proof.
  intros Hother. revert lines'.
  induction lines as [|l lines IH]; intros lines'; [done|]. simpl.
  destruct (strip_prefix pat l.1) eqn:Hl.
  - intros [= <-]. simpl. rewrite !Hother; [done | by rewrite Hl | by rewrite line_value].
  - destruct (replace_lines pat line lines) as [lines0|]; [|done].
    intros [= <-]. simpl. by rewrite (IH lines0).
Qed.

Lemma replace_lines_wf lines lines' :
  noLT line → lines_wf lines →
  replace_lines pat line lines = Some lines' → lines_wf lines'.
Proof.
  intros Hline Hwf. revert lines'.
  induction Hwf as [|l lines [Hc Hx] Hwf IH]; intros lines'; [done|]. simpl.
  destruct (strip_prefix pat l.1).
  - intros [= <-]. by constructor.
  - destruct (replace_lines pat line lines) as [lines0|]; [|done].
    intros [= <-]. constructor; [done | by apply IH].
Qed.
End ReplaceLines.

Lemma join_app l1 l2 lastLine : join (l1 ++ l2) lastLine = join l1 (join l2 lastLine).
Proof.
  induction l1 as [|[c x] l1 IH]; [done|].
  rewrite <- app_comm_cons, !join_cons. by rewrite IH.
Qed.

Lemma join_last_app lines a b : join lines (a ++ b) = join lines a ++ b.
Proof. unfold join. by rewrite app_assoc. Qed.

(** The text appended when no line matches, as lines: after the lines of the
    text come its last line, now terminated, if it was not empty, or an empty
    line if the text ended in another terminator than LF, and then the new
    line; nothing follows it. *)
Lemma append_as_lines lines lastLine line :
  lines_wf lines → noLT lastLine →
  ∃ extra,
    join lines lastLine
    ++ (if endsWithNewline (join lines lastLine)
           || (length (join lines lastLine) =? 0)%nat then [] else [10])
    ++ line ++ [10]
    = join (lines ++ extra ++ [(line, 10)]) [] ∧
    lines_wf extra ∧
    ∀ p, p ≠ [] → lookup_lines p extra = strip_prefix p lastLine.
Proof.
  intros Hwf Hlast.
  assert (Hnew : ∀ extra, join (lines ++ extra ++ [(line, 10)]) []
                          = join lines [] ++ join extra [] ++ line ++ [10]).
  { intros extra. rewrite !join_app, join_cons, join_nil.
    rewrite <- (app_nil_l (join extra _)) at 1. rewrite join_last_app.
    f_equal. rewrite <- (app_nil_l (line ++ _)) at 1. by rewrite join_last_app. }
  destruct lastLine as [|a lastLine] using rev_ind.
  - destruct (endsWithNewline (join lines []) || (length (join lines []) =? 0)%nat).
    + exists []. rewrite Hnew. split_and!; [done | constructor |].
      intros p Hp. by destruct p.
    + exists [([], 10)]. rewrite Hnew. split_and!; [done | |].
      * by repeat constructor.
      * intros p Hp. by destruct p.
  - clear IHlastLine. exists [(lastLine ++ [a], 10)].
    assert (Hend : endsWithNewline (join lines (lastLine ++ [a])) = false).
    { unfold endsWithNewline, join. rewrite app_assoc, last_snoc.
      apply noLT_app in Hlast as [_ Ha]. unfold noLT in Ha.
      rewrite Forall_singleton in Ha.
      destruct (N.eqb_spec a 10) as [->|]; [by vm_compute in Ha | done]. }
    assert (Hlen : (length (join lines (lastLine ++ [a])) =? 0)%nat = false).
    { unfold join. rewrite !length_app. simpl. apply Nat.eqb_neq. lia. }
    rewrite Hend, Hlen, Hnew. simpl. split_and!.
    + rewrite join_cons, join_nil.
      change (join lines (lastLine ++ [a])) with (join lines ([] ++ (lastLine ++ [a]))).
      rewrite join_last_app, <- !app_assoc. done.
    + by repeat constructor.
    + intros p Hp. simpl. by destruct (strip_prefix p (lastLine ++ [a])).
Qed.

Lemma lookup_lines_None_replace p line lines :
  lookup_lines p lines = None → replace_lines p line lines = None.
Proof.
  induction lines as [|l lines IH]; [done|]. simpl.
  destruct (strip_prefix p l.1); [done|]. intros H. by rewrite IH.
Qed.

(** ** Keys and values *)

Lemma isWordChar_not_terminator c : isWordChar c = true → isLineTerminator c = false.
Proof.
  unfold isWordChar, isLineTerminator. intros H.
  destruct (N.eqb_spec c 10) as [->|]; [done|].
  destruct (N.eqb_spec c 13) as [->|]; [done|].
  destruct (N.eqb_spec c 8232) as [->|]; [done|].
  destruct (N.eqb_spec c 8233) as [->|]; [done|]. done.
Qed.

Lemma word_noLT key : forallb isWordChar key = true → noLT key.
Proof.
  intros H. apply Forall_forall. intros c Hc.
  apply isWordChar_not_terminator.
  rewrite forallb_forall in H. apply H. by apply list_elem_of_In.
Qed.

Lemma plain_noLT value : forallb isPlainChar value = true → noLT value.
Proof.
  intros H. apply Forall_forall. intros c Hc.
  rewrite forallb_forall in H. specialize (H c). unfold isPlainChar in H.
  destruct (isLineTerminator c); [|done].
  assert (Hin : In c value) by (by apply list_elem_of_In).
  specialize (H Hin). discriminate.
Qed.

Lemma word_pat_noLT key : forallb isWordChar key = true → noLT (key ++ [61]).
Proof.
  intros H. apply noLT_app. split; [by apply word_noLT|]. by repeat constructor.
Qed.

Lemma pat_nonempty (key : list N) : key ++ [61] ≠ [].
Proof. by destruct key. Qed.

Lemma key_split_unique k1 k2 r1 r2 :
  forallb isWordChar k1 = true → forallb isWordChar k2 = true →
  k1 ++ 61 :: r1 = k2 ++ 61 :: r2 → k1 = k2.
Proof.
  revert k2. induction k1 as [|a k1 IH]; intros [|b k2]; simpl; try done.
  - intros _ [Hb _]%andb_true_iff [= <- _]. done.
  - intros [Ha _]%andb_true_iff _ [= -> _]. done.
  - intros [_ H1]%andb_true_iff [_ H2]%andb_true_iff [= <- Heq]. f_equal. by apply IH.
Qed.

Lemma other_key_no_match key key' c :
  forallb isWordChar key = true → forallb isWordChar key' = true → key' ≠ key →
  is_Some (strip_prefix (key ++ [61]) c) → strip_prefix (key' ++ [61]) c = None.
Proof.
  intros Hk Hk' Hne [r Hr]. apply strip_prefix_Some in Hr.
  destruct (strip_prefix (key' ++ [61]) c) as [r'|] eqn:Hr'; [|done].
  apply strip_prefix_Some in Hr'. subst c. rewrite <- !app_assoc in Hr'. simpl in Hr'.
  destruct Hne. symmetry. by eapply key_split_unique.
Qed.

(** What [upsertEnvVar] writes, read as lines. *)
Lemma upsertText_spec key value text :
  forallb isWordChar key = true → forallb isPlainChar value = true →
  env_value key (upsertText key value text) = Some value ∧
  (∀ key', forallb isWordChar key' = true → key' ≠ key →
     env_value key' (upsertText key value text) = env_value key' text) ∧
  upsertText key value (upsertText key value text) = upsertText key value text.
Proof.
  intros Hkey Hvalue.
  set (pat := key ++ [61]). set (line := key ++ [61] ++ value).
  assert (Hpat : noLT pat) by (by apply word_pat_noLT).
  assert (Hpat0 : pat ≠ []) by apply pat_nonempty.
  assert (Hline : noLT line).
  { unfold line. rewrite app_assoc. apply noLT_app. split; [done | by apply plain_noLT]. }
  assert (Hlv : strip_prefix pat line = Some value).
  { unfold line. rewrite app_assoc. apply strip_prefix_app. }
  assert (Hread : ∀ key' lines lastLine, forallb isWordChar key' = true →
            lines_wf lines → noLT lastLine →
            env_value key' (join lines lastLine)
            = match lookup_lines (key' ++ [61]) lines with
              | Some v => Some v
              | None => strip_prefix (key' ++ [61]) lastLine
              end).
  { intros key' lines lastLine Hk' Hwf Hlast. unfold env_value.
    apply env_value_join; [by apply word_pat_noLT | apply pat_nonempty | done | done]. }
  assert (Hfix : ∀ t, replace_first pat line true t = Some t → upsertText key value t = t).
  { intros t Ht. unfold upsertText. fold pat line. by rewrite Ht. }
  assert (Hno : ∀ key' c, forallb isWordChar key' = true → key' ≠ key →
            is_Some (strip_prefix pat c) → strip_prefix (key' ++ [61]) c = None).
  { intros key' c Hk' Hne Hc. by apply (other_key_no_match key key'). }
  destruct (text_lines text) as (lines & lastLine & Hwf & Hlast & ->).
  unfold upsertText. fold pat line.
  rewrite (replace_first_join pat line Hpat Hpat0 lines lastLine Hwf Hlast).
  destruct (replace_lines pat line lines) as [lines'|] eqn:Hrep.
  - assert (Hwf' : lines_wf lines')
      by exact (replace_lines_wf pat line lines lines' Hline Hwf Hrep).
    split_and!.
    + rewrite Hread by done. fold pat. by rewrite (replace_lines_read pat line value Hlv _ _ Hrep).
    + intros key' Hk' Hne. rewrite !Hread by done.
      rewrite (replace_lines_other pat line value Hlv (key' ++ [61]) lines lines'); [done| |done].
      intros c. by apply Hno.
    + apply Hfix. rewrite (replace_first_join pat line Hpat Hpat0 lines' lastLine Hwf' Hlast).
      by rewrite (replace_lines_again pat line value Hlv _ _ Hrep).
  - pose proof (replace_lines_None _ _ _ Hrep) as Hnone.
    destruct (strip_prefix pat lastLine) as [old|] eqn:Hlastm.
    + split_and!.
      * rewrite Hread by done. fold pat. by rewrite Hnone.
      * intros key' Hk' Hne. rewrite !Hread by done.
        destruct (lookup_lines (key' ++ [61]) lines); [done|].
        assert (H1 : strip_prefix (key' ++ [61]) lastLine = None).
        { apply Hno; [done | done |]. by rewrite Hlastm. }
        assert (H2 : strip_prefix (key' ++ [61]) line = None).
        { apply Hno; [done | done |]. by rewrite Hlv. }
        by rewrite H1, H2.
      * apply Hfix. rewrite (replace_first_join pat line Hpat Hpat0 lines line Hwf Hline).
        by rewrite Hrep, Hlv.
    + destruct (append_as_lines lines lastLine line Hwf Hlast)
        as (extra & -> & Hextra & Hlook).
      assert (Hwf' : lines_wf (lines ++ extra ++ [(line, 10)])).
      { apply Forall_app. split; [done|]. apply Forall_app. split; [done|].
        by repeat constructor. }
      assert (Hnil : noLT []) by constructor.
      split_and!.
      * rewrite Hread by done. fold pat.
        rewrite !lookup_lines_app, Hnone, Hlook, Hlastm by done. simpl. by rewrite Hlv.
      * intros key' Hk' Hne. rewrite !Hread by done.
        rewrite !lookup_lines_app, Hlook by apply pat_nonempty.
        destruct (lookup_lines (key' ++ [61]) lines); [done|].
        destruct (strip_prefix (key' ++ [61]) lastLine); [done|]. simpl.
        assert (H2 : strip_prefix (key' ++ [61]) line = None).
        { apply Hno; [done | done |]. by rewrite Hlv. }
        rewrite H2. by destruct key'.
      * apply Hfix. rewrite (replace_first_join pat line Hpat Hpat0 _ [] Hwf' Hnil).
        rewrite !replace_lines_app, Hrep.
        rewrite (lookup_lines_None_replace pat line extra)
          by (by rewrite Hlook, Hlastm).
        simpl. by rewrite Hlv.
Qed.

Lemma upsertEnvVar_upsertText envPath key value fs :
  upsertEnvVar envPath key value fs
  = <[envPath := upsertText key value (default [] (fs !! envPath))]> fs.
Proof. reflexivity. Qed.

(** ** Texts without lone surrogates *)

Lemma isWellFormed_cons c text :
  noSurrogate c → isWellFormed (c :: text) = isWellFormed text.
Proof. intros [Hh Hl]. simpl. by rewrite Hh, Hl. Qed.

Lemma isWellFormed_pair x d text :
  isHighSurrogate x = true →
  isWellFormed (x :: d :: text) = isLowSurrogate d && isWellFormed text.
Proof. intros Hx. simpl. by rewrite Hx. Qed.

Lemma isWellFormed_single x text :
  isHighSurrogate x = false →
  isWellFormed (x :: text) = negb (isLowSurrogate x) && isWellFormed text.
Proof. intros Hx. simpl. by rewrite Hx. Qed.

Lemma isWellFormed_split_le n a c b :
  (length a ≤ n)%nat → noSurrogate c →
  isWellFormed (a ++ c :: b) = isWellFormed a && isWellFormed b.
Proof.
  intros Hn Hc. revert a Hn. induction n as [|n IH]; intros a Hn.
  - destruct a; [|simpl in Hn; lia]. simpl app. by rewrite isWellFormed_cons.
  - destruct a as [|x a]; simpl in Hn.
    { simpl app. by rewrite isWellFormed_cons. }
    rewrite <- app_comm_cons. destruct (isHighSurrogate x) eqn:Hx.
    + destruct a as [|d a]; simpl in Hn.
      * simpl app. rewrite isWellFormed_pair by done. destruct Hc as [_ ->].
        simpl. by rewrite Hx.
      * rewrite <- app_comm_cons, !isWellFormed_pair by done.
        rewrite IH by lia. by rewrite andb_assoc.
    + rewrite !isWellFormed_single by done. rewrite IH by lia. by rewrite andb_assoc.
Qed.

Lemma isWellFormed_split a c b :
  noSurrogate c → isWellFormed (a ++ c :: b) = isWellFormed a && isWellFormed b.
Proof. by apply (isWellFormed_split_le (length a)). Qed.

Lemma isWellFormed_app_le n a b :
  (length a ≤ n)%nat → isWellFormed a = true → isWellFormed (a ++ b) = isWellFormed b.
Proof.
  revert a. induction n as [|n IH]; intros a Hn Ha.
  - destruct a; [done | simpl in Hn; lia].
  - destruct a as [|x a]; simpl in Hn; [done|].
    rewrite <- app_comm_cons. destruct (isHighSurrogate x) eqn:Hx.
    + destruct a as [|d a]; simpl in Hn.
      * simpl in Ha. by rewrite Hx in Ha.
      * rewrite isWellFormed_pair in Ha by done.
        apply andb_true_iff in Ha as [Hd Ha].
        rewrite <- app_comm_cons, isWellFormed_pair by done.
        rewrite Hd, IH by (done || lia). done.
    + rewrite isWellFormed_single in Ha by done.
      apply andb_true_iff in Ha as [Hl Ha].
      rewrite isWellFormed_single by done. rewrite Hl, IH by (done || lia). done.
Qed.

Lemma isWellFormed_app a b :
  isWellFormed a = true → isWellFormed (a ++ b) = isWellFormed b.
Proof. by apply (isWellFormed_app_le (length a)). Qed.

Lemma terminator_noSurrogate c : isLineTerminator c = true → noSurrogate c.
Proof.
  unfold isLineTerminator, noSurrogate, isHighSurrogate, isLowSurrogate.
  rewrite !orb_true_iff, !N.eqb_eq. intros [[[-> | ->] | ->] | ->]; done.
Qed.

Lemma wordChar_noSurrogate c : isWordChar c = true → noSurrogate c.
Proof.
  unfold isWordChar, noSurrogate, isHighSurrogate, isLowSurrogate.
  rewrite !orb_true_iff, !andb_true_iff, !andb_false_iff, !N.leb_le, !N.leb_gt, N.eqb_eq.
  lia.
Qed.

Lemma isWellFormed_noSurrogate text : Forall noSurrogate text → isWellFormed text = true.
Proof.
  induction 1 as [|c text Hc _ IH]; [done|]. by rewrite isWellFormed_cons.
Qed.

Lemma isWellFormed_after_line text :
  isWellFormed text = true → isWellFormed (after_line text) = true.
Proof.
  assert (H : ∀ n text, (length text ≤ n)%nat →
            isWellFormed text = true → isWellFormed (after_line text) = true).
  { clear text. induction n as [|n IH]; intros text Hn Hwf.
    - destruct text; [done | simpl in Hn; lia].
    - destruct text as [|c text]; [done|]. simpl in Hn. cbn [after_line].
      destruct (isLineTerminator c) eqn:Hc; [done|].
      destruct (isHighSurrogate c) eqn:Hh.
      + destruct text as [|d text]; [done|]. simpl in Hn.
        rewrite isWellFormed_pair in Hwf by done.
        apply andb_true_iff in Hwf as [Hd Hwf]. cbn [after_line].
        destruct (isLineTerminator d) eqn:Hdt.
        * apply terminator_noSurrogate in Hdt as [_ Hdl]. congruence.
        * apply IH; [lia | done].
      + rewrite isWellFormed_single in Hwf by done.
        apply andb_true_iff in Hwf as [_ Hwf]. apply IH; [lia | done]. }
  by apply (H (length text)).
Qed.

Lemma isWellFormed_replace_first pat line text replaced :
  isWellFormed pat = true → isWellFormed line = true → isWellFormed text = true →
  ∀ lineStart, replace_first pat line lineStart text = Some replaced →
  isWellFormed replaced = true.
Proof.
  intros Hpat Hline.
  assert (Hhead : ∀ text rest, isWellFormed text = true →
            strip_prefix pat text = Some rest →
            isWellFormed (line ++ after_line rest) = true).
  { intros t rest Ht Hrest. apply strip_prefix_Some in Hrest. subst t.
    rewrite isWellFormed_app in Ht by done.
    rewrite isWellFormed_app by done. by apply isWellFormed_after_line. }
  assert (H : ∀ n text replaced, (length text ≤ n)%nat → isWellFormed text = true →
            ∀ lineStart, replace_first pat line lineStart text = Some replaced →
            isWellFormed replaced = true).
  { clear text replaced. induction n as [|n IH]; intros text replaced Hn Hwf lineStart Hrep.
    - destruct text; [|simpl in Hn; lia].
      destruct lineStart; simpl in Hrep.
      + destruct (strip_prefix pat []) as [rest|] eqn:Hp; [|done].
        injection Hrep as <-. by eapply Hhead.
      + done.
    - destruct text as [|c text].
      { destruct lineStart; simpl in Hrep; [|done].
        destruct (strip_prefix pat []) as [rest|] eqn:Hp; [|done].
        injection Hrep as <-. by eapply Hhead. }
      simpl in Hn. cbn [replace_first] in Hrep.
      destruct (if lineStart then strip_prefix pat (c :: text) else None) as [rest|] eqn:Hp.
      { injection Hrep as <-. destruct lineStart; [|done]. by eapply Hhead. }
      destruct (replace_first pat line (isLineTerminator c) text) as [r|] eqn:Hr; [|done].
      injection Hrep as <-.
      destruct (isHighSurrogate c) eqn:Hc.
      + destruct text as [|d text]; [simpl in Hwf; by rewrite Hc in Hwf|].
        simpl in Hn. rewrite isWellFormed_pair in Hwf by done.
        apply andb_true_iff in Hwf as [Hd Hwf].
        assert (Hct : isLineTerminator c = false).
        { destruct (isLineTerminator c) eqn:Hct; [|done].
          apply terminator_noSurrogate in Hct as [Hch _]. congruence. }
        rewrite Hct in Hr. cbn [replace_first] in Hr.
        destruct (replace_first pat line (isLineTerminator d) text) as [r'|] eqn:Hr'; [|done].
        injection Hr as <-. rewrite isWellFormed_pair, Hd by done. simpl.
        eapply IH; [|done|exact Hr']. lia.
      + rewrite isWellFormed_single in Hwf by done.
        apply andb_true_iff in Hwf as [Hl Hwf].
        rewrite isWellFormed_single, Hl by done. simpl. eapply IH; [|done|exact Hr]. lia. }
  intros Hwf lineStart Hrep. by eapply (H (length text)).
Qed.

Lemma upsertText_wellFormed key value text :
  forallb isWordChar key = true → isWellFormed value = true → isWellFormed text = true →
  isWellFormed (upsertText key value text) = true.
Proof.
  intros Hkey Hvalue Htext.
  assert (Hpat : isWellFormed (key ++ [61]) = true).
  { apply isWellFormed_noSurrogate, Forall_app. split; [|by repeat constructor].
    apply Forall_forall. intros c Hc. apply wordChar_noSurrogate.
    rewrite forallb_forall in Hkey. apply Hkey. by apply list_elem_of_In. }
  assert (Hline : isWellFormed (key ++ [61] ++ value) = true).
  { by rewrite app_assoc, isWellFormed_app. }
  unfold upsertText.
  destruct (replace_first (key ++ [61]) (key ++ [61] ++ value) true text) as [r|] eqn:Hr.
  - exact (isWellFormed_replace_first _ _ text r Hpat Hline Htext true Hr).
  - rewrite isWellFormed_app by done.
    assert (Hend : isWellFormed ((key ++ [61] ++ value) ++ [10]) = true).
    { by rewrite isWellFormed_app. }
    destruct (endsWithNewline text || (length text =? 0)%nat); [done|].
    change ([10] ++ ?x) with (10 :: x). by rewrite isWellFormed_cons.
Qed.

(** ** [upsertEnvVar] *)

(** X17: after [upsertEnvVar] the file exists and the key reads back as the
    value: the first line of the file that begins with the key and an equals
    sign holds exactly the value, whether the file was missing, empty, had the
    key already or not, and whatever line terminators it uses. The key is
    made of word characters; the value has no line terminator, no dollar sign
    and no lone surrogate; the file read is well-formed text, as every text
    read with the utf8 encoding is. The text written is well formed again, so
    it is stored as it is. *)
Theorem upsertEnvVar_then_read (envPath : string) (key value : list N)
    (fs : gmap string (list N)) :
  forallb isWordChar key = true → forallb isPlainChar value = true →
  isWellFormed value = true → isWellFormed (default [] (fs !! envPath)) = true →
  ∃ text, upsertEnvVar envPath key value fs !! envPath = Some text ∧
          env_value key text = Some value ∧
          isWellFormed text = true.
Proof.
  intros Hkey Hvalue Hwf Hfile. rewrite upsertEnvVar_upsertText, lookup_insert_eq.
  eexists. split; [done|]. split; [by apply upsertText_spec|].
  by apply upsertText_wellFormed.
Qed.

Lemma upsertEnvVar_then_read_witness :
  ∃ text,
    upsertEnvVar ".env" (units "CONTRACT_ADDRESS") (units "0xF105")
      (<[".env" := units "A=1" ++ [13; 10] ++ units "CONTRACT_ADDRESS=old"]> ∅)
    !! ".env" = Some text ∧
    env_value (units "CONTRACT_ADDRESS") text = Some (units "0xF105") ∧
    isWellFormed text = true.
Proof.
  exact (upsertEnvVar_then_read ".env" (units "CONTRACT_ADDRESS") (units "0xF105")
           (<[".env" := units "A=1" ++ [13; 10] ++ units "CONTRACT_ADDRESS=old"]> ∅)
           eq_refl eq_refl eq_refl eq_refl).
Defined.


(** X18: [upsertEnvVar] leaves the other keys and the other files alone:
    every other key of word characters reads the same value from the file as
    before (or none, as before), and every other path holds what it held. In
    particular a key that ends in the key written, as VITE_CONTRACT_ADDRESS
    ends in CONTRACT_ADDRESS, is not touched. *)
Theorem upsertEnvVar_keeps_other_keys (envPath : string) (key value : list N)
    (fs : gmap string (list N)) (key' : list N) :
  forallb isWordChar key = true → forallb isPlainChar value = true →
  forallb isWordChar key' = true → key' ≠ key →
  (∃ text, upsertEnvVar envPath key value fs !! envPath = Some text ∧
           env_value key' text = env_value key' (default [] (fs !! envPath))) ∧
  ∀ path, path ≠ envPath → upsertEnvVar envPath key value fs !! path = fs !! path.
Proof.
  intros Hkey Hvalue Hkey' Hne. rewrite upsertEnvVar_upsertText. split.
  - rewrite lookup_insert_eq. eexists. split; [done|].
    by apply upsertText_spec.
  - intros path Hpath. by rewrite lookup_insert_ne.
Qed.

Lemma upsertEnvVar_keeps_other_keys_witness :
  ∃ text,
    upsertEnvVar ".env" (units "CONTRACT_ADDRESS") (units "0xF105")
      (<[".env" := units "VITE_CONTRACT_ADDRESS=0x01" ++ [10]
                   ++ units "CONTRACT_ADDRESS=old"]> ∅)
    !! ".env" = Some text ∧
    env_value (units "VITE_CONTRACT_ADDRESS") text
    = env_value (units "VITE_CONTRACT_ADDRESS")
        (default []
           ((<[".env" := units "VITE_CONTRACT_ADDRESS=0x01" ++ [10]
                         ++ units "CONTRACT_ADDRESS=old"]> ∅ : gmap string (list N))
            !! ".env")).
Proof.
  assert (Hne : units "VITE_CONTRACT_ADDRESS" ≠ units "CONTRACT_ADDRESS") by discriminate.
  exact (proj1 (upsertEnvVar_keeps_other_keys ".env" (units "CONTRACT_ADDRESS")
                  (units "0xF105")
                  (<[".env" := units "VITE_CONTRACT_ADDRESS=0x01" ++ [10]
                               ++ units "CONTRACT_ADDRESS=old"]> ∅)
                  (units "VITE_CONTRACT_ADDRESS") eq_refl eq_refl eq_refl Hne)).
Defined.

(** X19: [upsertEnvVar] is idempotent: writing the same key and value a
    second time leaves the file system exactly as the first write left it, so
    deploying again with the same address does not grow the file. *)
Theorem upsertEnvVar_idempotent (envPath : string) (key value : list N)
    (fs : gmap string (list N)) :
  forallb isWordChar key = true → forallb isPlainChar value = true →
  upsertEnvVar envPath key value (upsertEnvVar envPath key value fs)
  = upsertEnvVar envPath key value fs.
Proof.
  intros Hkey Hvalue. rewrite !upsertEnvVar_upsertText, lookup_insert_eq. simpl.
  rewrite insert_insert_eq. f_equal. by apply upsertText_spec.
Qed.

Lemma upsertEnvVar_idempotent_witness :
  upsertEnvVar ".env" (units "CONTRACT_ADDRESS") (units "0xF105")
    (upsertEnvVar ".env" (units "CONTRACT_ADDRESS") (units "0xF105") ∅)
  = upsertEnvVar ".env" (units "CONTRACT_ADDRESS") (units "0xF105") ∅.
Proof.
  exact (upsertEnvVar_idempotent ".env" (units "CONTRACT_ADDRESS") (units "0xF105") ∅
           eq_refl eq_refl).
Defined.

(** X20: the two writes of the script's [main] compose: afterwards the file
    holds the deployed address under CONTRACT_ADDRESS and under
    VITE_CONTRACT_ADDRESS, whatever it held before, and every other key of
    word characters reads as before. *)
Theorem write_contract_address_sets_both (envPath : string) (contractAddress : list N)
    (fs : gmap string (list N)) :
  forallb isPlainChar contractAddress = true →
  ∃ text, write_contract_address envPath contractAddress fs !! envPath = Some text ∧
    env_value (units "CONTRACT_ADDRESS") text = Some contractAddress ∧
    env_value (units "VITE_CONTRACT_ADDRESS") text = Some contractAddress ∧
    ∀ key', forallb isWordChar key' = true →
      key' ≠ units "CONTRACT_ADDRESS" → key' ≠ units "VITE_CONTRACT_ADDRESS" →
      env_value key' text = env_value key' (default [] (fs !! envPath)).
Proof.
  intros Hvalue. unfold write_contract_address.
  rewrite !upsertEnvVar_upsertText, !lookup_insert_eq. simpl.
  set (text0 := default [] (fs !! envPath)).
  set (text1 := upsertText (units "CONTRACT_ADDRESS") contractAddress text0).
  destruct (upsertText_spec (units "CONTRACT_ADDRESS") contractAddress text0 eq_refl Hvalue)
    as (Hread1 & Hother1 & _).
  destruct (upsertText_spec (units "VITE_CONTRACT_ADDRESS") contractAddress text1
              eq_refl Hvalue) as (Hread2 & Hother2 & _).
  eexists. split; [done|]. split_and!.
  - rewrite Hother2; [done | done | discriminate].
  - done.
  - intros key' Hk' Hne1 Hne2. rewrite Hother2 by done. by apply Hother1.
Qed.

Lemma write_contract_address_sets_both_witness :
  ∃ text, write_contract_address ".env" (units "0xF105") ∅ !! ".env" = Some text ∧
    env_value (units "CONTRACT_ADDRESS") text = Some (units "0xF105") ∧
    env_value (units "VITE_CONTRACT_ADDRESS") text = Some (units "0xF105").
Proof.
  destruct (write_contract_address_sets_both ".env" (units "0xF105") ∅ eq_refl)
    as (text & Htext & H1 & H2 & _).
  exists text. split; [exact Htext|]. split; [exact H1 | exact H2].
Defined.

(** The file the script leaves on a first deployment, and on a file with a
    stale address and Windows line ends. *)
Example upsertEnvVar_values :
  write_contract_address ".env" (units "0xF105") ∅ !! ".env"
  = Some (units "CONTRACT_ADDRESS=0xF105" ++ [10]
          ++ units "VITE_CONTRACT_ADDRESS=0xF105" ++ [10]) ∧
  upsertEnvVar ".env" (units "CONTRACT_ADDRESS") (units "0xF105")
    (<[".env" := units "A=1" ++ [13; 10] ++ units "CONTRACT_ADDRESS=old" ++ [13; 10]]> ∅)
  !! ".env"
  = Some (units "A=1" ++ [13; 10] ++ units "CONTRACT_ADDRESS=0xF105" ++ [13; 10]) ∧
  upsertEnvVar ".env" (units "B") (units "2") (<[".env" := units "A=1"]> ∅) !! ".env"
  = Some (units "A=1" ++ [10] ++ units "B=2" ++ [10]).
Proof. repeat split; vm_compute; reflexivity. Qed.

(** * Further edge behaviour *)

(** X21: an update that does not change the label. When the owner of a
    token calls [updateAura] with the label the token already has, and that
    label is valid, the call succeeds, the state is exactly the one before,
    and an AuraUpdated event with the same old and new label is logged. The
    label is valid for every token whose mint has completed. Only for a token
    whose mint is still in progress and whose label is still empty the call
    fails, with Invalid aura type, and changes nothing. *)
Theorem updateAura_same_label (s : State) (sender : address) (t : N) (L : string) :
  ownerOf s t = Ok sender → getAura s t = Ok L →
  transact (UpdateAura sender t L) s
  = (if _isValidAura L then (s, [AuraUpdated t L L], Success Void)
     else (s, [], Failed InvalidTier)) ∧
  ∀ frames log,
    observable (Config.mk s frames log) → t ∉ (Frame.token <$> frames) →
    _isValidAura L = true.
Proof.
  intros Hown Haura.
  assert (Hlt : (t <? _nextTokenId s) = true).
  { unfold getAura in Haura. by destruct (t <? _nextTokenId s). }
  assert (HL : auraOf s t = L).
  { unfold getAura in Haura. rewrite Hlt in Haura. by injection Haura. }
  split.
  - unfold transact. cbn [exec]. unfold updateAura.
    rewrite Hown, bind_Ok_l, N.eqb_refl. destruct (_isValidAura L) eqn:Hvalid; [|done].
    simpl. rewrite HL.
    assert (Hsome : _tokenAuras s !! t = Some L).
    { unfold auraOf in HL. destruct (_tokenAuras s !! t) as [L'|]; simpl in HL; [by subst|].
      by subst L. }
    unfold set_tokenAuras. rewrite insert_id by done. by destruct s.
  - intros frames log Hobs Hnp.
    destruct (observable_inv _ Hobs) as ((_ & _ & _ & _ & _ & Hdone & _) & _ & _).
    apply N.ltb_lt in Hlt.
    destruct (Hdone t Hlt Hnp) as (_ & L' & _ & _ & HL' & Hvalid).
    simpl in HL'. unfold auraOf in HL. rewrite HL' in HL. simpl in HL. by subst.
Qed.

Lemma updateAura_same_label_witness :
  transact (UpdateAura 100 1 "water") after_reentrant_mint
  = (after_reentrant_mint, [AuraUpdated 1 "water" "water"], Success Void) ∧
  transact (UpdateAura 100 0 EmptyString) (mint_mid 100 (constructor 9 "https://x/"))
  = (mint_mid 100 (constructor 9 "https://x/"), [], Failed InvalidTier).
Proof.
  split.
  - exact (proj1 (updateAura_same_label after_reentrant_mint 100 1 "water" eq_refl eq_refl)).
  - exact (proj1 (updateAura_same_label (mint_mid 100 (constructor 9 "https://x/")) 100 0
                    EmptyString eq_refl eq_refl)).
Defined.


Lemma counter_bounded_exec c s s' ev r :
  exec c s = Ok (s', ev, r) → _nextTokenId s ≤ uint256_max → _nextTokenId s' ≤ uint256_max.
Proof.
  revert c s s' ev r.
  apply (exec_rel (fun s _ s' =>
           _nextTokenId s ≤ uint256_max → _nextTokenId s' ≤ uint256_max)); try done.
  - auto.
  - intros sender T L s s2 ev2 _ _ _ _ Hmax IH Hs. simpl in *. apply IH. lia.
Qed.

(** X22: the counter never wraps. In every reachable state the counter is at
    most 2^256 - 1; and with the counter put at that value, a [mint] for a
    free target and with a valid label reverts with the arithmetic panic
    instead of starting again at token 0, and leaves the state as it is. *)
Theorem counter_never_wraps (s : State) (sender T : address) (L : string)
    (callbacks : list call) (accepted : bool) :
  reachable s → hasMinted s T = false → _isValidAura L = true →
  _nextTokenId s ≤ uint256_max ∧
  transact (Mint sender T L callbacks accepted) (set_nextTokenId uint256_max s)
  = (set_nextTokenId uint256_max s, [], Failed Panic_overflow).
Proof.
  intros Hreach Hfree Hvalid. split.
  - clear Hfree. induction Hreach as [d uri | s c s' ev r _ IH Hexec]; [done|].
    by eapply counter_bounded_exec.
  - unfold transact. cbn [exec]. unfold mint. unfold hasMinted in Hfree.
    change (minted (set_nextTokenId uint256_max s) T) with (minted s T).
    rewrite Hfree, Hvalid. cbn [negb]. rewrite !require_true, !bind_Ok_l.
    change (_nextTokenId (set_nextTokenId uint256_max s)) with uint256_max.
    by rewrite N.eqb_refl.
Qed.

Lemma counter_never_wraps_witness :
  _nextTokenId after_reentrant_mint ≤ uint256_max ∧
  transact (Mint 100 9 "fire" [] true) (set_nextTokenId uint256_max after_reentrant_mint)
  = (set_nextTokenId uint256_max after_reentrant_mint, [], Failed Panic_overflow).
Proof.
  exact (counter_never_wraps after_reentrant_mint 100 9 "fire" [] true
           reachable_after_reentrant_mint eq_refl eq_refl).
Defined.

Lemma autofill_filled st a :
  wallet (autofill st) = Some a → falsy a = false → falsy (targetAddress (autofill st)) = false.
Proof.
  unfold autofill. destruct (wallet st) as [w|] eqn:Hw; [|by rewrite Hw].
  destruct (falsy w) eqn:Hfw; simpl.
  - rewrite Hw. intros [= <-]. congruence.
  - destruct (falsy (targetAddress st)) eqn:Hft; simpl; [|rewrite Hw; by intros _ _].
    intros [= <-]. done.
Qed.

(** X23: while a wallet with an account is connected the input is never
    empty, because the effect fills in the account whenever it is: after any
    actions, if the wallet has a non-empty account, the target address is not
    empty, so a scan then never answers Please enter a Base address. *)
Theorem connected_input_never_empty (l : list action) (a : string)
    (fetchTxCount : string → Z) :
  wallet (acts l initialState) = Some a → a ≠ EmptyString →
  targetAddress (acts l initialState) ≠ EmptyString ∧
  error (handleScan fetchTxCount (acts l initialState)).1 ≠ "Please enter a Base address".
Proof.
  intros Hw Ha.
  assert (Hfa : falsy a = false) by (by destruct a).
  assert (Hfilled : falsy (targetAddress (acts l initialState)) = false).
  { destruct l as [|x l] using rev_ind; [done|].
    unfold acts in *. rewrite fold_left_app in *. simpl in *.
    by apply (autofill_filled _ a). }
  split.
  - intros Heq. by rewrite Heq in Hfilled.
  - unfold handleScan. rewrite Hfilled.
    destruct (address_format_test _); simpl; [|done].
    destruct (getAuraType _); [|done]. by destruct (AURA_CONFIG _).
Qed.

Lemma connected_input_never_empty_witness :
  targetAddress
    (acts [SetWallet (Some "0x00000000000000000000000000000000000000Ab");
           SetTargetAddress EmptyString] initialState)
  ≠ EmptyString.
Proof.
  assert (Hne : "0x00000000000000000000000000000000000000Ab" ≠ EmptyString) by discriminate.
  exact (proj1 (connected_input_never_empty
                  [SetWallet (Some "0x00000000000000000000000000000000000000Ab");
                   SetTargetAddress EmptyString]
                  "0x00000000000000000000000000000000000000Ab" (fun _ => 0%Z)
                  eq_refl Hne)).
Defined.
